(** * Cricket roster service: a shallow embedding of [src/index.js]

    The development follows the layout of the source file: string helpers
    ([slugify], [mapMimeToExtension]), the read handlers
    ([GET /players/grouped], [GET /players], [GET /players/:uniquePlayerId])
    and the write handler ([POST /players]); the choice of the listening
    port ([pickPortFromArgs], [pickPortFromEnv], [PORT]) comes after them.

    Conventions of the embedding.
    - A JavaScript string whose units are all ASCII is the [string] of these
      units. The functions of the platform that read the units of a string
      ([toLowerCase], [trim], the class [.] of a pattern, the decoder of
      [Buffer.from], [parseInt]) are embedded as they act on such strings,
      and the rendering of a number as it is for the integers that [String]
      writes as decimal numerals. On other values the embedding is not
      meant to follow the platform: a statement that depends on the result
      of one of these functions carries the premise that the values
      involved are of this kind ([Exact.ascii], [Exact.safe]), or is about
      the outcome of the handler rather than about its input.
    - A JSON field value is a scalar [JValue]; [undefined] is [None].
    - A JavaScript object used as a record is a [gmap string JValue].
    - An exception that leaves a handler is the outcome [Uncaught]. *)

From Stdlib Require Import Ascii String NArith ZArith.
From stdpp Require Import base option list strings gmap pretty sorting.

Local Open Scope stdpp_scope.

(** ** Characters and strings *)

Module Chars.

Definition code (c : ascii) : N := N_of_ascii c.

Definition between (lo hi : N) (c : ascii) : bool :=
  ((lo <=? code c) && (code c <=? hi))%N.

Definition is_upper : ascii → bool := between 65 90.
Definition is_lower : ascii → bool := between 97 122.
Definition is_digit : ascii → bool := between 48 57.

(** The character class [[a-z0-9]] of [slugify]. *)
Definition is_slug_char (c : ascii) : bool := is_lower c || is_digit c.

Definition is_hyphen (c : ascii) : bool := (code c =? 45)%N.

(** [String.prototype.toLowerCase] on one unit. *)
Definition lower (c : ascii) : ascii :=
  if is_upper c then ascii_of_N (code c + 32) else c.

(** The line terminators among the ASCII units, which [.] of a regular
    expression does not match. *)
Definition is_line_terminator (c : ascii) : bool :=
  (code c =? 10)%N || (code c =? 13)%N.

(** Removal of the longest prefix, and of the longest suffix, of units
    that satisfy [p]: the effect of replacing [^p+] and [p+$] by the empty
    string. *)
Fixpoint drop_leading (p : ascii → bool) (l : list ascii) : list ascii :=
  match l with
  | [] => []
  | c :: l' => if p c then drop_leading p l' else l
  end.

Fixpoint drop_trailing (p : ascii → bool) (l : list ascii) : list ascii :=
  match l with
  | [] => []
  | c :: l' =>
      match drop_trailing p l' with
      | [] => if p c then [] else [c]
      | r => c :: r
      end
  end.

(** [replace(/[^a-z0-9]+/g, '-')]: every maximal run of units outside the
    class becomes one hyphen. [in_run] tells that the previous unit was
    outside the class, so the hyphen of this run is already written. *)
Fixpoint replace_runs (in_run : bool) (l : list ascii) : list ascii :=
  match l with
  | [] => []
  | c :: l' =>
      if is_slug_char c then c :: replace_runs false l'
      else if in_run then replace_runs true l'
      else "-"%char :: replace_runs true l'
  end.

(** [replace(/^-+|-+$/g, '')]. *)
Definition strip_hyphens (l : list ascii) : list ascii :=
  drop_trailing is_hyphen (drop_leading is_hyphen l).

End Chars.

Definition chars (s : string) : list ascii := list_ascii_of_string s.
Definition str (l : list ascii) : string := string_of_list_ascii l.

(** [String.prototype.toLowerCase] and [String.prototype.trim], as they
    act on a string of ASCII units: the letters [A] to [Z] have a lower-case
    form, and the white space is the tabulations, the line feed, the form
    feed, the carriage return and the space. *)
Definition toLowerCase (s : string) : string :=
  str (Chars.lower <$> chars s).

Definition trim (s : string) : string :=
  str (Chars.drop_trailing Ascii.is_space
         (Chars.drop_leading Ascii.is_space (chars s))).

(** [slugify] of the source, on a string argument:
    [value.toLowerCase().replace(/[^a-z0-9]+/g, '-').replace(/^-+|-+$/g, '')
     || 'player']. The empty string is falsy. *)
Definition slugify (value : string) : string :=
  let replaced :=
    str (Chars.strip_hyphens
           (Chars.replace_runs false (chars (toLowerCase value)))) in
  if decide (replaced = "") then "player" else replaced.

(** [mapMimeToExtension] of the source: a [switch] on the exact string. *)
Definition mapMimeToExtension (mime : string) : string :=
  if decide (mime = "image/svg+xml") then ".svg"
  else if decide (mime = "image/jpeg") then ".jpg"
  else if decide (mime = "image/jpg") then ".jpg"
  else if decide (mime = "image/png") then ".png"
  else ".png".

(** ** The data-URL pattern of the write handler

    [/^data:(image\/[a-zA-Z0-9+.-]+);base64,(.+)$/]. The class of the first
    group excludes [;], so the group is the longest run of class units after
    [data:image/]; the second group is the whole non-empty rest, which may
    hold no line terminator since [$] is the end of the input. *)

Module DataUrl.

Definition is_mime_char (c : ascii) : bool :=
  Chars.is_lower c || Chars.is_upper c || Chars.is_digit c
  || (Chars.code c =? 43)%N || (Chars.code c =? 46)%N
  || (Chars.code c =? 45)%N.

Fixpoint strip_prefix (p l : list ascii) : option (list ascii) :=
  match p, l with
  | [], _ => Some l
  | a :: p', b :: l' => if decide (a = b) then strip_prefix p' l' else None
  | _ :: _, [] => None
  end.

Fixpoint span (p : ascii → bool) (l : list ascii)
    : list ascii * list ascii :=
  match l with
  | [] => ([], [])
  | c :: l' =>
      if p c then let '(run, rest) := span p l' in (c :: run, rest)
      else ([], l)
  end.

Definition exec (input : string) : option (string * string) :=
  match strip_prefix (chars "data:image/") (chars input) with
  | None => None
  | Some after_scheme =>
      let '(subtype, after_mime) := span is_mime_char after_scheme in
      match subtype, strip_prefix (chars ";base64,") after_mime with
      | _ :: _, Some (c :: payload) =>
          if existsb Chars.is_line_terminator (c :: payload) then None
          else Some (str (chars "image/" ++ subtype), str (c :: payload))
      | _, _ => None
      end
  end.

End DataUrl.

(** ** The base64 decoder of the platform

    [Buffer.from(s, 'base64')] is not code of this repository. On a string
    it never throws: units outside the alphabet (standard or URL-safe) are
    skipped, decoding stops at the first [=], and the bits of an incomplete
    last group that do not fill a byte are dropped. The embedding is that
    of the decoder on strings of ASCII units. *)

Module Base64.

Definition unbase64 (c : ascii) : option N :=
  let n := Chars.code c in
  if Chars.is_upper c then Some (n - 65)%N
  else if Chars.is_lower c then Some (n - 71)%N
  else if Chars.is_digit c then Some (n + 4)%N
  else if ((n =? 43) || (n =? 45))%N then Some 62%N
  else if ((n =? 47) || (n =? 95))%N then Some 63%N
  else None.

Fixpoint sextets (l : list ascii) : list N :=
  match l with
  | [] => []
  | c :: l' =>
      if (Chars.code c =? 61)%N then []
      else match unbase64 c with
           | Some v => v :: sextets l'
           | None => sextets l'
           end
  end.

Fixpoint bytes_of_sextets (l : list N) : list N :=
  match l with
  | a :: b :: c :: d :: l' =>
      (a * 4 + b / 16)%N :: ((b mod 16) * 16 + c / 4)%N
        :: ((c mod 4) * 64 + d)%N :: bytes_of_sextets l'
  | [a; b; c] => [(a * 4 + b / 16)%N; ((b mod 16) * 16 + c / 4)%N]
  | [a; b] => [(a * 4 + b / 16)%N]
  | _ => []
  end.

Definition decode (s : string) : list N :=
  bytes_of_sextets (sextets (chars s)).

(** Strict base64 (RFC 4648, section 4), the notion the specification
    calls valid: groups of four digits of the standard alphabet, the last
    group possibly padded with one or two [=]. *)
Definition is_digit64 (c : ascii) : bool :=
  Chars.is_upper c || Chars.is_lower c || Chars.is_digit c
  || (Chars.code c =? 43)%N || (Chars.code c =? 47)%N.

Definition is_pad (c : ascii) : bool := (Chars.code c =? 61)%N.

Fixpoint valid_groups (l : list ascii) : bool :=
  match l with
  | [] => true
  | [a; b; c; d] =>
      is_digit64 a && is_digit64 b
      && ((is_digit64 c && (is_digit64 d || is_pad d))
          || (is_pad c && is_pad d))
  | a :: b :: c :: d :: l' =>
      is_digit64 a && is_digit64 b && is_digit64 c && is_digit64 d
      && valid_groups l'
  | _ => false
  end.

Definition valid (s : string) : bool := valid_groups (chars s).

End Base64.

(** ** JavaScript values, errors and outcomes *)

(** The value of a field of a parsed JSON object. Numbers are only stored
    and copied by the service; they are modelled by integers. *)
Inductive JValue : Type :=
  | JNull
  | JBool (b : bool)
  | JNum (n : Z)
  | JStr (s : string).

(** An object of the source: a request body or a player record. A property
    that is absent reads as [undefined], here [None]. *)
Abbreviation JsObject := (gmap string JValue).
Abbreviation Player := (gmap string JValue).

(** A path below the project root ([path.join(__dirname, '..', ...)]), as
    its list of segments. *)
Abbreviation Path := (list string).

Inductive JsError : Type :=
  | TypeError
  | IOError (path : Path).

#[global] Instance JValue_eq_dec : EqDecision JValue.
Proof. solve_decision. Defined.

#[global] Instance JsError_eq_dec : EqDecision JsError.
Proof. solve_decision. Defined.

Inductive Outcome (A : Type) : Type :=
  | Return (a : A)
  | Throw (e : JsError).
Arguments Return {A} a.
Arguments Throw {A} e.

Definition bind {A B} (m : Outcome A) (k : A → Outcome B) : Outcome B :=
  match m with
  | Return a => k a
  | Throw e => Throw e
  end.

Notation "'let!' x ':=' m 'in' k" := (bind m (λ x, k))
  (at level 10, x name, m at level 100, k at level 200).

(** [String(v)], the coercion applied by [RegExp.prototype.exec] and by a
    computed property access. A number is rendered by its decimal numeral,
    as [String] does for the integers that a double holds exactly
    ([Exact.safe]). *)
Definition ToString (v : option JValue) : string :=
  match v with
  | None => "undefined"
  | Some JNull => "null"
  | Some (JBool true) => "true"
  | Some (JBool false) => "false"
  | Some (JNum n) => pretty n
  | Some (JStr s) => s
  end.

(** [v.toLowerCase()]: a method call on [undefined], [null], a number or a
    boolean throws a [TypeError]. *)
Definition toLowerCase_of (v : option JValue) : Outcome string :=
  match v with
  | Some (JStr s) => Return (toLowerCase s)
  | _ => Throw TypeError
  end.

(** [Array.prototype.find] and [Array.prototype.filter] with a callback that
    may throw; the callback runs on the elements in order and [find] stops at
    the first hit. *)
Fixpoint find_with {A} (p : A → Outcome bool) (l : list A)
    : Outcome (option A) :=
  match l with
  | [] => Return None
  | x :: l' =>
      let! b := p x in
      if b : bool then Return (Some x) else find_with p l'
  end.

Fixpoint filter_with {A} (p : A → Outcome bool) (l : list A)
    : Outcome (list A) :=
  match l with
  | [] => Return []
  | x :: l' =>
      let! b := p x in
      let! rest := filter_with p l' in
      Return (if b : bool then x :: rest else rest)
  end.

(** [Array.prototype.join]. *)
Fixpoint join (sep : string) (l : list string) : string :=
  match l with
  | [] => ""
  | [x] => x
  | x :: l' => x +:+ sep +:+ join sep l'
  end.

(** An object literal [{ k1: v1, ..., kn: vn }]; a property whose value is
    [undefined] does not appear in the JSON rendering and is left out. *)
Fixpoint object_literal (props : list (string * option JValue)) : JsObject :=
  match props with
  | [] => ∅
  | (k, Some v) :: props' => <[k := v]> (object_literal props')
  | (_, None) :: props' => object_literal props'
  end.

(** ** HTTP responses *)

Inductive Body : Type :=
  | Message (message : string)
  | Failure (message : string) (error : JsError)
  | PlayerBody (player : Player)
  | RosterBody (teamName : option JValue) (players : list JsObject)
  | GroupedBody (groups : list (string * list Player)).

Record Response : Type := { status : nat; json : Body }.

(** What a handler does: it sends a response, or an exception leaves it. *)
Inductive Handled : Type :=
  | Sent (r : Response)
  | Uncaught (e : JsError).

Definition respond (o : Outcome Response) : Handled :=
  match o with
  | Return r => Sent r
  | Throw e => Uncaught e
  end.

#[global] Instance Body_eq_dec : EqDecision Body.
Proof. solve_decision. Defined.

#[global] Instance Response_eq_dec : EqDecision Response.
Proof. solve_decision. Defined.

#[global] Instance Handled_eq_dec : EqDecision Handled.
Proof. solve_decision. Defined.

(** ** Read handlers *)

(** *** [GET /players/grouped] *)

Module Grouping.

(** The object [groupedMap]: its own properties in creation order. *)
Abbreviation Groups := (list (string * list Player)).

(** The properties that an object literal inherits from
    [Object.prototype]; each holds a function or an object, so it is
    truthy and has no [push]. *)
Definition object_prototype_keys : list string :=
  [ "constructor"; "__defineGetter__"; "__defineSetter__";
    "hasOwnProperty"; "__lookupGetter__"; "__lookupSetter__";
    "isPrototypeOf"; "propertyIsEnumerable"; "toString"; "valueOf";
    "__proto__"; "toLocaleString" ].

(** [acc[key] = acc[key] || []; acc[key].push(player)] where [key] names an
    own property or no property at all: an existing array is kept in its
    place and extended, a new one is created last. *)
Fixpoint push_member (key : string) (player : Player) (acc : Groups)
    : Groups :=
  match acc with
  | [] => [(key, [player])]
  | (k, members) :: acc' =>
      if decide (k = key) then (k, members ++ [player]) :: acc'
      else (k, members) :: push_member key player acc'
  end.

(** The callback of [reduce]. For an inherited property the first
    statement stores the inherited value and [push] is not a function. *)
Definition group_step (acc : Groups) (player : Player) : Outcome Groups :=
  let key := ToString (player !! "teamName") in
  if decide (key ∈ object_prototype_keys) then Throw TypeError
  else Return (push_member key player acc).

Fixpoint reduce_with {A B} (f : B → A → Outcome B) (l : list A) (acc : B)
    : Outcome B :=
  match l with
  | [] => Return acc
  | x :: l' => let! acc' := f acc x in reduce_with f l' acc'
  end.

(** A property name is an array index when it is the canonical decimal
    numeral of an integer below [2^32 - 1]. *)
Fixpoint parse_digits (acc : N) (l : list ascii) : option N :=
  match l with
  | [] => Some acc
  | c :: l' =>
      if Chars.is_digit c
      then parse_digits (acc * 10 + (Chars.code c - 48))%N l'
      else None
  end.

Definition array_index (key : string) : option N :=
  match chars key with
  | [] => None
  | l =>
      match parse_digits 0 l with
      | Some n =>
          if decide (pretty n = key ∧ (n < 4294967295)%N) then Some n
          else None
      | None => None
      end
  end.

Fixpoint insert_by_index {X} (e : N * X) (l : list (N * X))
    : list (N * X) :=
  match l with
  | [] => [e]
  | e' :: l' =>
      if (e.1 <=? e'.1)%N then e :: l else e' :: insert_by_index e l'
  end.

Definition sort_by_index {X} (l : list (N * X)) : list (N * X) :=
  foldr insert_by_index [] l.

(** [Object.entries]: the own properties, array indices first in ascending
    numeric order, then the other names in creation order. *)
Definition Object_entries (o : Groups) : Groups :=
  (snd <$> sort_by_index
             (omap (λ kv, match array_index kv.1 with
                          | Some n => Some (n, kv)
                          | None => None
                          end) o))
  ++ filter (λ kv, array_index kv.1 = None) o.

End Grouping.

Definition getPlayersGrouped (players : list Player) : Handled :=
  respond (
    let! groupedMap := Grouping.reduce_with Grouping.group_step players [] in
    let groupedArray := Grouping.Object_entries groupedMap in
    Return {| status := 200; json := GroupedBody groupedArray |}).

(** *** [GET /players?teamName=...] *)

(** [req.query.teamName]: absent, one string, or an array or object built by
    the query parser from a repeated or bracketed parameter. *)
Inductive QueryValue : Type :=
  | QAbsent
  | QString (s : string)
  | QStructured.

Definition summaryFields : list string :=
  ["playerName"; "image"; "role"; "uniquePlayerId"].

Definition summary (player : Player) : JsObject :=
  object_literal ((λ k, (k, player !! k)) <$> summaryFields).

Definition getPlayersByTeam (players : list Player) (teamName : QueryValue)
    : Handled :=
  match teamName with
  | QString name =>
      if decide (name = "") then
        Sent {| status := 400;
                json := Message "teamName query parameter is required" |}
      else
        let normalized := toLowerCase (trim name) in
        respond (
          let! roster :=
            filter_with
              (λ player,
                 let! team := toLowerCase_of (player !! "teamName") in
                 Return (bool_decide (team = normalized)))
              players in
          match roster with
          | [] =>
              Return {| status := 404;
                        json := Message ("No players found for team "
                                         +:+ name) |}
          | first :: _ =>
              Return {| status := 200;
                        json := RosterBody (first !! "teamName")
                                           (summary <$> roster) |}
          end)
  | QAbsent | QStructured =>
      Sent {| status := 400;
              json := Message "teamName query parameter is required" |}
  end.

(** *** [GET /players/:uniquePlayerId] *)

Definition getPlayerById (players : list Player) (uniquePlayerId : string)
    : Handled :=
  respond (
    let! player :=
      find_with
        (λ entry,
           let! id := toLowerCase_of (entry !! "uniquePlayerId") in
           Return (bool_decide (id = toLowerCase uniquePlayerId)))
        players in
    match player with
    | None =>
        Return {| status := 404;
                  json := Message ("Player with id " +:+ uniquePlayerId
                                   +:+ " not found") |}
    | Some found => Return {| status := 200; json := PlayerBody found |}
    end).

(** ** The process state: the collection and the disk *)

(** The content of a file: the bytes of an image, or the rendering
    [JSON.stringify(players, null, 2)] of a collection, kept as the
    collection it renders. *)
Inductive FileData : Type :=
  | Bytes (data : list N)
  | PlayersJson (collection : list Player).

Inductive FsCall : Type :=
  | Mkdir (dir : Path)
  | WriteFile (path : Path) (data : FileData).

(** The disk below the project root. [faulty] holds the paths on which a
    directory creation or a file write is rejected by the environment
    (permissions, a full disk, ...): the source of every [IOError].
    [calls] records every call made to the file system, in order, whether
    it succeeded or not. *)
Record Disk : Type := {
  dirs : gset Path;
  files : gmap Path FileData;
  faulty : gset Path;
  calls : list FsCall
}.

Record Server : Type := {
  players : list Player;
  disk : Disk
}.

#[global] Instance FileData_eq_dec : EqDecision FileData.
Proof. solve_decision. Defined.

#[global] Instance FsCall_eq_dec : EqDecision FsCall.
Proof. solve_decision. Defined.

#[global] Instance Disk_eq_dec : EqDecision Disk.
Proof. solve_decision. Defined.

#[global] Instance Server_eq_dec : EqDecision Server.
Proof. solve_decision. Defined.

Definition publicDir : Path := ["public"].
Definition playersDir : Path := publicDir ++ ["players"].
Definition playersDataPath : Path := ["data"; "iplPlayers.json"].

(** Statements of an [async] body: they read and change the process state
    and may throw; the state reached when an exception is thrown is kept. *)
Definition Block (A : Type) : Type := Server → Outcome A * Server.

Definition block_ret {A} (a : A) : Block A := λ s, (Return a, s).

Definition block_bind {A B} (m : Block A) (k : A → Block B) : Block B :=
  λ s, match m s with
       | (Return a, s') => k a s'
       | (Throw e, s') => (Throw e, s')
       end.

Definition lift {A} (o : Outcome A) : Block A := λ s, (o, s).

Notation "'do!' x ':=' m 'in' k" := (block_bind m (λ x, k))
  (at level 10, x name, m at level 100, k at level 200).

(** All the non-empty prefixes of a path: the directories that a recursive
    [mkdir] ensures. *)
Definition ancestors (dir : Path) : list Path :=
  (λ n, take n dir) <$> seq 1 (length dir).

(** The disk after a call that was rejected, after a directory creation and
    after a file write. A call is rejected as a whole, before it has any
    effect (as for a lack of permission on the path); a write that fails
    half-way is not modelled, and no statement below relies on what a
    rejected call leaves behind. *)
Definition rejected (call : FsCall) (d : Disk) : Disk :=
  {| dirs := dirs d; files := files d; faulty := faulty d;
     calls := calls d ++ [call] |}.

Definition made (dir : Path) (d : Disk) : Disk :=
  {| dirs := dirs d ∪ list_to_set (ancestors dir); files := files d;
     faulty := faulty d; calls := calls d ++ [Mkdir dir] |}.

Definition written (path : Path) (data : FileData) (d : Disk) : Disk :=
  {| dirs := dirs d; files := <[path := data]> (files d);
     faulty := faulty d; calls := calls d ++ [WriteFile path data] |}.

(** [fs.mkdir(dir, { recursive: true })]. *)
Definition fs_mkdir (dir : Path) : Block unit :=
  λ s,
    if decide (dir ∈ faulty (disk s)) then
      (Throw (IOError dir),
       {| players := players s; disk := rejected (Mkdir dir) (disk s) |})
    else
      (Return (), {| players := players s; disk := made dir (disk s) |}).

(** [fs.writeFile(path, data)]: the file is created or overwritten. *)
Definition fs_writeFile (path : Path) (data : FileData) : Block unit :=
  λ s,
    if decide (path ∈ faulty (disk s)) then
      (Throw (IOError path),
       {| players := players s;
          disk := rejected (WriteFile path data) (disk s) |})
    else
      (Return (),
       {| players := players s; disk := written path data (disk s) |}).

(** [players.push(player)] on the shared array. *)
Definition players_push (player : Player) : Block unit :=
  λ s, (Return (), {| players := players s ++ [player]; disk := disk s |}).

(** A read of the shared array, as [JSON.stringify(players, ...)] does. *)
Definition players_read : Block (list Player) :=
  λ s, (Return (players s), s).

(** ** The write handler: [POST /players] *)

Definition requiredFields : list string :=
  [ "playerName"; "role"; "teamName"; "countryName"; "age"; "battingSyle";
    "uniquePlayerId"; "runsScored"; "centuriesScored"; "wicketsTaken";
    "image" ].

(** [Buffer.from(v, 'base64')]: a string is decoded, any other scalar is
    rejected with a [TypeError]. *)
Definition Buffer_from_base64 (v : option JValue) : Outcome (list N) :=
  match v with
  | Some (JStr s) => Return (Base64.decode s)
  | _ => Throw TypeError
  end.

(** [slugify(v)]: the default parameter replaces [undefined] only. *)
Definition slugify_of (v : option JValue) : Outcome string :=
  match v with
  | None => Return (slugify "")
  | Some (JStr s) => Return (slugify s)
  | Some _ => Throw TypeError
  end.

(** The pair [(base64Payload, extension)] after the data-URL test. *)
Definition payload_and_extension (image : option JValue)
    : option JValue * string :=
  match DataUrl.exec (ToString image) with
  | Some (mime, payload) => (Some (JStr payload), mapMimeToExtension mime)
  | None => (image, ".png")
  end.

(** The body of the [try] statement. *)
Definition addPlayer (body : JsObject) : Block Response :=
  let playerName := body !! "playerName" in
  let image := body !! "image" in
  let role := body !! "role" in
  let teamName := body !! "teamName" in
  let countryName := body !! "countryName" in
  let age := body !! "age" in
  let battingSyle := body !! "battingSyle" in
  let uniquePlayerId := body !! "uniquePlayerId" in
  let runsScored := body !! "runsScored" in
  let centuriesScored := body !! "centuriesScored" in
  let wicketsTaken := body !! "wicketsTaken" in
  let '(base64Payload, extension) := payload_and_extension image in
  do! imageBuffer := lift (Buffer_from_base64 base64Payload) in
  do! slug := lift (slugify_of playerName) in
  let fileName := slug +:+ extension in
  let relativePath := "/players/" +:+ fileName in
  let absolutePath := playersDir ++ [fileName] in
  do! _ := fs_mkdir playersDir in
  do! _ := fs_writeFile absolutePath (Bytes imageBuffer) in
  let newPlayer :=
    object_literal
      [ ("playerName", playerName);
        ("image", Some (JStr relativePath));
        ("role", role);
        ("teamName", teamName);
        ("countryName", countryName);
        ("age", age);
        ("battingSyle", battingSyle);
        ("uniquePlayerId", uniquePlayerId);
        ("runsScored", runsScored);
        ("centuriesScored", centuriesScored);
        ("wicketsTaken", wicketsTaken) ] in
  do! _ := players_push newPlayer in
  do! snapshot := players_read in
  do! _ := fs_writeFile playersDataPath (PlayersJson snapshot) in
  block_ret {| status := 201; json := PlayerBody newPlayer |}.

(** The callback of the duplicate search. [||] evaluates its right operand
    only when the left one is false. *)
Definition is_duplicate (uniquePlayerId playerName : option JValue)
    (player : Player) : Outcome bool :=
  let! storedId := toLowerCase_of (player !! "uniquePlayerId") in
  let! givenId := toLowerCase_of uniquePlayerId in
  if bool_decide (storedId = givenId) then Return true
  else
    let! storedName := toLowerCase_of (player !! "playerName") in
    let! givenName := toLowerCase_of playerName in
    Return (bool_decide (storedName = givenName)).

(** The handler. The presence test and the duplicate search run before the
    [try] statement: an exception there is not caught by it. *)
Definition postPlayers (body : JsObject) (s : Server) : Handled * Server :=
  let missing := filter (λ field, body !! field = None) requiredFields in
  match missing with
  | _ :: _ =>
      (Sent {| status := 400;
               json := Message ("Missing required fields: "
                                +:+ join ", " missing) |}, s)
  | [] =>
      match find_with
              (is_duplicate (body !! "uniquePlayerId") (body !! "playerName"))
              (players s) with
      | Throw e => (Uncaught e, s)
      | Return (Some duplicate) =>
          (Sent {| status := 400; json := Message "Player already exists" |},
           s)
      | Return None =>
          match addPlayer body s with
          | (Return response, s') => (Sent response, s')
          | (Throw error, s') =>
              (Sent {| status := 500;
                       json := Failure "Failed to add player" error |}, s')
          end
      end
  end.

(** ** Notions of the specification *)

Module Spec.

(** *** Slugs, by words

    The words of a string are its maximal runs of units of [[a-z0-9]].
    [split_words l] is the run at the head of [l] (empty when [l] starts
    outside the class) and the words after it. *)
Definition cons_word (w : list ascii) (ws : list (list ascii))
    : list (list ascii) :=
  match w with
  | [] => ws
  | _ :: _ => w :: ws
  end.

Fixpoint split_words (l : list ascii) : list ascii * list (list ascii) :=
  match l with
  | [] => ([], [])
  | c :: l' =>
      let '(w, ws) := split_words l' in
      if Chars.is_slug_char c then (c :: w, ws) else ([], cons_word w ws)
  end.

Definition words (l : list ascii) : list (list ascii) :=
  let '(w, ws) := split_words l in cons_word w ws.

Fixpoint hyphenate (ws : list (list ascii)) : list ascii :=
  match ws with
  | [] => []
  | [w] => w
  | w :: ws' => w ++ "-"%char :: hyphenate ws'
  end.


(** The same in the words of the specification, with its own alphabets:
    [lowercase] gives the letter at the same place of the lower-case
    alphabet, [alphanumeric] is membership in [[a-z0-9]], and [runs keep [] l]
    are the maximal runs of units of [l] that satisfy [keep], from left to
    right. *)
Definition upper_letters : string := "ABCDEFGHIJKLMNOPQRSTUVWXYZ".
Definition lower_letters : string := "abcdefghijklmnopqrstuvwxyz".
Definition decimal_digits : string := "0123456789".

Definition lowercase (c : ascii) : ascii :=
  match list_find (λ u, u = c) (chars upper_letters) with
  | Some (i, _) => default c (chars lower_letters !! i)
  | None => c
  end.

Definition alphanumeric (c : ascii) : bool :=
  bool_decide (c ∈ chars (lower_letters +:+ decimal_digits)).

Fixpoint runs (keep : ascii → bool) (run l : list ascii)
    : list (list ascii) :=
  match l with
  | [] =>
      match run with
      | [] => []
      | _ :: _ => [reverse run]
      end
  | c :: l' =>
      if keep c then runs keep (c :: run) l'
      else
        match run with
        | [] => runs keep [] l'
        | _ :: _ => reverse run :: runs keep [] l'
        end
  end.

Definition slug (value : string) : string :=
  match runs alphanumeric [] (lowercase <$> chars value) with
  | [] => "player"
  | ws => str (hyphenate ws)
  end.

(** Auxiliary notions for the comparison with [slugify]: a word of the
    class, the words each written after a hyphen, and the hyphen left by
    a run outside the class at the end of the input. *)
Definition in_class (w : list ascii) : Prop :=
  Forall (λ c, Chars.is_slug_char c = true) w.

Definition separated (ws : list (list ascii)) : list ascii :=
  concat ((λ w, "-"%char :: w) <$> ws).

Fixpoint trail (l : list ascii) : list ascii :=
  match l with
  | [] => []
  | c :: l' =>
      match l' with
      | [] => if Chars.is_slug_char c then [] else ["-"%char]
      | _ :: _ => trail l'
      end
  end.

(** *** Data URLs and the extension table *)

(** [input] is [data:<mime>;base64,<payload>] with an image MIME type
    over [[a-zA-Z0-9+.-]] and a non-empty payload that holds neither a line
    feed nor a carriage return. *)
Definition mime_units : string :=
  lower_letters +:+ upper_letters +:+ decimal_digits +:+ "+.-".

Definition is_data_url (input mime payload : string) : Prop :=
  ∃ subtype : string,
    subtype ≠ ""
    ∧ Forall (λ c, c ∈ chars mime_units) (chars subtype)
    ∧ mime = "image/" +:+ subtype
    ∧ payload ≠ ""
    ∧ ("010"%char ∉ chars payload)
    ∧ ("013"%char ∉ chars payload)
    ∧ input = "data:" +:+ mime +:+ ";base64," +:+ payload.

(** *** Base64 (RFC 4648, section 4)

    The encoding of a sequence of bytes: three bytes give four digits of the
    standard alphabet, and a last group of one or two bytes is padded with
    [=]. [insignificant] are the units that are neither a digit of the
    standard or URL-safe alphabet nor the padding. *)
Definition base64_digits : string :=
  upper_letters +:+ lower_letters +:+ decimal_digits +:+ "+/".

Definition digit64 (v : N) : ascii :=
  default "A"%char (chars base64_digits !! N.to_nat v).

Fixpoint base64 (bytes : list N) : list ascii :=
  match bytes with
  | a :: b :: c :: rest =>
      digit64 (a / 4) :: digit64 ((a mod 4) * 16 + b / 16)
        :: digit64 ((b mod 16) * 4 + c / 64) :: digit64 (c mod 64)
        :: base64 rest
  | [a; b] =>
      [ digit64 (a / 4); digit64 ((a mod 4) * 16 + b / 16);
        digit64 ((b mod 16) * 4); "="%char ]
  | [a] => [ digit64 (a / 4); digit64 ((a mod 4) * 16); "="%char; "="%char ]
  | [] => []
  end%N.

Definition insignificant (c : ascii) : Prop :=
  c ∉ chars (base64_digits +:+ "-_=").

Definition extension_table (mime : string) : string :=
  if decide (mime = "image/svg+xml") then ".svg"
  else if decide (mime = "image/jpeg" ∨ mime = "image/jpg") then ".jpg"
  else ".png".

(** *** Grouping in first-seen order *)

Fixpoint first_seen (l : list string) : list string :=
  match l with
  | [] => []
  | x :: l' => x :: filter (λ y, y ≠ x) (first_seen l')
  end.

Definition team_key (player : Player) : string :=
  ToString (player !! "teamName").

Definition grouped_first_seen (players : list Player)
    : list (string * list Player) :=
  (λ team, (team, filter (λ player, team_key player = team) players))
    <$> first_seen (team_key <$> players).

(** *** The failures of a creation attempt, as responses *)

Definition ValidationError (missingFields : list string) : Response :=
  {| status := 400;
     json := Message ("Missing required fields: "
                      +:+ join ", " missingFields) |}.

Definition ConflictError : Response :=
  {| status := 400; json := Message "Player already exists" |}.

Definition ImageError (cause : JsError) : Response :=
  {| status := 500; json := Failure "Failed to add player" cause |}.

Definition PersistenceError : Response :=
  {| status := 500;
     json := Failure "Failed to add player" (IOError playersDataPath) |}.

(** The required fields as the data model of the specification names
    them. *)
Definition dataModelFields : list string :=
  [ "playerName"; "role"; "teamName"; "countryName"; "age";
    "battingStyle"; "uniquePlayerId"; "runsScored"; "centuriesScored";
    "wicketsTaken"; "image" ].

(** *** The steps of a creation, in the words of the specification *)

(** The base64 portion of an image payload: the second group of a data
    URL, the whole payload otherwise. *)
Definition base64_part (image : string) : string :=
  match DataUrl.exec image with
  | Some (_, payload) => payload
  | None => image
  end.

Definition extension_of (image : string) : string :=
  (payload_and_extension (Some (JStr image))).2.

Definition image_file_name (name image : string) : string :=
  slugify name +:+ extension_of image.

(** The server-relative path returned by image persistence. *)
Definition image_path (name image : string) : string :=
  "/players/" +:+ image_file_name name image.

(** The file that image persistence writes, and its content. *)
Definition image_file (name image : string) : Path :=
  playersDir ++ [image_file_name name image].

Definition image_bytes (image : string) : FileData :=
  Bytes (Base64.decode (base64_part image)).

(** The canonical record: the required fields of the input, with the
    image field replaced by the derived path. *)
Definition canonical_record (body : JsObject) (path : string) : Player :=
  <["image" := JStr path]>
    (filter (λ kv : string * JValue, kv.1 ∈ requiredFields) body).

Definition created (body : JsObject) (name image : string) : Player :=
  canonical_record body (image_path name image).

(** *** Conditions on a request and on the collection *)

(** The fields that the handlers compare are strings in every stored
    record, as the data model has them. *)
Definition keyed (player : Player) : Prop :=
  ∃ id name : string,
    player !! "uniquePlayerId" = Some (JStr id)
    ∧ player !! "playerName" = Some (JStr name).

Definition teamed (player : Player) : Prop :=
  ∃ team : string, player !! "teamName" = Some (JStr team).

(** [player] has the identifier [id] or the name [name], up to case. *)
Definition collides (id name : string) (player : Player) : Prop :=
  (∃ i, player !! "uniquePlayerId" = Some (JStr i)
        ∧ toLowerCase i = toLowerCase id)
  ∨ (∃ n, player !! "playerName" = Some (JStr n)
          ∧ toLowerCase n = toLowerCase name).

Definition present (body : JsObject) : Prop :=
  Forall (λ field, is_Some (body !! field)) requiredFields.

End Spec.

(** ** The values on which the embedding is exact

    Strings of ASCII units, and the integers that a double holds exactly and
    that [String] writes as a decimal numeral. *)

Module Exact.

Definition ascii (s : string) : Prop :=
  Forall (λ c, (Chars.code c < 128)%N) (chars s).

Definition safe (n : Z) : Prop := (- 2 ^ 53 < n < 2 ^ 53)%Z.

#[global] Instance ascii_decision (s : string) : Decision (ascii s).
Proof. unfold ascii. apply _. Defined.

#[global] Instance safe_dec (n : Z) : Decision (safe n).
Proof. unfold safe. apply _. Defined.

(** A field that holds an ASCII string; a field that, when it holds a
    string, holds an ASCII one; and a field that, when it holds a string or
    a number, holds one of these. *)
Definition text (v : option JValue) : Prop :=
  match v with
  | Some (JStr s) => ascii s
  | _ => False
  end.

Definition plain (v : option JValue) : Prop :=
  match v with
  | Some (JStr s) => ascii s
  | _ => True
  end.

Definition scalar (v : option JValue) : Prop :=
  match v with
  | Some (JStr s) => ascii s
  | Some (JNum n) => safe n
  | _ => True
  end.

#[global] Instance text_dec (v : option JValue) : Decision (text v).
Proof. destruct v as [[| | |s]|]; simpl; apply _. Defined.

#[global] Instance plain_dec (v : option JValue) : Decision (plain v).
Proof. destruct v as [[| | |s]|]; simpl; apply _. Defined.

#[global] Instance scalar_dec (v : option JValue) : Decision (scalar v).
Proof. destruct v as [[| | |s]|]; simpl; apply _. Defined.

(** The records that the searches read: identifier and name, or team name,
    are ASCII strings. *)
Definition keyed (player : Player) : Prop :=
  text (player !! "uniquePlayerId") ∧ text (player !! "playerName").

Definition teamed (player : Player) : Prop := text (player !! "teamName").

#[global] Instance keyed_dec (player : Player) : Decision (keyed player).
Proof. unfold keyed. apply _. Defined.

#[global] Instance teamed_dec (player : Player) : Decision (teamed player).
Proof. unfold teamed. apply _. Defined.

End Exact.

(** ** Sample data *)

Module Sample.

Definition stored (name id team : string) : Player :=
  object_literal
    [ ("playerName", Some (JStr name));
      ("image", Some (JStr ("/players/" +:+ id +:+ ".png")));
      ("role", Some (JStr "Batter"));
      ("teamName", Some (JStr team));
      ("countryName", Some (JStr "India"));
      ("age", Some (JNum 30));
      ("battingSyle", Some (JStr "Right Handed"));
      ("uniquePlayerId", Some (JStr id));
      ("runsScored", Some (JNum 7000));
      ("centuriesScored", Some (JNum 5));
      ("wicketsTaken", Some (JNum 4)) ].

(** A request body with the eleven fields that the handler reads. *)
Definition request (name id image : string) : JsObject :=
  list_to_map
    [ ("playerName", JStr name);
      ("role", JStr "Batter");
      ("teamName", JStr "Royal Challengers Bengaluru");
      ("countryName", JStr "India");
      ("age", JNum 36);
      ("battingSyle", JStr "Right Handed");
      ("uniquePlayerId", JStr id);
      ("runsScored", JNum 8000);
      ("centuriesScored", JNum 8);
      ("wicketsTaken", JNum 4);
      ("image", JStr image) ].

(** A request body with the eleven fields of the data model of the
    specification. *)
Definition data_model_request (name id image : string) : JsObject :=
  <["battingStyle" := JStr "Right Handed"]>
    (delete "battingSyle" (request name id image)).

Definition sound_disk : Disk :=
  {| dirs := {[ ["data"] ]}; files := ∅; faulty := ∅; calls := [] |}.

(** A disk on which the backing file cannot be written. *)
Definition read_only_data : Disk :=
  {| dirs := {[ ["data"] ]}; files := ∅; faulty := {[ playersDataPath ]};
     calls := [] |}.

(** A disk on which the asset directory cannot be created. *)
Definition read_only_public : Disk :=
  {| dirs := {[ ["data"] ]}; files := ∅; faulty := {[ playersDir ]};
     calls := [] |}.

Definition roster : list Player :=
  [ stored "Rohit Sharma" "MI-45" "Mumbai Indians";
    stored "MS Dhoni" "CSK-07" "Chennai Super Kings";
    stored "Jasprit Bumrah" "MI-93" "Mumbai Indians" ].

Definition server : Server := {| players := roster; disk := sound_disk |}.

Definition png : string := "iVBORw0KGgo=".

(** A collection in which a team is named by a numeral. *)
Definition numbered : list Player :=
  [ stored "Rohit Sharma" "MI-45" "Mumbai Indians";
    stored "MS Dhoni" "CSK-07" "7" ].

(** A collection in which a team is named as a property that every
    object inherits. *)
Definition inherited : list Player :=
  [ stored "Rohit Sharma" "MI-45" "constructor" ].

End Sample.

(** ** Further notions for the properties of the handlers *)

Module Shape.

(** A word of a slug: a non-empty run of units of [[a-z0-9]]. *)
Definition word (w : list ascii) : Prop := w ≠ [] ∧ Spec.in_class w.

(** A unit that may occur in the name of an image file. *)
Definition is_file_char (c : ascii) : bool :=
  Chars.is_slug_char c || Chars.is_hyphen c || (Chars.code c =? 46)%N.

End Shape.

Module Order.

(** The order of two indexed entries, and of two groups under names that
    are array indices. *)
Definition index_le {X} (a b : N * X) : Prop := (a.1 ≤ b.1)%N.

Definition key_index_le (a b : string * list Player) : Prop :=
  match Grouping.array_index a.1, Grouping.array_index b.1 with
  | Some m, Some n => (m ≤ n)%N
  | _, _ => False
  end.

End Order.

Module Lookup.

(** The identifier of a record is a string; it is, or is not, the
    identifier asked for, up to case. *)
Definition id_typed (player : Player) : Prop :=
  ∃ i : string, player !! "uniquePlayerId" = Some (JStr i).

Definition id_is (query : string) (player : Player) : Prop :=
  ∃ i : string,
    player !! "uniquePlayerId" = Some (JStr i)
    ∧ toLowerCase i = toLowerCase query.

Definition id_differs (query : string) (player : Player) : Prop :=
  ∃ i : string,
    player !! "uniquePlayerId" = Some (JStr i)
    ∧ toLowerCase i ≠ toLowerCase query.

(** The callback of the search by identifier. *)
Definition by_id (query : string) (entry : Player) : Outcome bool :=
  let! id := toLowerCase_of (entry !! "uniquePlayerId") in
  Return (bool_decide (id = toLowerCase query)).

End Lookup.

(** ** The outcomes of one creation attempt

    [run body s h s'] lists what [POST /players] can do on the body [body]
    in the state [s]: the response or exception [h], and the state [s'] it
    leaves. *)

Module Attempt.

Definition extension (body : JsObject) : string :=
  (payload_and_extension (body !! "image")).2.

Definition file (body : JsObject) (slug : string) : Path :=
  playersDir ++ [slug +:+ extension body].

Definition record (body : JsObject) (slug : string) : Player :=
  Spec.canonical_record body ("/players/" +:+ slug +:+ extension body).

(** The request passes the presence test and the duplicate search, its
    payload decodes to [bytes] and its name has the slug [slug]. *)
Definition prepared (body : JsObject) (s : Server) (bytes : list N)
    (slug : string) : Prop :=
  filter (λ field, body !! field = None) requiredFields = []
  ∧ find_with
      (is_duplicate (body !! "uniquePlayerId") (body !! "playerName"))
      (players s)
    = Return None
  ∧ Buffer_from_base64 (payload_and_extension (body !! "image")).1
    = Return bytes
  ∧ slugify_of (body !! "playerName") = Return slug.

Inductive run (body : JsObject) (s : Server) : Handled → Server → Prop :=
  | run_missing (fields : list string) :
      fields ≠ [] → run body s (Sent (Spec.ValidationError fields)) s
  | run_uncaught : run body s (Uncaught TypeError) s
  | run_conflict : run body s (Sent Spec.ConflictError) s
  | run_type_error : run body s (Sent (Spec.ImageError TypeError)) s
  | run_no_directory (bytes : list N) (slug : string) :
      prepared body s bytes slug →
      playersDir ∈ faulty (disk s) →
      run body s (Sent (Spec.ImageError (IOError playersDir)))
        {| players := players s;
           disk := rejected (Mkdir playersDir) (disk s) |}
  | run_no_image (bytes : list N) (slug : string) :
      prepared body s bytes slug →
      playersDir ∉ faulty (disk s) →
      file body slug ∈ faulty (disk s) →
      run body s (Sent (Spec.ImageError (IOError (file body slug))))
        {| players := players s;
           disk := rejected (WriteFile (file body slug) (Bytes bytes))
                     (made playersDir (disk s)) |}
  | run_not_persisted (bytes : list N) (slug : string) :
      prepared body s bytes slug →
      playersDir ∉ faulty (disk s) →
      file body slug ∉ faulty (disk s) →
      playersDataPath ∈ faulty (disk s) →
      run body s (Sent Spec.PersistenceError)
        {| players := players s ++ [record body slug];
           disk := rejected
                     (WriteFile playersDataPath
                        (PlayersJson (players s ++ [record body slug])))
                     (written (file body slug) (Bytes bytes)
                        (made playersDir (disk s))) |}
  | run_created (bytes : list N) (slug : string) :
      prepared body s bytes slug →
      playersDir ∉ faulty (disk s) →
      file body slug ∉ faulty (disk s) →
      playersDataPath ∉ faulty (disk s) →
      run body s
        (Sent {| status := 201; json := PlayerBody (record body slug) |})
        {| players := players s ++ [record body slug];
           disk := written playersDataPath
                     (PlayersJson (players s ++ [record body slug]))
                     (written (file body slug) (Bytes bytes)
                        (made playersDir (disk s))) |}.

End Attempt.

(** ** The uniqueness invariant of the collection *)

Module Invariant.

Definition id_key (player : Player) : string :=
  toLowerCase (ToString (player !! "uniquePlayerId")).

Definition name_key (player : Player) : string :=
  toLowerCase (ToString (player !! "playerName")).

(** Identifiers and names are strings, and no two records share an
    identifier or a name up to case. *)
Definition unique (players : list Player) : Prop :=
  Forall Spec.keyed players
  ∧ NoDup (id_key <$> players)
  ∧ NoDup (name_key <$> players).

End Invariant.

(** ** The listening port

    [PORT = pickPortFromArgs() ?? pickPortFromEnv() ?? 9000]. *)

(** The Numbers that [Number.parseInt] returns: [NaN], an infinity, or a
    double with an integral value. The two zeros are one value here: the
    code only asks whether a Number is greater than zero. *)
Inductive Number : Type :=
  | NaN
  | Infinity (negative : bool)
  | Finite (value : Z).

#[global] Instance Number_eq_dec : EqDecision Number.
Proof. solve_decision. Defined.

Module Double.

(** The double nearest to a natural number, with ties to the even
    significand of 53 bits; [None] when that is beyond the largest finite
    double. *)
Definition nearest (n : N) : option N :=
  let e := (N.log2 n - 52)%N in
  let q := N.shiftr n e in
  let r := (n - N.shiftl q e)%N in
  let half := N.shiftl 1 (e - 1) in
  let up := negb (e =? 0)%N && ((half <? r)%N || ((half =? r)%N && N.odd q)) in
  let m := N.shiftl (if up then q + 1 else q)%N e in
  if (m <? 2 ^ 1024)%N then Some m else None.

(** The Number of a signed natural number. *)
Definition of_integer (negative : bool) (n : N) : Number :=
  match nearest n with
  | Some m => Finite (if negative then - Z.of_N m else Z.of_N m)
  | None => Infinity negative
  end.

End Double.

(** The value of a decimal numeral, read from the left. *)
Fixpoint digits_value (acc : N) (l : list ascii) : N :=
  match l with
  | [] => acc
  | c :: l' => digits_value (acc * 10 + (Chars.code c - 48))%N l'
  end.

(** [Number.parseInt(input, 10)], on a string of ASCII units: leading
    white space is skipped, one sign is read, and the longest run of decimal
    digits that follows is the value; what comes after that run is ignored,
    and without a digit the result is [NaN]. *)
Definition parseInt (input : string) : Number :=
  let trimmed := Chars.drop_leading Ascii.is_space (chars input) in
  let '(negative, unsigned) :=
    match trimmed with
    | c :: rest =>
        if (Chars.code c =? 45)%N then (true, rest)
        else if (Chars.code c =? 43)%N then (false, rest)
        else (false, trimmed)
    | [] => (false, [])
    end in
  match (DataUrl.span Chars.is_digit unsigned).1 with
  | [] => NaN
  | digits => Double.of_integer negative (digits_value 0 digits)
  end.

Definition isInteger (x : Number) : bool :=
  match x with
  | Finite _ => true
  | _ => false
  end.

(** [x > 0]. *)
Definition is_positive (x : Number) : bool :=
  match x with
  | NaN => false
  | Infinity negative => negb negative
  | Finite value => (0 <? value)%Z
  end.

(** [/^\d+$/.test(value)]. *)
Definition is_numeral (value : string) : bool :=
  match chars value with
  | [] => false
  | l => forallb Chars.is_digit l
  end.

(** [pickPortFromArgs], on [process.argv]. *)
Definition pickPortFromArgs (argv : list string) : option Number :=
  match List.find is_numeral (drop 2 argv) with
  | None => None
  | Some arg =>
      let parsed := parseInt arg in
      if isInteger parsed && is_positive parsed then Some parsed else None
  end.

(** [pickPortFromEnv], on [process.env.PORT]. The empty string is falsy. *)
Definition pickPortFromEnv (envPort : option string) : option Number :=
  match envPort with
  | None => None
  | Some text =>
      if decide (text = "") then None
      else
        let parsed := parseInt text in
        if isInteger parsed && is_positive parsed then Some parsed else None
  end.

Definition PORT (argv : list string) (envPort : option string) : Number :=
  match pickPortFromArgs argv with
  | Some port => port
  | None =>
      match pickPortFromEnv envPort with
      | Some port => port
      | None => Finite 9000
      end
  end.

Module Command.

(** A command line [node src/index.js arguments...]. *)
Definition line (arguments : list string) : list string :=
  "node" :: "src/index.js" :: arguments.

(** The largest integer below which every integer is a double. *)
Definition safe (n : N) : Prop := (n < 2 ^ 53)%N.

End Command.

(** ** Further sample data *)

Module Scenario.

Definition rohit : Player :=
  Sample.stored "Rohit Sharma" "MI-45" "Mumbai Indians".
Definition dhoni : Player :=
  Sample.stored "MS Dhoni" "CSK-07" "Chennai Super Kings".
Definition bumrah : Player :=
  Sample.stored "Jasprit Bumrah" "MI-93" "Mumbai Indians".

(** The roster by team, and a roster with a numeral as team name. *)
Definition groups : list (string * list Player) :=
  [ ("Mumbai Indians", [rohit; bumrah]); ("Chennai Super Kings", [dhoni]) ].

Definition numbered_groups : list (string * list Player) :=
  [ ("7", [Sample.stored "MS Dhoni" "CSK-07" "7"]);
    ("Mumbai Indians", [rohit]) ].

(** A stored record whose identifier is a number. *)
Definition unidentified : Player := <["uniquePlayerId" := JNum 45]> rohit.

(** Requests: a well-formed one, one with a number as identifier, one with
    a number as team name, one with white space around the team name, and
    one for another player whose name has the same slug as that of the
    first. *)
Definition kohli : JsObject :=
  Sample.request "Virat Kohli" "RCB-18" Sample.png.

Definition numbered_id : JsObject := <["uniquePlayerId" := JNum 18]> kohli.

Definition numbered_team : JsObject := <["teamName" := JNum 7]> kohli.

Definition padded_team : JsObject :=
  <["teamName" := JStr " Gujarat Titans "]> kohli.

Definition namesake : JsObject :=
  Sample.request "Virat-Kohli" "RCB-19" "AAAA".

Definition empty_server : Server :=
  {| players := []; disk := Sample.sound_disk |}.

End Scenario.

(** * Properties *)

(** ** Strings as lists of units *)

Lemma str_chars (s : string) : str (chars s) = s.
Proof. apply string_of_list_ascii_of_string. Qed.

Lemma chars_str (l : list ascii) : chars (str l) = l.
Proof. apply list_ascii_of_string_of_list_ascii. Qed.

Lemma chars_app (a b : string) : chars (a +:+ b) = chars a ++ chars b.
Proof.
  induction a as [|c a IH]; simpl; [done|].
  unfold chars in *. simpl. by f_equal.
Qed.

Lemma str_app (a b : list ascii) : str (a ++ b) = str a +:+ str b.
Proof.
  induction a as [|c a IH]; [done|].
  unfold str in *. simpl. rewrite IH. reflexivity.
Qed.

Lemma str_nil_iff (l : list ascii) : str l = "" ↔ l = [].
Proof.
  split; [|by intros ->].
  intros H. apply (f_equal chars) in H. by rewrite chars_str in H.
Qed.

(** ** [slugify] *)

Section Slug.

Import Chars.

Lemma is_slug_char_not_hyphen (c : ascii) :
  is_slug_char c = true → is_hyphen c = false.
Proof.
  unfold is_slug_char, is_hyphen, is_lower, is_digit, between.
  intros H. apply N.eqb_neq. intros E. rewrite E in H. by vm_compute in H.
Qed.

Lemma drop_trailing_last (p : ascii → bool) (l : list ascii) (c : ascii) :
  last l = Some c → p c = false → drop_trailing p l = l.
Proof.
  induction l as [|c0 l IH]; [done|].
  destruct l as [|c1 l].
  - simpl. intros [= ->] ->. done.
  - intros Hl Hp. change (last (c0 :: c1 :: l)) with (last (c1 :: l)) in Hl.
    specialize (IH Hl Hp).
    change (drop_trailing p (c0 :: c1 :: l))
      with (match drop_trailing p (c1 :: l) with
            | [] => if p c0 then [] else [c0]
            | r => c0 :: r
            end).
    by rewrite IH.
Qed.

Lemma drop_trailing_snoc (p : ascii → bool) (l : list ascii) (c : ascii) :
  p c = true → drop_trailing p (l ++ [c]) = drop_trailing p l.
Proof.
  intros Hp. induction l as [|c0 l IH]; simpl.
  - by rewrite Hp.
  - by rewrite IH.
Qed.

(** A run that starts outside the class opens with the hyphen of that
    run, unless the hyphen was written before. *)
Lemma replace_runs_false (l : list ascii) :
  replace_runs false l =
    match l with
    | c :: _ => if is_slug_char c then replace_runs true l
                else "-"%char :: replace_runs true l
    | [] => []
    end.
Proof. destruct l as [|c l]; simpl; [done|]. by destruct (is_slug_char c). Qed.

(** [replace(/[^a-z0-9]+/g, '-')] on a gap between two words: a non-empty
    run outside the class, after a unit of the class or at the start, and
    before a unit of the class or at the end, becomes one hyphen. *)
Lemma replace_runs_gap (b : bool) (before gap after : list ascii) :
  Forall (λ c, is_slug_char c = true) before →
  gap ≠ [] →
  Forall (λ c, is_slug_char c = false) gap →
  match after with c :: _ => is_slug_char c = true | [] => True end →
  before ≠ [] ∨ b = false →
  replace_runs b (before ++ gap ++ after)
  = before ++ "-"%char :: replace_runs false after.
Proof.
  intros Hb Hne Hg Ha Hstart.
  assert (Hgap : ∀ l, Forall (λ c, is_slug_char c = false) l →
            replace_runs true (l ++ after) = replace_runs false after).
  { induction 1 as [|c l Hc _ IH]; simpl.
    - destruct after as [|c after]; simpl; [done|]. by rewrite Ha.
    - by rewrite Hc. }
  assert (Hhead : replace_runs false (gap ++ after)
                  = "-"%char :: replace_runs false after).
  { destruct Hg as [|c l Hc Hl]; [done|]. simpl. rewrite Hc. by rewrite Hgap. }
  revert b Hstart. induction Hb as [|c l Hc _ IH]; intros b Hstart; simpl.
  - destruct Hstart as [? | ->]; [done|]. exact Hhead.
  - rewrite Hc. f_equal. destruct l as [|c' l]; [done|]. apply IH. by left.
Qed.

Lemma split_words_classes (l : list ascii) :
  Spec.in_class (Spec.split_words l).1
  ∧ Forall (λ w, w ≠ [] ∧ Spec.in_class w) (Spec.split_words l).2.
Proof.
  induction l as [|c l [IHw IHws]]; simpl; [by split; constructor|].
  destruct (Spec.split_words l) as [w ws]; simpl in *.
  destruct (is_slug_char c) eqn:Hc; simpl.
  - split; [by constructor|done].
  - split; [constructor|]. destruct w; simpl; [done|]. by constructor.
Qed.

Lemma split_words_head (l : list ascii) :
  (Spec.split_words l).1 = [] ↔
    match l with c :: _ => is_slug_char c = false | [] => True end.
Proof.
  destruct l as [|c l]; simpl; [done|].
  destruct (Spec.split_words l) as [w ws].
  destruct (is_slug_char c); simpl; split; done.
Qed.

Lemma separated_cons (w : list ascii) (ws : list (list ascii)) :
  Spec.separated (w :: ws) = "-"%char :: w ++ Spec.separated ws.
Proof. done. Qed.

Lemma separated_cons_word (w : list ascii) (ws : list (list ascii)) :
  w ≠ [] →
  Spec.separated (Spec.cons_word w ws) = "-"%char :: w ++ Spec.separated ws.
Proof. destruct w; done. Qed.

Lemma replace_runs_words (l : list ascii) :
  replace_runs false l
  = (Spec.split_words l).1 ++ Spec.separated (Spec.split_words l).2
    ++ Spec.trail l.
Proof.
  induction l as [|c l IH]; [done|].
  pose proof (split_words_head l) as Hhead.
  cbn [replace_runs Spec.split_words].
  destruct (Spec.split_words l) as [w ws] eqn:Hsw; simpl in IH, Hhead.
  destruct (is_slug_char c) eqn:Hc; simpl.
  - rewrite Hc, IH. by destruct l.
  - rewrite Hc. rewrite replace_runs_false in IH.
    destruct l as [|c' l].
    + simpl in Hsw. by injection Hsw as <- <-.
    + change (Spec.trail (c :: c' :: l)) with (Spec.trail (c' :: l)) in *.
      destruct (is_slug_char c') eqn:Hc'.
      * rewrite IH.
        assert (w ≠ []) as Hne.
        { intros ->. destruct Hhead as [Hhead _].
          by specialize (Hhead eq_refl). }
        rewrite separated_cons_word by done. simpl. by rewrite <- app_assoc.
      * destruct Hhead as [_ Hhead]. rewrite (Hhead eq_refl) in *. simpl in *.
        by rewrite IH.
Qed.

Lemma hyphenate_cons (w : list ascii) (ws : list (list ascii)) :
  Spec.hyphenate (w :: ws) = w ++ Spec.separated ws.
Proof.
  revert w. induction ws as [|w' ws IH]; intros w.
  - simpl. by rewrite app_nil_r.
  - change (Spec.hyphenate (w :: w' :: ws))
      with (w ++ "-"%char :: Spec.hyphenate (w' :: ws)).
    by rewrite IH.
Qed.

Lemma last_in_class (w : list ascii) (ws : list (list ascii)) :
  w ≠ [] → Spec.in_class w → Forall (λ w, w ≠ [] ∧ Spec.in_class w) ws →
  ∃ c, last (w ++ Spec.separated ws) = Some c ∧ is_slug_char c = true.
Proof.
  intros Hne Hw Hws. revert w Hne Hw.
  induction Hws as [|w' ws [Hne' Hw'] _ IH]; intros w Hne Hw.
  - unfold Spec.separated; simpl. rewrite app_nil_r.
    destruct (last w) as [c|] eqn:Hl.
    + exists c. split; [done|].
      apply last_Some in Hl as [l' ->].
      unfold Spec.in_class in Hw. apply Forall_app in Hw as [_ Hc].
      exact (Forall_inv Hc).
    + by apply last_None in Hl.
  - rewrite separated_cons.
    destruct (IH w' Hne' Hw') as (c & Hl & Hc).
    exists c. split; [|done].
    by rewrite last_app_cons, last_cons, Hl.
Qed.

Lemma strip_words (w : list ascii) (ws : list (list ascii)) (l : list ascii) :
  Spec.in_class w → Forall (λ w, w ≠ [] ∧ Spec.in_class w) ws →
  strip_hyphens (w ++ Spec.separated ws ++ Spec.trail l)
  = Spec.hyphenate (Spec.cons_word w ws).
Proof.
  intros Hw Hws.
  assert (Htrail : Spec.trail l = [] ∨ Spec.trail l = ["-"%char]).
  { induction l as [|c [|c' l] IH]; simpl; [by left| |done].
    destruct (is_slug_char c); [by left | by right]. }
  assert (Hmain : ∀ w0 ws0, w0 ≠ [] → Spec.in_class w0 →
            Forall (λ w, w ≠ [] ∧ Spec.in_class w) ws0 →
            strip_hyphens (w0 ++ Spec.separated ws0 ++ Spec.trail l)
            = Spec.hyphenate (w0 :: ws0)).
  { intros w0 ws0 Hne Hw0 Hws0. unfold strip_hyphens.
    destruct w0 as [|a w0]; [done|].
    pose proof (Forall_inv Hw0) as Ha. simpl in Ha.
    cbn [app drop_leading]. rewrite (is_slug_char_not_hyphen a Ha).
    change (a :: w0 ++ Spec.separated ws0 ++ Spec.trail l)
      with ((a :: w0) ++ Spec.separated ws0 ++ Spec.trail l).
    rewrite hyphenate_cons.
    destruct (last_in_class (a :: w0) ws0) as (c & Hl & Hc); [done..|].
    rewrite (assoc_L (++)).
    destruct Htrail as [-> | ->].
    - rewrite app_nil_r.
      by apply (drop_trailing_last _ _ c), is_slug_char_not_hyphen.
    - rewrite drop_trailing_snoc by done.
      by apply (drop_trailing_last _ _ c), is_slug_char_not_hyphen. }
  destruct w as [|a w].
  - simpl. destruct Hws as [|w' ws [Hne' Hw'] Hws].
    + unfold strip_hyphens, Spec.separated. simpl.
      by destruct Htrail as [-> | ->].
    + rewrite <- (Hmain w' ws Hne' Hw' Hws). rewrite separated_cons.
      unfold strip_hyphens. simpl. by rewrite <- (app_assoc w').
  - by apply Hmain.
Qed.

Lemma strip_replace_words (l : list ascii) :
  strip_hyphens (replace_runs false l) = Spec.hyphenate (Spec.words l).
Proof.
  rewrite replace_runs_words. unfold Spec.words.
  pose proof (split_words_classes l) as [Hw Hws].
  destruct (Spec.split_words l) as [w ws]. by apply strip_words.
Qed.

Lemma hyphenate_nil_iff (ws : list (list ascii)) :
  Forall (λ w, w ≠ []) ws → Spec.hyphenate ws = [] ↔ ws = [].
Proof.
  intros Hws. split; [|by intros ->].
  destruct Hws as [|w ws Hne _]; [done|].
  rewrite hyphenate_cons. by destruct w.
Qed.

Lemma words_nonempty (l : list ascii) : Forall (λ w, w ≠ []) (Spec.words l).
Proof.
  unfold Spec.words. pose proof (split_words_classes l) as [_ Hws].
  destruct (Spec.split_words l) as [w ws]; simpl in *.
  assert (Forall (λ w, w ≠ []) ws)
    by (eapply Forall_impl; [done|by intros ? []]).
  destruct w; simpl; [done|]. by constructor.
Qed.

End Slug.

Section SlugInWords.






End SlugInWords.


(** ** The data-URL pattern and the extension *)

Section DataUrlFacts.

Import DataUrl.

Lemma strip_prefix_Some (p l r : list ascii) :
  strip_prefix p l = Some r ↔ l = p ++ r.
Proof.
  revert l. induction p as [|a p IH]; intros l; simpl.
  - split; [by intros [= ->]|by intros ->].
  - destruct l as [|b l]; [done|].
    case_decide as Hab.
    + subst b. rewrite IH. split; [by intros ->|by intros [= ->]].
    + split; [done|]. by intros [= <- _].
Qed.

Lemma span_app (p : ascii → bool) (run rest : list ascii) :
  forallb p run = true →
  match rest with c :: _ => p c = false | [] => True end →
  span p (run ++ rest) = (run, rest).
Proof.
  intros Hrun Hrest. induction run as [|c run IH]; simpl in *.
  - destruct rest as [|c rest]; simpl; [done|]. by rewrite Hrest.
  - apply andb_true_iff in Hrun as [-> Hrun]. by rewrite IH.
Qed.

Lemma span_spec (p : ascii → bool) (l run rest : list ascii) :
  span p l = (run, rest) →
  l = run ++ rest ∧ forallb p run = true
  ∧ match rest with c :: _ => p c = false | [] => True end.
Proof.
  revert run rest. induction l as [|c l IH]; intros run rest; simpl.
  - by intros [= <- <-].
  - destruct (p c) eqn:Hc.
    + destruct (span p l) as [run' rest']. intros [= <- <-].
      destruct (IH _ _ eq_refl) as (-> & Hrun & Hrest).
      simpl. by rewrite Hc, Hrun.
    + intros [= <- <-]. simpl. by rewrite Hc.
Qed.

(** The classes of the pattern, unit by unit. *)
Lemma mime_char_units (c : ascii) :
  is_mime_char c = bool_decide (c ∈ chars Spec.mime_units).
Proof. destruct c as [[] [] [] [] [] [] [] []]; by vm_compute. Qed.

Lemma line_terminator_units (c : ascii) :
  Chars.is_line_terminator c
  = bool_decide (c = "010"%char ∨ c = "013"%char).
Proof. destruct c as [[] [] [] [] [] [] [] []]; by vm_compute. Qed.

Lemma mime_class (l : list ascii) :
  forallb is_mime_char l = true
  ↔ Forall (λ c, c ∈ chars Spec.mime_units) l.
Proof.
  induction l as [|c l IH]; simpl; [by split|].
  rewrite andb_true_iff, Forall_cons, IH, mime_char_units.
  by rewrite bool_decide_eq_true.
Qed.

Lemma one_line (l : list ascii) :
  existsb Chars.is_line_terminator l = false
  ↔ ("010"%char ∉ l) ∧ ("013"%char ∉ l).
Proof.
  induction l as [|c l IH]; simpl.
  - split; [|done]. intros _. split; apply not_elem_of_nil.
  - rewrite orb_false_iff, IH, line_terminator_units.
    rewrite bool_decide_eq_false, !not_elem_of_cons. split.
    + intros (Hc & Hlf & Hcr). repeat split; try done.
      * intros <-. apply Hc. by left.
      * intros <-. apply Hc. by right.
    + intros ((Hlf & ?) & Hcr & ?). repeat split; try done.
      by intros [->| ->].
Qed.

(** The matcher accepts exactly the data URLs, and returns their two
    groups. *)
Lemma exec_spec (input mime payload : string) :
  exec input = Some (mime, payload) ↔ Spec.is_data_url input mime payload.
Proof.
  unfold exec, Spec.is_data_url. split.
  - destruct (strip_prefix _ (chars input)) as [after_scheme|] eqn:Hscheme;
      [|done].
    apply strip_prefix_Some in Hscheme.
    destruct (span is_mime_char after_scheme) as [subtype after_mime] eqn:Hspan.
    apply span_spec in Hspan as (-> & Hclass & _).
    destruct subtype as [|c0 subtype]; [done|].
    destruct (strip_prefix _ after_mime) as [[|c payload']|] eqn:Hmark;
      [done| |done].
    apply strip_prefix_Some in Hmark as ->.
    destruct (existsb _ _) eqn:Hline; [done|].
    intros Heq.
    assert (mime = str (chars "image/" ++ c0 :: subtype)) as -> by congruence.
    assert (payload = str (c :: payload')) as -> by congruence.
    clear Heq. exists (str (c0 :: subtype)).
    apply mime_class in Hclass. apply one_line in Hline as [Hlf Hcr].
    split; [by intros ?%str_nil_iff|].
    split; [by rewrite chars_str|].
    split; [by rewrite str_app, str_chars|].
    split; [by intros ?%str_nil_iff|].
    split; [by rewrite chars_str|].
    split; [by rewrite chars_str|].
    by rewrite <- (str_chars input), Hscheme, !str_app, !str_chars.
  - intros (subtype & Hne & Hclass & -> & Hpne & Hlf & Hcr & ->).
    apply mime_class in Hclass.
    assert (existsb Chars.is_line_terminator (chars payload) = false)
      as Hline by (by apply one_line).
    change (chars ("data:" +:+ ("image/" +:+ subtype) +:+ ";base64,"
                   +:+ payload))
      with (chars "data:image/"
            ++ chars (subtype +:+ ";base64," +:+ payload)).
    rewrite (proj2 (strip_prefix_Some _ _ _) eq_refl).
    rewrite !chars_app.
    rewrite span_app; [|done|done].
    destruct (chars subtype) as [|c0 sub] eqn:Hsub.
    { apply (f_equal str) in Hsub. by rewrite str_chars in Hsub. }
    rewrite (proj2 (strip_prefix_Some _ _ _) eq_refl).
    destruct (chars payload) as [|c pl] eqn:Hpl.
    { apply (f_equal str) in Hpl. by rewrite str_chars in Hpl. }
    rewrite Hline. rewrite <- Hpl, str_chars. do 2 f_equal.
    rewrite <- Hsub. change (chars "image/" ++ chars subtype)
      with (chars ("image/" +:+ subtype)). apply str_chars.
Qed.

Lemma mapMimeToExtension_table (mime : string) :
  mapMimeToExtension mime = Spec.extension_table mime.
Proof.
  unfold mapMimeToExtension, Spec.extension_table.
  destruct (decide (mime = "image/svg+xml")) as [->|Hsvg]; [done|].
  destruct (decide (mime = "image/jpeg")) as [->|Hjpeg]; [done|].
  destruct (decide (mime = "image/jpg")) as [->|Hjpg]; [done|].
  destruct (decide (mime = "image/jpeg" ∨ mime = "image/jpg")) as [[?|?]|_];
    [done..|].
  by destruct (decide (mime = "image/png")).
Qed.

End DataUrlFacts.

(** A closed decidable proposition, by evaluation. *)
Ltac closed_decide := apply (bool_decide_unpack _); vm_compute; exact I.

(** The conditions on the sample collection, by evaluation. *)
Ltac sample_keyed :=
  repeat constructor; eexists _, _; split; vm_compute; reflexivity.

Ltac sample_fresh :=
  repeat constructor;
  intros [(? & Hstored & Hsame) | (? & Hstored & Hsame)];
  vm_compute in Hstored; injection Hstored as <-;
  vm_compute in Hsame; discriminate Hsame.

(** ** Objects *)

Lemma object_literal_lookup_ne (k f : string) (ov : option JValue)
    (props : list (string * option JValue)) :
  k ≠ f →
  object_literal ((k, ov) :: props) !! f = object_literal props !! f.
Proof.
  intros Hne. destruct ov as [v|]; simpl; [|done]. by rewrite lookup_insert_ne.
Qed.

Lemma object_literal_lookup_eq (k : string) (ov : option JValue)
    (props : list (string * option JValue)) :
  object_literal ((k, ov) :: props) !! k
  = match ov with Some v => Some v | None => object_literal props !! k end.
Proof. destruct ov as [v|]; simpl; [|done]. by rewrite lookup_insert_eq. Qed.

Lemma object_literal_lookup_nil (f : string) : object_literal [] !! f = None.
Proof. apply lookup_empty. Qed.

Ltac literal_lookup :=
  repeat first
    [ rewrite object_literal_lookup_eq
    | rewrite object_literal_lookup_ne by done
    | rewrite object_literal_lookup_nil ].

Lemma canonical_record_lookup (body : JsObject) (path f : string) :
  Spec.canonical_record body path !! f
  = if decide (f = "image") then Some (JStr path)
    else if decide (f ∈ requiredFields) then body !! f
    else None.
Proof.
  unfold Spec.canonical_record. case_decide as Himg.
  - subst f. apply lookup_insert_eq.
  - rewrite lookup_insert_ne by done. rewrite map_lookup_filter.
    destruct (body !! f) as [v|] eqn:Hf; simpl.
    + by case_guard.
    + by case_decide.
Qed.

Lemma created_lookup (body : JsObject) (name image f : string) :
  Spec.created body name image !! f
  = if decide (f = "image") then Some (JStr (Spec.image_path name image))
    else if decide (f ∈ requiredFields) then body !! f
    else None.
Proof. apply canonical_record_lookup. Qed.

(** The object literal [newPlayer] of the handler is the canonical record. *)
Lemma newPlayer_canonical (body : JsObject) (path : string) :
  object_literal
    [ ("playerName", body !! "playerName");
      ("image", Some (JStr path));
      ("role", body !! "role");
      ("teamName", body !! "teamName");
      ("countryName", body !! "countryName");
      ("age", body !! "age");
      ("battingSyle", body !! "battingSyle");
      ("uniquePlayerId", body !! "uniquePlayerId");
      ("runsScored", body !! "runsScored");
      ("centuriesScored", body !! "centuriesScored");
      ("wicketsTaken", body !! "wicketsTaken") ]
  = Spec.canonical_record body path.
Proof.
  apply map_eq. intros f. rewrite canonical_record_lookup.
  destruct (decide (f = "image")) as [->|Himg].
  { literal_lookup. done. }
  destruct (decide (f ∈ requiredFields)) as [Hin|Hout].
  - unfold requiredFields in Hin.
    repeat (apply elem_of_cons in Hin as [->|Hin]);
      try (literal_lookup; by destruct (body !! _)).
    by apply elem_of_nil in Hin.
  - unfold requiredFields in Hout.
    repeat (apply not_elem_of_cons in Hout as [? Hout]).
    by literal_lookup.
Qed.

(** ** The presence test *)

Lemma elem_of_missing (body : JsObject) (f : string) :
  f ∈ filter (λ field, body !! field = None) requiredFields
  ↔ f ∈ requiredFields ∧ body !! f = None.
Proof. rewrite list_elem_of_filter. tauto. Qed.

Lemma missing_nil_iff (body : JsObject) :
  filter (λ field, body !! field = None) requiredFields = []
  ↔ Spec.present body.
Proof.
  unfold Spec.present. rewrite Forall_forall. split.
  - intros Hnil f Hin. destruct (body !! f) eqn:Hf; [done|].
    assert (f ∈ filter (λ field, body !! field = None) requiredFields) as Hm
      by by apply elem_of_missing.
    rewrite Hnil in Hm. by apply elem_of_nil in Hm.
  - intros Hall. apply elem_of_nil_inv. intros f [Hin Hf]%elem_of_missing.
    destruct (Hall f Hin) as [v Hv]. congruence.
Qed.

(** ** The searches over the collection *)

Section Searches.

Variables (id name : string).

Lemma is_duplicate_keyed (player : Player) :
  Spec.keyed player →
  ∃ b : bool,
    is_duplicate (Some (JStr id)) (Some (JStr name)) player = Return b
    ∧ (b = true ↔ Spec.collides id name player).
Proof.
  intros (i & n & Hi & Hn). unfold is_duplicate, Spec.collides.
  rewrite Hi, Hn. simpl.
  destruct (bool_decide_reflect (toLowerCase i = toLowerCase id)) as [Ei|Ei].
  - exists true. split; [done|]. split; [|done]. intros _. left. by exists i.
  - exists (bool_decide (toLowerCase n = toLowerCase name)).
    split; [done|]. rewrite bool_decide_eq_true. split.
    + intros En. right. by exists n.
    + intros [(i' & [= <-] & E)|(n' & [= <-] & E)]; done.
Qed.

Lemma find_duplicate_none (l : list Player) :
  Forall Spec.keyed l →
  Forall (λ player, ¬ Spec.collides id name player) l →
  find_with (is_duplicate (Some (JStr id)) (Some (JStr name))) l
  = Return None.
Proof.
  induction 1 as [|p l Hp _ IH]; intros Hfresh; [done|].
  apply Forall_cons in Hfresh as [Hnp Hfresh].
  destruct (is_duplicate_keyed p Hp) as (b & Hb & Hiff).
  simpl. rewrite Hb. simpl. destruct b; [by destruct Hnp; apply Hiff|].
  by apply IH.
Qed.

Lemma find_duplicate_some (l : list Player) :
  Forall Spec.keyed l →
  Exists (Spec.collides id name) l →
  ∃ duplicate,
    find_with (is_duplicate (Some (JStr id)) (Some (JStr name))) l
    = Return (Some duplicate).
Proof.
  induction 1 as [|p l Hp _ IH]; intros Hex; [by apply Exists_nil in Hex|].
  destruct (is_duplicate_keyed p Hp) as (b & Hb & Hiff).
  simpl. rewrite Hb. simpl. destruct b; [by exists p|].
  apply Exists_cons in Hex as [Hc|Hex]; [|by apply IH].
  apply Hiff in Hc. done.
Qed.

(** The search of [GET /players/:uniquePlayerId] reaches a record appended
    to a collection in which no identifier matches. *)
Lemma find_by_id_appended (l : list Player) (record : Player) (i : string) :
  Forall Spec.keyed l →
  Forall (λ player, ¬ Spec.collides id name player) l →
  record !! "uniquePlayerId" = Some (JStr i) →
  toLowerCase i = toLowerCase id →
  find_with
    (λ entry,
       let! stored := toLowerCase_of (entry !! "uniquePlayerId") in
       Return (bool_decide (stored = toLowerCase id)))
    (l ++ [record])
  = Return (Some record).
Proof.
  intros Hkeyed Hfresh Hrec Hi.
  induction Hkeyed as [|p l (i' & n' & Hi' & Hn') _ IH]; simpl.
  - rewrite Hrec. simpl. by rewrite bool_decide_eq_true_2.
  - apply Forall_cons in Hfresh as [Hnp Hfresh].
    rewrite Hi'. simpl. rewrite bool_decide_eq_false_2; [by apply IH|].
    intros E. apply Hnp. left. by exists i'.
Qed.

End Searches.

(** ** One creation attempt *)

Lemma payload_and_extension_string (image : string) :
  payload_and_extension (Some (JStr image))
  = (Some (JStr (Spec.base64_part image)), Spec.extension_of image).
Proof.
  unfold Spec.base64_part, Spec.extension_of, payload_and_extension. simpl.
  by destruct (DataUrl.exec image) as [[mime payload]|].
Qed.

(** The rendering of a number starts with a digit or a sign, so that of a
    scalar other than a string is never a data URL. *)
Lemma pretty_N_go_not_d (x : N) (s s' : string) :
  (∀ r, s ≠ String "d" r) → pretty_N_go x s ≠ String "d" s'.
Proof.
  revert s. induction (N.lt_wf_0 x) as [x _ IH]; intros s Hs.
  assert (x = 0 ∨ 0 < x)%N as [->|Hpos] by lia.
  - rewrite pretty_N_go_0. apply Hs.
  - rewrite pretty_N_go_step by done. apply IH.
    { by apply N.div_lt. }
    intros r. unfold pretty_N_char. by repeat case_match.
Qed.

Lemma exec_not_string (v : JValue) :
  (∀ text, v ≠ JStr text) → DataUrl.exec (ToString (Some v)) = None.
Proof.
  intros Hv.
  destruct (DataUrl.exec (ToString (Some v))) as [[mime payload]|] eqn:Hexec;
    [exfalso|done].
  apply exec_spec in Hexec as (subtype & _ & _ & -> & _ & _ & _ & Hin).
  change ("data:" +:+ ("image/" +:+ subtype) +:+ ";base64," +:+ payload)
    with (String "d" ("ata:" +:+ ("image/" +:+ subtype) +:+ ";base64,"
                      +:+ payload)) in Hin.
  destruct v as [| [|] | n | text]; try discriminate Hin.
  - simpl in Hin. unfold pretty, pretty_Z in Hin.
    destruct n as [|p|p]; [discriminate Hin| |discriminate Hin].
    unfold pretty_positive, pretty, pretty_N in Hin.
    rewrite decide_False in Hin by done.
    by apply pretty_N_go_not_d in Hin.
  - by destruct (Hv text).
Qed.

Lemma bind_return {A B} (m : Block A) (k : A → Block B) (s s' : Server)
    (a : A) :
  m s = (Return a, s') → block_bind m k s = k a s'.
Proof. unfold block_bind. by intros ->. Qed.

Lemma bind_throw {A B} (m : Block A) (k : A → Block B) (s s' : Server)
    (e : JsError) :
  m s = (Throw e, s') → block_bind m k s = (Throw e, s').
Proof. unfold block_bind. by intros ->. Qed.

Lemma fs_mkdir_made (dir : Path) (s : Server) :
  dir ∉ faulty (disk s) →
  fs_mkdir dir s
  = (Return (), {| players := players s; disk := made dir (disk s) |}).
Proof. intros Hok. unfold fs_mkdir. by rewrite decide_False. Qed.

Lemma fs_mkdir_rejected (dir : Path) (s : Server) :
  dir ∈ faulty (disk s) →
  fs_mkdir dir s
  = (Throw (IOError dir),
     {| players := players s; disk := rejected (Mkdir dir) (disk s) |}).
Proof. intros Hko. unfold fs_mkdir. by rewrite decide_True. Qed.

Lemma fs_writeFile_written (path : Path) (data : FileData) (s : Server) :
  path ∉ faulty (disk s) →
  fs_writeFile path data s
  = (Return (),
     {| players := players s; disk := written path data (disk s) |}).
Proof. intros Hok. unfold fs_writeFile. by rewrite decide_False. Qed.

Lemma fs_writeFile_rejected (path : Path) (data : FileData) (s : Server) :
  path ∈ faulty (disk s) →
  fs_writeFile path data s
  = (Throw (IOError path),
     {| players := players s;
        disk := rejected (WriteFile path data) (disk s) |}).
Proof. intros Hko. unfold fs_writeFile. by rewrite decide_True. Qed.

Section Creation.

Variables (body : JsObject) (s : Server) (id name image : string).

Hypothesis Hpresent : Spec.present body.
Hypothesis Hid : body !! "uniquePlayerId" = Some (JStr id).
Hypothesis Hname : body !! "playerName" = Some (JStr name).

(** The [try] block on a string payload, by the first call that the
    environment rejects. *)
Lemma addPlayer_run :
  body !! "image" = Some (JStr image) →
  addPlayer body s =
    if decide (playersDir ∈ faulty (disk s)) then
      (Throw (IOError playersDir),
       {| players := players s;
          disk := rejected (Mkdir playersDir) (disk s) |})
    else if decide (Spec.image_file name image ∈ faulty (disk s)) then
      (Throw (IOError (Spec.image_file name image)),
       {| players := players s;
          disk := rejected
                    (WriteFile (Spec.image_file name image)
                       (Spec.image_bytes image))
                    (made playersDir (disk s)) |})
    else if decide (playersDataPath ∈ faulty (disk s)) then
      (Throw (IOError playersDataPath),
       {| players := players s ++ [Spec.created body name image];
          disk := rejected
                    (WriteFile playersDataPath
                       (PlayersJson
                          (players s ++ [Spec.created body name image])))
                    (written (Spec.image_file name image)
                       (Spec.image_bytes image)
                       (made playersDir (disk s))) |})
    else
      (Return {| status := 201;
                 json := PlayerBody (Spec.created body name image) |},
       {| players := players s ++ [Spec.created body name image];
          disk := written playersDataPath
                    (PlayersJson
                       (players s ++ [Spec.created body name image]))
                    (written (Spec.image_file name image)
                       (Spec.image_bytes image)
                       (made playersDir (disk s))) |}).
Proof.
  intros Himage. unfold addPlayer.
  rewrite Himage, payload_and_extension_string.
  replace (slugify_of (body !! "playerName")) with (Return (slugify name))
    by (by rewrite Hname).
  rewrite (bind_return _ _ s s (Base64.decode (Spec.base64_part image)))
    by done.
  rewrite (bind_return _ _ s s (slugify name)) by done.
  cbv beta zeta. rewrite newPlayer_canonical.
  fold (Spec.image_file_name name image).
  fold (Spec.image_file name image) (Spec.image_bytes image).
  fold (Spec.image_path name image). fold (Spec.created body name image).
  destruct (decide (playersDir ∈ faulty (disk s))) as [Hdir|Hdir].
  { by erewrite bind_throw by (by apply fs_mkdir_rejected). }
  erewrite bind_return by (by apply fs_mkdir_made).
  destruct (decide (Spec.image_file name image ∈ faulty (disk s)))
    as [Hfile|Hfile].
  { by erewrite bind_throw by (by apply fs_writeFile_rejected). }
  erewrite bind_return by (by apply fs_writeFile_written).
  unfold players_push at 1. unfold block_bind at 1.
  unfold players_read at 1. unfold block_bind at 1.
  destruct (decide (playersDataPath ∈ faulty (disk s))) as [Hdata|Hdata].
  { by erewrite bind_throw by (by apply fs_writeFile_rejected). }
  by erewrite bind_return by (by apply fs_writeFile_written).
Qed.

(** The [try] block on a payload that is not a string: [Buffer.from]
    throws before any call to the file system. *)
Lemma addPlayer_not_string (v : JValue) :
  body !! "image" = Some v →
  (∀ text, v ≠ JStr text) →
  addPlayer body s = (Throw TypeError, s).
Proof.
  intros Himage Hv. unfold addPlayer. rewrite Himage.
  unfold payload_and_extension. rewrite exec_not_string by done.
  apply bind_throw. unfold lift.
  destruct v as [| b | n | text]; try done. by destruct (Hv text).
Qed.

Hypothesis Hstore : Forall Spec.keyed (players s).
Hypothesis Hfresh :
  Forall (λ player, ¬ Spec.collides id name player) (players s).

Lemma postPlayers_fresh :
  postPlayers body s =
    match addPlayer body s with
    | (Return response, s') => (Sent response, s')
    | (Throw error, s') => (Sent (Spec.ImageError error), s')
    end.
Proof.
  unfold postPlayers.
  rewrite (proj2 (missing_nil_iff body) Hpresent), Hid, Hname.
  by rewrite (find_duplicate_none id name _ Hstore Hfresh).
Qed.

End Creation.

(** A response sent from inside the [try] block is the 201 response. *)
Lemma addPlayer_status (body : JsObject) (s s' : Server) (r : Response) :
  addPlayer body s = (Return r, s') → status r = 201.
Proof.
  unfold addPlayer. destruct (payload_and_extension _) as [payload extension].
  cbv beta iota delta [block_bind lift block_ret players_push players_read].
  destruct (Buffer_from_base64 payload); [|done].
  destruct (slugify_of _); [|done].
  destruct (fs_mkdir _ _) as [[[]|] ?]; [|done].
  destruct (fs_writeFile _ _ _) as [[[]|] ?]; [|done].
  destruct (fs_writeFile _ _ _) as [[[]|] ?]; [|done].
  by intros [= <- <-].
Qed.

(** The two responses with status 400 leave the process state as it was. *)
Lemma postPlayers_400 (body : JsObject) (s : Server) (r : Response) :
  (postPlayers body s).1 = Sent r → status r = 400 →
  (postPlayers body s).2 = s.
Proof.
  unfold postPlayers.
  destruct (filter _ requiredFields) as [|f missing]; [|done].
  destruct (find_with _ _) as [[duplicate|]|e]; [done| |done].
  destruct (addPlayer body s) as [[response|error] s'] eqn:Hrun; simpl.
  - intros [= <-] Hstatus. apply addPlayer_status in Hrun. congruence.
  - by intros [= <-].
Qed.

(** ** Values on which the embedding is exact *)

Section ExactValues.

Lemma text_string (v : option JValue) :
  Exact.text v → ∃ s : string, v = Some (JStr s).
Proof. destruct v as [[| | |s]|]; try done. by exists s. Qed.

Lemma exact_keyed (l : list Player) :
  Forall Exact.keyed l → Forall Spec.keyed l.
Proof.
  intros Hl. eapply Forall_impl; [done|].
  intros p [[id Hid]%text_string [name Hname]%text_string].
  by exists id, name.
Qed.

Lemma exact_teamed (l : list Player) :
  Forall Exact.teamed l → Forall Spec.teamed l.
Proof.
  intros Hl. eapply Forall_impl; [done|]. intros p. apply text_string.
Qed.

End ExactValues.

(** ** The base64 decoder *)

Section Base64Facts.

Import Base64.

(** The digits of the standard alphabet, read back. *)
Lemma unbase64_digit64 (v : N) :
  (v < 64)%N →
  unbase64 (Spec.digit64 v) = Some v
  ∧ (Chars.code (Spec.digit64 v) =? 61)%N = false.
Proof.
  intros Hv.
  assert (Forall (λ n : nat,
                    unbase64 (Spec.digit64 (N.of_nat n)) = Some (N.of_nat n)
                    ∧ (Chars.code (Spec.digit64 (N.of_nat n)) =? 61)%N
                      = false)
            (seq 0 64)) as Hall by closed_decide.
  rewrite Forall_forall in Hall. rewrite <- (N2Nat.id v).
  apply Hall, elem_of_seq. lia.
Qed.

Lemma sextets_digit (v : N) (l : list ascii) :
  (v < 64)%N → sextets (Spec.digit64 v :: l) = v :: sextets l.
Proof.
  intros Hv. destruct (unbase64_digit64 v Hv) as [Hdigit Hpad].
  simpl. by rewrite Hpad, Hdigit.
Qed.

Lemma sextets_pad (l : list ascii) : sextets ("="%char :: l) = [].
Proof. done. Qed.

Lemma bytes_of_sextets_group (a b c d : N) (l : list N) :
  bytes_of_sextets (a :: b :: c :: d :: l)
  = (a * 4 + b / 16)%N :: ((b mod 16) * 16 + c / 4)%N
      :: ((c mod 4) * 64 + d)%N :: bytes_of_sextets l.
Proof. by destruct l as [|? [|? [|? ?]]]. Qed.

(** Arithmetic with quotients and remainders by constants. *)
Ltac quotients := zify; Z.to_euclidean_division_equations; lia.

(** Decoding undoes the encoding of RFC 4648. *)
Lemma decode_base64 (bytes : list N) :
  Forall (λ b, (b < 256)%N) bytes →
  decode (str (Spec.base64 bytes)) = bytes.
Proof.
  unfold decode. rewrite chars_str.
  induction bytes as [bytes IH] using (induction_ltof1 _ length).
  unfold ltof in IH. intros Hbytes.
  destruct bytes as [|a [|b [|c rest]]].
  - done.
  - apply Forall_cons in Hbytes as [Ha _].
    cbn [Spec.base64].
    rewrite !sextets_digit, sextets_pad by quotients.
    cbn [bytes_of_sextets]. f_equal. quotients.
  - apply Forall_cons in Hbytes as [Ha Hbytes].
    apply Forall_cons in Hbytes as [Hb _].
    cbn [Spec.base64].
    rewrite !sextets_digit, sextets_pad by quotients.
    cbn [bytes_of_sextets]. f_equal; [|f_equal]; quotients.
  - apply Forall_cons in Hbytes as [Ha Hbytes].
    apply Forall_cons in Hbytes as [Hb Hbytes].
    apply Forall_cons in Hbytes as [Hc Hrest].
    cbn [Spec.base64].
    rewrite !sextets_digit by quotients.
    rewrite bytes_of_sextets_group. rewrite (IH rest); [|simpl; lia|done].
    f_equal; [|f_equal; [|f_equal]]; quotients.
Qed.

(** A unit that is not significant is skipped, the URL-safe digits stand for
    the standard ones, and nothing is read after a padding. *)
Lemma sextets_app (before after : list ascii) :
  "="%char ∉ before →
  sextets (before ++ after) = sextets before ++ sextets after.
Proof.
  induction before as [|c before IH]; [done|].
  intros [Hc Hbefore]%not_elem_of_cons. simpl.
  assert ((Chars.code c =? 61)%N = false) as ->.
  { apply N.eqb_neq. intros Hcode. apply Hc.
    rewrite <- (ascii_N_embedding c). unfold Chars.code in Hcode.
    by rewrite Hcode. }
  rewrite IH by done. by destruct (unbase64 c).
Qed.

Lemma sextets_insignificant (c : ascii) (l : list ascii) :
  Spec.insignificant c → sextets (c :: l) = sextets l.
Proof.
  intros Hc. simpl.
  assert ((Chars.code c =? 61)%N = false ∧ unbase64 c = None) as [-> ->];
    [|done].
  revert Hc. unfold Spec.insignificant.
  destruct c as [[] [] [] [] [] [] [] []]; intros Hc; try done;
    by destruct Hc; closed_decide.
Qed.

Lemma sextets_url_safe (l : list ascii) :
  sextets ("-"%char :: l) = sextets ("+"%char :: l)
  ∧ sextets ("_"%char :: l) = sextets ("/"%char :: l).
Proof. done. Qed.

Lemma sextets_stop (before after : list ascii) :
  "="%char ∈ before → sextets (before ++ after) = sextets before.
Proof.
  induction before as [|c before IH]; [by intros ?%elem_of_nil|].
  intros Hin. simpl. destruct (Chars.code c =? 61)%N eqn:Hc; [done|].
  apply elem_of_cons in Hin as [<-|Hin]; [done|].
  rewrite IH by done. by destruct (unbase64 c).
Qed.

(** What the decoder does with a string, unit by unit. *)
Lemma decode_lenient (before after : string) :
  (∀ c, Spec.insignificant c →
        decode (before +:+ String c after) = decode (before +:+ after))
  ∧ decode (before +:+ String "=" after) = decode before
  ∧ decode (before +:+ String "-" after)
    = decode (before +:+ String "+" after)
  ∧ decode (before +:+ String "_" after)
    = decode (before +:+ String "/" after).
Proof.
  unfold decode. rewrite !chars_app.
  destruct (decide ("="%char ∈ chars before)) as [Hpad|Hpad].
  - rewrite !sextets_stop by done. repeat split; try done.
    intros c _. by rewrite chars_app, !sextets_stop.
  - rewrite !sextets_app by done. repeat split.
    + intros c Hc. rewrite chars_app, sextets_app by done.
      change (chars (String c after)) with (c :: chars after).
      by rewrite sextets_insignificant.
    + change (chars (String "=" after)) with ("="%char :: chars after).
      by rewrite sextets_pad, app_nil_r.
Qed.

End Base64Facts.

(** ** A search by identifier after a duplicate search *)

(** When the duplicate search for an identifier finds nothing, a search for
    that identifier, in any letter case, finds a record that carries it and
    is appended to the collection. *)
Lemma find_by_id_after (name : option JValue) (id query : string)
    (l : list Player) (record : Player) :
  find_with (is_duplicate (Some (JStr id)) name) l = Return None →
  record !! "uniquePlayerId" = Some (JStr id) →
  toLowerCase query = toLowerCase id →
  find_with (Lookup.by_id query) (l ++ [record]) = Return (Some record).
Proof.
  intros Hnone Hrecord Hquery. induction l as [|p l IH]; simpl.
  - unfold Lookup.by_id. rewrite Hrecord. simpl.
    by rewrite bool_decide_eq_true_2.
  - simpl in Hnone. unfold is_duplicate at 1 in Hnone.
    unfold Lookup.by_id at 1.
    destruct (p !! "uniquePlayerId") as [[| | |i]|]; try done.
    simpl in *. rewrite Hquery.
    destruct (bool_decide (toLowerCase i = toLowerCase id)); [done|].
    apply IH.
    destruct (toLowerCase_of (p !! "playerName")); [|done].
    simpl in Hnone. destruct (toLowerCase_of name); [|done].
    simpl in Hnone. by destruct (bool_decide _).
Qed.

(** ** The outcomes of [POST /players] *)

Section Outcomes.

Lemma Buffer_from_base64_throws (v : option JValue) (e : JsError) :
  Buffer_from_base64 v = Throw e → e = TypeError.
Proof. destruct v as [[| | |text]|]; simpl; congruence. Qed.

Lemma slugify_of_throws (v : option JValue) (e : JsError) :
  slugify_of v = Throw e → e = TypeError.
Proof. destruct v as [[| | |text]|]; simpl; congruence. Qed.

Lemma is_duplicate_throws (oid oname : option JValue) (p : Player)
    (e : JsError) :
  is_duplicate oid oname p = Throw e → e = TypeError.
Proof.
  unfold is_duplicate.
  destruct (p !! "uniquePlayerId") as [[| | |i]|]; simpl; try congruence.
  destruct oid as [[| | |id]|]; simpl; try congruence.
  case_bool_decide; [done|].
  destruct (p !! "playerName") as [[| | |n]|]; simpl; try congruence.
  destruct oname as [[| | |name]|]; simpl; congruence.
Qed.

Lemma find_duplicate_throws (oid oname : option JValue) (l : list Player)
    (e : JsError) :
  find_with (is_duplicate oid oname) l = Throw e → e = TypeError.
Proof.
  induction l as [|p l IH]; simpl; [done|].
  destruct (is_duplicate oid oname p) as [[|]|e'] eqn:Hp; simpl.
  - done.
  - exact IH.
  - intros [= <-]. by apply is_duplicate_throws in Hp.
Qed.

(** The [try] block on any body. *)
Lemma addPlayer_any (body : JsObject) (s : Server) :
  addPlayer body s = (Throw TypeError, s)
  ∨ ∃ bytes slug,
      Buffer_from_base64 (payload_and_extension (body !! "image")).1
      = Return bytes
      ∧ slugify_of (body !! "playerName") = Return slug
      ∧ addPlayer body s =
          if decide (playersDir ∈ faulty (disk s)) then
            (Throw (IOError playersDir),
             {| players := players s;
                disk := rejected (Mkdir playersDir) (disk s) |})
          else if decide (Attempt.file body slug ∈ faulty (disk s)) then
            (Throw (IOError (Attempt.file body slug)),
             {| players := players s;
                disk := rejected
                          (WriteFile (Attempt.file body slug) (Bytes bytes))
                          (made playersDir (disk s)) |})
          else if decide (playersDataPath ∈ faulty (disk s)) then
            (Throw (IOError playersDataPath),
             {| players := players s ++ [Attempt.record body slug];
                disk := rejected
                          (WriteFile playersDataPath
                             (PlayersJson
                                (players s ++ [Attempt.record body slug])))
                          (written (Attempt.file body slug) (Bytes bytes)
                             (made playersDir (disk s))) |})
          else
            (Return {| status := 201;
                       json := PlayerBody (Attempt.record body slug) |},
             {| players := players s ++ [Attempt.record body slug];
                disk := written playersDataPath
                          (PlayersJson
                             (players s ++ [Attempt.record body slug]))
                          (written (Attempt.file body slug) (Bytes bytes)
                             (made playersDir (disk s))) |}).
Proof.
  unfold addPlayer, Attempt.file, Attempt.record, Attempt.extension.
  destruct (payload_and_extension (body !! "image")) as [payload ext].
  cbn [fst snd].
  destruct (Buffer_from_base64 payload) as [bytes|e] eqn:Hbytes.
  2:{ left. apply Buffer_from_base64_throws in Hbytes as ->.
      by apply bind_throw. }
  destruct (slugify_of (body !! "playerName")) as [slug|e] eqn:Hslug.
  2:{ left. apply slugify_of_throws in Hslug as ->.
      rewrite (bind_return _ _ s s bytes) by done. by apply bind_throw. }
  right. exists bytes, slug. split; [done|]. split; [done|].
  rewrite (bind_return _ _ s s bytes) by done.
  rewrite (bind_return _ _ s s slug) by done.
  cbv beta zeta. rewrite newPlayer_canonical.
  destruct (decide (playersDir ∈ faulty (disk s))) as [Hdir|Hdir].
  { by erewrite bind_throw by (by apply fs_mkdir_rejected). }
  erewrite bind_return by (by apply fs_mkdir_made).
  destruct (decide (playersDir ++ [slug +:+ ext] ∈ faulty (disk s)))
    as [Hfile|Hfile].
  { by erewrite bind_throw by (by apply fs_writeFile_rejected). }
  erewrite bind_return by (by apply fs_writeFile_written).
  unfold players_push at 1. unfold block_bind at 1.
  unfold players_read at 1. unfold block_bind at 1.
  destruct (decide (playersDataPath ∈ faulty (disk s))) as [Hdata|Hdata].
  { by erewrite bind_throw by (by apply fs_writeFile_rejected). }
  by erewrite bind_return by (by apply fs_writeFile_written).
Qed.

(** What the handler does, on every body and in every state. *)
Lemma postPlayers_run (body : JsObject) (s : Server) :
  Attempt.run body s (postPlayers body s).1 (postPlayers body s).2.
Proof.
  unfold postPlayers.
  destruct (filter (λ field, body !! field = None) requiredFields)
    as [|f missing] eqn:Hmissing.
  2:{ simpl. by apply (Attempt.run_missing body s (f :: missing)). }
  destruct (find_with _ (players s)) as [[duplicate|]|e] eqn:Hfind.
  - apply Attempt.run_conflict.
  - destruct (addPlayer_any body s) as [->|(bytes & slug & Hb & Hs & ->)].
    { apply Attempt.run_type_error. }
    assert (Attempt.prepared body s bytes slug) as Hprepared by done.
    destruct (decide (playersDir ∈ faulty (disk s))).
    { by eapply Attempt.run_no_directory. }
    destruct (decide (Attempt.file body slug ∈ faulty (disk s))).
    { by eapply Attempt.run_no_image. }
    destruct (decide (playersDataPath ∈ faulty (disk s))).
    { by eapply Attempt.run_not_persisted. }
    by eapply Attempt.run_created.
  - apply find_duplicate_throws in Hfind as ->. apply Attempt.run_uncaught.
Qed.


End Outcomes.

(** * The claims *)

(** C1, as amended. Every field that the handler requires ([playerName],
    [role], [teamName], [countryName], [age], [battingSyle],
    [uniquePlayerId], [runsScored], [centuriesScored], [wicketsTaken],
    [image]) and that is absent from the request is named in the one
    missing-fields response, which lists exactly the absent required fields;
    the attempt fails with that response if and only if one of them is
    absent, and the process state is then unchanged. *)
Theorem missing_fields_reported (body : JsObject) (s : Server) :
  let missing := filter (λ field, body !! field = None) requiredFields in
  (∀ field, field ∈ missing ↔ field ∈ requiredFields ∧ body !! field = None)
  ∧ (missing ≠ [] →
     postPlayers body s = (Sent (Spec.ValidationError missing), s))
  ∧ (missing = [] →
     ∀ fields, (postPlayers body s).1 ≠ Sent (Spec.ValidationError fields)).
Proof.
  intros missing. split; [apply elem_of_missing|]. split.
  - intros Hne. unfold postPlayers. fold missing. by destruct missing.
  - intros Hnil fields. unfold postPlayers. fold missing. rewrite Hnil.
    destruct (find_with _ _) as [[duplicate|]|e]; [done| |done].
    destruct (addPlayer body s) as [[response|error] s'] eqn:Hrun; simpl.
    + intros [= ->]. by apply addPlayer_status in Hrun.
    + done.
Qed.

(** A request without [role] and [image], and a complete one. *)
Lemma missing_fields_reported_witness :
  postPlayers (delete "role" (delete "image"
                 (Sample.request "Virat Kohli" "RCB-18" Sample.png)))
    Sample.server
  = (Sent (Spec.ValidationError ["role"; "image"]), Sample.server)
  ∧ ∀ fields,
      (postPlayers (Sample.request "Virat Kohli" "RCB-18" Sample.png)
         Sample.server).1
      ≠ Sent (Spec.ValidationError fields).
Proof.
  split.
  - refine (eq_trans
              (proj1 (proj2 (missing_fields_reported
                 (delete "role" (delete "image"
                    (Sample.request "Virat Kohli" "RCB-18" Sample.png)))
                 Sample.server)) _) _).
    + closed_decide.
    + closed_decide.
  - apply (proj2 (proj2 (missing_fields_reported
             (Sample.request "Virat Kohli" "RCB-18" Sample.png)
             Sample.server))).
    closed_decide.
Defined.

(** C1, as stated, fails: a request that carries the eleven fields of the
    data model, [battingStyle] among them, is rejected for a missing
    [battingSyle]; and a request without [battingStyle] is not rejected by
    the presence test when it carries [battingSyle]. *)
Lemma data_model_fields_not_required :
  Forall (λ field,
            is_Some (Sample.data_model_request "Virat Kohli" "RCB-18"
                       Sample.png !! field))
    Spec.dataModelFields
  ∧ (postPlayers (Sample.data_model_request "Virat Kohli" "RCB-18" Sample.png)
       Sample.server).1
    = Sent (Spec.ValidationError ["battingSyle"])
  ∧ Sample.request "Virat Kohli" "RCB-18" Sample.png !! "battingStyle" = None
  ∧ (postPlayers (Sample.request "Virat Kohli" "RCB-18" Sample.png)
       Sample.server).1
    = Sent {| status := 201;
              json := PlayerBody
                        (Spec.canonical_record
                           (Sample.request "Virat Kohli" "RCB-18" Sample.png)
                           "/players/virat-kohli.png") |}.
Proof.
  split; [|split; [|split]].
  - closed_decide.
  - closed_decide.
  - closed_decide.
  - closed_decide.
Qed.



(** C4, as amended. A creation attempt that passes the presence test, with
    a string identifier and a string name, on a collection whose identifiers
    and names are strings (all of ASCII units), and whose identifier or name
    collides, up to case, with a stored record is answered with the conflict
    response, and the collection (its size and its content), as the whole
    process state, is unchanged. *)
Theorem duplicate_rejected (body : JsObject) (s : Server) (id name : string) :
  Spec.present body →
  body !! "uniquePlayerId" = Some (JStr id) →
  body !! "playerName" = Some (JStr name) →
  Exact.ascii id → Exact.ascii name →
  Forall Exact.keyed (players s) →
  Exists (Spec.collides id name) (players s) →
  postPlayers body s = (Sent Spec.ConflictError, s)
  ∧ players (postPlayers body s).2 = players s
  ∧ length (players (postPlayers body s).2) = length (players s).
Proof.
  intros Hpresent Hid Hname _ _ Hstore%exact_keyed Hdup.
  assert (postPlayers body s = (Sent Spec.ConflictError, s)) as ->; [|done].
  unfold postPlayers.
  rewrite (proj2 (missing_nil_iff body) Hpresent), Hid, Hname.
  by destruct (find_duplicate_some id name _ Hstore Hdup) as [duplicate ->].
Qed.

(** A request that reuses a stored name in another letter case, and one
    that reuses a stored identifier. *)
Lemma duplicate_rejected_witness :
  postPlayers (Sample.request "ms dhoni" "RCB-18" Sample.png) Sample.server
  = (Sent Spec.ConflictError, Sample.server)
  ∧ postPlayers (Sample.request "Virat Kohli" "mi-93" Sample.png)
      Sample.server
    = (Sent Spec.ConflictError, Sample.server).
Proof.
  split.
  - apply (duplicate_rejected _ _ "RCB-18" "ms dhoni").
    + closed_decide.
    + closed_decide.
    + closed_decide.
    + closed_decide.
    + closed_decide.
    + closed_decide.
    + apply Exists_cons_tl, Exists_cons_hd. right.
      exists "MS Dhoni". split; vm_compute; reflexivity.
  - apply (duplicate_rejected _ _ "mi-93" "Virat Kohli").
    + closed_decide.
    + closed_decide.
    + closed_decide.
    + closed_decide.
    + closed_decide.
    + closed_decide.
    + apply Exists_cons_tl, Exists_cons_tl, Exists_cons_hd. left.
      exists "MI-93". split; vm_compute; reflexivity.
Defined.

(** C4, as stated, fails: an attempt whose name collides with a stored one
    and whose identifier is a number is not answered at all, the handler
    throws a [TypeError] outside its [try] statement; and an attempt whose
    identifier collides with a stored one and that lacks a required field is
    answered with the missing-fields response. *)
Lemma collision_not_conflict :
  Exists (Spec.collides "CSK-99" "MS Dhoni") Sample.roster
  ∧ postPlayers
      (<["uniquePlayerId" := JNum 7]>
         (Sample.request "MS Dhoni" "CSK-99" Sample.png))
      Sample.server
    = (Uncaught TypeError, Sample.server)
  ∧ Exists (Spec.collides "MI-93" "Virat Kohli") Sample.roster
  ∧ postPlayers
      (delete "age" (Sample.request "Virat Kohli" "MI-93" Sample.png))
      Sample.server
    = (Sent (Spec.ValidationError ["age"]), Sample.server).
Proof.
  split; [|split; [|split]].
  - apply Exists_cons_tl, Exists_cons_hd. right.
    exists "MS Dhoni". split; vm_compute; reflexivity.
  - closed_decide.
  - apply Exists_cons_tl, Exists_cons_tl, Exists_cons_hd. left.
    exists "MI-93". split; vm_compute; reflexivity.
  - closed_decide.
Qed.

(** C10. A creation attempt that fails the presence test or the duplicate
    test has no effect on the file system: no call is made to it, so that no
    image file is written, the asset directory is not created and the
    backing file is not rewritten; the collection is unchanged as well. *)
Theorem rejected_attempt_no_effect (body : JsObject) (s : Server)
    (r : Response) :
  (postPlayers body s).1 = Sent r →
  (∃ fields, r = Spec.ValidationError fields) ∨ r = Spec.ConflictError →
  (postPlayers body s).2 = s
  ∧ calls (disk (postPlayers body s).2) = calls (disk s)
  ∧ files (disk (postPlayers body s).2) = files (disk s)
  ∧ dirs (disk (postPlayers body s).2) = dirs (disk s).
Proof.
  intros Hsent Hfailure.
  assert ((postPlayers body s).2 = s) as ->; [|done].
  apply (postPlayers_400 body s r Hsent).
  by destruct Hfailure as [[fields ->] | ->].
Qed.

(** A request without [age], and one with a stored identifier: the journal
    of calls stays empty. *)
Lemma rejected_attempt_no_effect_witness :
  calls (disk (postPlayers
                 (delete "age"
                    (Sample.request "Virat Kohli" "RCB-18" Sample.png))
                 Sample.server).2) = []
  ∧ calls (disk (postPlayers
                   (Sample.request "Virat Kohli" "csk-07" Sample.png)
                   Sample.server).2) = [].
Proof.
  split.
  - apply (rejected_attempt_no_effect
             (delete "age" (Sample.request "Virat Kohli" "RCB-18" Sample.png))
             Sample.server (Spec.ValidationError ["age"])).
    + closed_decide.
    + left. by exists ["age"].
  - apply (rejected_attempt_no_effect
             (Sample.request "Virat Kohli" "csk-07" Sample.png)
             Sample.server Spec.ConflictError).
    + closed_decide.
    + by right.
Defined.



(** C9. Every attempt that appends a record while the write of the backing
    file is rejected is answered with the persistence failure. With that
    answer the append is not rolled back: the collection that later reads
    see ends with the new record, which agrees with the input on every
    required field other than [image] and holds no other field, and a lookup
    by the identifier of the request returns it. A request that passes the
    presence test, with an identifier, a name and an image that are strings
    of ASCII units and no collision with a stored record, on a disk that
    accepts the image but rejects the backing file, is such an attempt. *)
Theorem persistence_failure_keeps_append (body : JsObject) (s : Server) :
  (players (postPlayers body s).2 ≠ players s →
   playersDataPath ∈ faulty (disk s) →
   (postPlayers body s).1 = Sent Spec.PersistenceError)
  ∧ ((postPlayers body s).1 = Sent Spec.PersistenceError →
   playersDataPath ∈ faulty (disk s)
   ∧ ∃ record : Player,
       players (postPlayers body s).2 = players s ++ [record]
       ∧ (∀ field, field ∈ requiredFields → field ≠ "image" →
          record !! field = body !! field)
       ∧ (∀ field, field ∉ requiredFields → record !! field = None)
       ∧ (∃ file, record !! "image" = Some (JStr ("/players/" +:+ file)))
       ∧ (∀ id query : string,
            body !! "uniquePlayerId" = Some (JStr id) →
            toLowerCase query = toLowerCase id →
            getPlayerById (players (postPlayers body s).2) query
            = Sent {| status := 200; json := PlayerBody record |}))
  ∧ (∀ id name image : string,
       Spec.present body →
       body !! "uniquePlayerId" = Some (JStr id) →
       body !! "playerName" = Some (JStr name) →
       body !! "image" = Some (JStr image) →
       Exact.ascii id → Exact.ascii name → Exact.ascii image →
       Forall Exact.keyed (players s) →
       Forall (λ player, ¬ Spec.collides id name player) (players s) →
       playersDir ∉ faulty (disk s) →
       Spec.image_file name image ∉ faulty (disk s) →
       playersDataPath ∈ faulty (disk s) →
       (postPlayers body s).1 = Sent Spec.PersistenceError).
Proof.
  split; [|split].
  - destruct (postPlayers_run body s)
      as [fields _| | | |bytes slug _ _|bytes slug _ _ _
          |bytes slug _ _ _ _|bytes slug _ _ _ Hdata];
      simpl; try done.
  - destruct (postPlayers_run body s)
      as [fields _| | | |bytes slug _ _|bytes slug _ _ _
          |bytes slug (_ & Hfind & _) _ _ Hdata|bytes slug _ _ _ _];
      simpl; try done.
    intros _. split; [done|]. exists (Attempt.record body slug).
    split; [done|]. split; [|split; [|split]].
    + intros field Hin Hne. unfold Attempt.record.
      rewrite canonical_record_lookup. by rewrite decide_False, decide_True.
    + intros field Hout. unfold Attempt.record.
      rewrite canonical_record_lookup.
      rewrite decide_False by (intros ->; apply Hout; closed_decide).
      by rewrite decide_False.
    + exists (slug +:+ Attempt.extension body). unfold Attempt.record.
      rewrite canonical_record_lookup. by rewrite decide_True.
    + intros id query Hid Hquery. rewrite Hid in Hfind.
      assert (Attempt.record body slug !! "uniquePlayerId"
              = Some (JStr id)) as Hrecord.
      { unfold Attempt.record. rewrite canonical_record_lookup.
        rewrite decide_False by done.
        by rewrite decide_True by closed_decide. }
      unfold getPlayerById. fold (Lookup.by_id query).
      by rewrite (find_by_id_after _ id query _ _ Hfind Hrecord Hquery).
  - intros id name image Hpresent Hid Hname Himage _ _ _ Hstore%exact_keyed
      Hfresh Hdir Hfile Hdata.
    rewrite (postPlayers_fresh body s id name Hpresent Hid Hname Hstore
               Hfresh).
    rewrite (addPlayer_run body s name image Hname Himage).
    rewrite !decide_False by done. by rewrite decide_True by done.
Qed.

(** A fresh player on a disk that rejects the backing file. *)
Lemma persistence_failure_keeps_append_witness :
  (postPlayers (Sample.request "Virat Kohli" "RCB-18" Sample.png)
     {| players := Sample.roster; disk := Sample.read_only_data |}).1
  = Sent Spec.PersistenceError
  ∧ ∃ record : Player,
      players
        (postPlayers (Sample.request "Virat Kohli" "RCB-18" Sample.png)
           {| players := Sample.roster; disk := Sample.read_only_data |}).2
      = Sample.roster ++ [record]
      ∧ record !! "playerName" = Some (JStr "Virat Kohli")
      ∧ getPlayerById
          (players
             (postPlayers (Sample.request "Virat Kohli" "RCB-18" Sample.png)
                {| players := Sample.roster;
                   disk := Sample.read_only_data |}).2)
          "RCB-18"
        = Sent {| status := 200; json := PlayerBody record |}.
Proof.
  pose proof (persistence_failure_keeps_append
                (Sample.request "Virat Kohli" "RCB-18" Sample.png)
                {| players := Sample.roster; disk := Sample.read_only_data |})
    as (_ & Hkept & Hsurfaced).
  assert ((postPlayers (Sample.request "Virat Kohli" "RCB-18" Sample.png)
             {| players := Sample.roster;
                disk := Sample.read_only_data |}).1
          = Sent Spec.PersistenceError) as Hfailure.
  { apply (Hsurfaced "RCB-18" "Virat Kohli" Sample.png).
    - closed_decide.
    - closed_decide.
    - closed_decide.
    - closed_decide.
    - closed_decide.
    - closed_decide.
    - closed_decide.
    - closed_decide.
    - sample_fresh.
    - closed_decide.
    - closed_decide.
    - closed_decide. }
  split; [done|].
  destruct (Hkept Hfailure) as (_ & record & Hplayers & Hfields & _ & _ & Hid).
  exists record. split; [done|]. split.
  - rewrite Hfields; [done|closed_decide|done].
  - by apply (Hid "RCB-18").
Defined.

(** C2, as amended. On strings of ASCII units, decoding never fails: the
    decoder gives back the bytes of a standard base64 encoding, skips the
    units that are neither a digit of the standard or URL-safe alphabet nor
    the padding, reads the URL-safe digits as the standard ones and stops at
    the first [=]. So for every string payload, valid base64 or not, on a
    disk that accepts the directory and the image file, the decoded bytes of
    its base64 portion are written and the record is appended. When image
    persistence fails, because the directory or the image file is rejected
    or because the payload is a scalar other than a string, the failure is
    sent to the caller as the 500 response and no record is appended. *)
Theorem image_failure_propagates (body : JsObject) (s : Server)
    (id name : string) :
  Spec.present body →
  body !! "uniquePlayerId" = Some (JStr id) →
  body !! "playerName" = Some (JStr name) →
  Exact.ascii id → Exact.ascii name →
  Forall Exact.keyed (players s) →
  Forall (λ player, ¬ Spec.collides id name player) (players s) →
  (∀ image : string,
     body !! "image" = Some (JStr image) →
     Exact.ascii image →
     playersDir ∉ faulty (disk s) →
     Spec.image_file name image ∉ faulty (disk s) →
     players (postPlayers body s).2
     = players s ++ [Spec.created body name image]
     ∧ (∀ mime payload,
          Spec.is_data_url image mime payload →
          files (disk (postPlayers body s).2)
            !! (Spec.image_file name image)
          = Some (Bytes (Base64.decode payload)))
     ∧ ((∀ mime payload, ¬ Spec.is_data_url image mime payload) →
        files (disk (postPlayers body s).2)
          !! (Spec.image_file name image)
        = Some (Bytes (Base64.decode image)))
     ∧ (playersDataPath ∉ faulty (disk s) →
        (postPlayers body s).1
        = Sent {| status := 201;
                  json := PlayerBody (Spec.created body name image) |}))
  ∧ (∀ image : string,
       body !! "image" = Some (JStr image) →
       Exact.ascii image →
       playersDir ∈ faulty (disk s)
       ∨ Spec.image_file name image ∈ faulty (disk s) →
       (∃ path, (postPlayers body s).1 = Sent (Spec.ImageError (IOError path)))
       ∧ players (postPlayers body s).2 = players s)
  ∧ (∀ v : JValue,
       body !! "image" = Some v → (∀ text, v ≠ JStr text) →
       postPlayers body s = (Sent (Spec.ImageError TypeError), s))
  ∧ (∀ bytes : list N,
       Forall (λ b, (b < 256)%N) bytes →
       Base64.decode (str (Spec.base64 bytes)) = bytes)
  ∧ (∀ (before after : string) (c : ascii),
       Exact.ascii before → Exact.ascii after → (Chars.code c < 128)%N →
       (Spec.insignificant c →
        Base64.decode (before +:+ String c after)
        = Base64.decode (before +:+ after))
       ∧ Base64.decode (before +:+ String "=" after) = Base64.decode before
       ∧ Base64.decode (before +:+ String "-" after)
         = Base64.decode (before +:+ String "+" after)
       ∧ Base64.decode (before +:+ String "_" after)
         = Base64.decode (before +:+ String "/" after)).
Proof.
  intros Hpresent Hid Hname _ _ Hstore%exact_keyed Hfresh.
  rewrite (postPlayers_fresh body s id name Hpresent Hid Hname Hstore Hfresh).
  split; [|split; [|split; [|split]]].
  - intros image Himage _ Hdir Hfile.
    rewrite (addPlayer_run body s name image Hname Himage).
    rewrite !decide_False by done.
    assert (Spec.image_file name image ≠ playersDataPath)
      as Hpaths by done.
    assert (∀ s',
              files (disk s') !! Spec.image_file name image
              = Some (Spec.image_bytes image) →
              (∀ mime payload,
                 Spec.is_data_url image mime payload →
                 files (disk s') !! Spec.image_file name image
                 = Some (Bytes (Base64.decode payload)))
              ∧ ((∀ mime payload, ¬ Spec.is_data_url image mime payload) →
                 files (disk s') !! Spec.image_file name image
                 = Some (Bytes (Base64.decode image)))) as Hbytes.
    { intros s' ->. unfold Spec.image_bytes, Spec.base64_part. split.
      - intros mime payload Hurl%exec_spec. by rewrite Hurl.
      - intros Hnone.
        destruct (DataUrl.exec image) as [[mime payload]|] eqn:Hexec;
          [|done].
        apply exec_spec in Hexec. by destruct (Hnone mime payload). }
    destruct (decide (playersDataPath ∈ faulty (disk s))) as [Hdata|Hdata];
      simpl.
    + split; [done|].
      destruct (Hbytes
                  {| players := players s ++ [Spec.created body name image];
                     disk := rejected
                               (WriteFile playersDataPath
                                  (PlayersJson
                                     (players s
                                      ++ [Spec.created body name image])))
                               (written (Spec.image_file name image)
                                  (Spec.image_bytes image)
                                  (made playersDir (disk s))) |})
        as [Hurl Hplain]; [simpl; by rewrite lookup_insert_eq|].
      done.
    + split; [done|].
      destruct (Hbytes
                  {| players := players s ++ [Spec.created body name image];
                     disk := written playersDataPath
                               (PlayersJson
                                  (players s
                                   ++ [Spec.created body name image]))
                               (written (Spec.image_file name image)
                                  (Spec.image_bytes image)
                                  (made playersDir (disk s))) |})
        as [Hurl Hplain].
      { simpl. rewrite lookup_insert_ne by done. by rewrite lookup_insert_eq. }
      done.
  - intros image Himage _ Hrejected.
    rewrite (addPlayer_run body s name image Hname Himage).
    destruct (decide (playersDir ∈ faulty (disk s))) as [Hdir|Hdir]; simpl.
    { split; [by eexists|done]. }
    destruct Hrejected as [?|Hfile]; [done|].
    rewrite decide_True by done. simpl. split; [by eexists|done].
  - intros v Himage Hv. by rewrite (addPlayer_not_string body s v Himage Hv).
  - apply decode_base64.
  - intros before after c _ _ _.
    destruct (decode_lenient before after) as (Hskip & Hpad & Hminus & Hlow).
    split; [apply Hskip|done].
Qed.

(** A payload that is not base64, a disk that rejects the asset directory,
    a numeric payload, and the decoding of three bytes. *)
Lemma image_failure_propagates_witness :
  files (disk (postPlayers
                 (Sample.request "Virat Kohli" "RCB-18" "not base64!")
                 Sample.server).2)
    !! Spec.image_file "Virat Kohli" "not base64!"
  = Some (Bytes (Base64.decode "not base64!"))
  ∧ players (postPlayers (Sample.request "Virat Kohli" "RCB-18" Sample.png)
               {| players := Sample.roster;
                  disk := Sample.read_only_public |}).2
    = Sample.roster
  ∧ postPlayers
      (<["image" := JNum 7]>
         (Sample.request "Virat Kohli" "RCB-18" Sample.png))
      Sample.server
    = (Sent (Spec.ImageError TypeError), Sample.server)
  ∧ Base64.decode (str (Spec.base64 [77; 97; 110]%N)) = [77; 97; 110]%N.
Proof.
  split; [|split; [|split]].
  - apply (proj1 (image_failure_propagates
                    (Sample.request "Virat Kohli" "RCB-18" "not base64!")
                    Sample.server "RCB-18" "Virat Kohli"
                    ltac:(closed_decide) eq_refl eq_refl
                    ltac:(closed_decide) ltac:(closed_decide)
                    ltac:(closed_decide) ltac:(sample_fresh))
             "not base64!").
    + closed_decide.
    + closed_decide.
    + closed_decide.
    + closed_decide.
    + intros mime payload (subtype & _ & _ & -> & _ & _ & _ & Himg).
      discriminate Himg.
  - apply (proj1 (proj2 (image_failure_propagates
                    (Sample.request "Virat Kohli" "RCB-18" Sample.png)
                    {| players := Sample.roster;
                       disk := Sample.read_only_public |}
                    "RCB-18" "Virat Kohli"
                    ltac:(closed_decide) eq_refl eq_refl
                    ltac:(closed_decide) ltac:(closed_decide)
                    ltac:(closed_decide) ltac:(sample_fresh)))
             Sample.png).
    + closed_decide.
    + closed_decide.
    + left. closed_decide.
  - apply (proj1 (proj2 (proj2 (image_failure_propagates
                    (<["image" := JNum 7]>
                       (Sample.request "Virat Kohli" "RCB-18" Sample.png))
                    Sample.server "RCB-18" "Virat Kohli"
                    ltac:(closed_decide) eq_refl eq_refl
                    ltac:(closed_decide) ltac:(closed_decide)
                    ltac:(closed_decide) ltac:(sample_fresh))))
             (JNum 7)).
    + closed_decide.
    + discriminate.
  - apply (proj1 (proj2 (proj2 (proj2 (image_failure_propagates
                    (Sample.request "Virat Kohli" "RCB-18" Sample.png)
                    Sample.server "RCB-18" "Virat Kohli"
                    ltac:(closed_decide) eq_refl eq_refl
                    ltac:(closed_decide) ltac:(closed_decide)
                    ltac:(closed_decide) ltac:(sample_fresh)))))
             [77; 97; 110]%N).
    closed_decide.
Defined.

(** C2, as stated, fails: a payload that is not valid base64, alone or as
    the base64 portion of a data URL, raises no decode error; the attempt is
    answered with 201, an image file is written and the record is
    appended. *)
Lemma invalid_base64_accepted :
  Base64.valid "!!!!" = false
  ∧ (postPlayers (Sample.request "Virat Kohli" "RCB-18" "!!!!")
       Sample.server).1
    = Sent {| status := 201;
              json := PlayerBody
                        (Spec.canonical_record
                           (Sample.request "Virat Kohli" "RCB-18" "!!!!")
                           "/players/virat-kohli.png") |}
  ∧ players (postPlayers (Sample.request "Virat Kohli" "RCB-18" "!!!!")
               Sample.server).2
    = Sample.roster
      ++ [Spec.canonical_record
            (Sample.request "Virat Kohli" "RCB-18" "!!!!")
            "/players/virat-kohli.png"]
  ∧ files (disk (postPlayers (Sample.request "Virat Kohli" "RCB-18" "!!!!")
                   Sample.server).2)
      !! ["public"; "players"; "virat-kohli.png"]
    = Some (Bytes [])
  ∧ Base64.valid (Spec.base64_part "data:image/jpeg;base64,@@@@") = false
  ∧ (postPlayers
       (Sample.request "Virat Kohli" "RCB-18" "data:image/jpeg;base64,@@@@")
       Sample.server).1
    = Sent {| status := 201;
              json := PlayerBody
                        (Spec.canonical_record
                           (Sample.request "Virat Kohli" "RCB-18"
                              "data:image/jpeg;base64,@@@@")
                           "/players/virat-kohli.jpg") |}.
Proof. repeat split; closed_decide. Qed.

(** ** [GET /players?teamName=...] *)

Lemma filter_by_team (normalized : string) (l : list Player) :
  Forall Spec.teamed l →
  filter_with
    (λ player,
       let! team := toLowerCase_of (player !! "teamName") in
       Return (bool_decide (team = normalized)))
    l
  = Return (filter (λ player,
                      toLowerCase (Spec.team_key player) = normalized) l).
Proof.
  induction 1 as [|p l [team Hteam] _ IH]; [done|].
  simpl. rewrite IH, Hteam. simpl. rewrite filter_cons.
  unfold Spec.team_key. rewrite Hteam. simpl.
  by destruct (decide (toLowerCase team = normalized));
    [rewrite bool_decide_eq_true_2|rewrite bool_decide_eq_false_2].
Qed.

(** C3, as amended. The query by team answers 400 when [teamName] is absent,
    empty or not a string. For a non-empty string of ASCII units, a
    white-space-only one included, on a collection whose team names are
    strings of ASCII units, it answers 404 with a message that ends with the
    team name as given exactly when no stored team name equals the trimmed
    input up to case. *)
Theorem byTeam_failures (players : list Player) :
  (∀ teamName,
     teamName = QAbsent ∨ teamName = QString "" ∨ teamName = QStructured →
     getPlayersByTeam players teamName
     = Sent {| status := 400;
               json := Message "teamName query parameter is required" |})
  ∧ (∀ name : string,
       name ≠ "" →
       Exact.ascii name →
       Forall Exact.teamed players →
       (Forall (λ player,
                  toLowerCase (Spec.team_key player)
                  ≠ toLowerCase (trim name)) players →
        getPlayersByTeam players (QString name)
        = Sent {| status := 404;
                  json := Message ("No players found for team " +:+ name) |})
       ∧ (Exists (λ player,
                    toLowerCase (Spec.team_key player)
                    = toLowerCase (trim name)) players →
          ∃ r, getPlayersByTeam players (QString name) = Sent r
               ∧ status r = 200)).
Proof.
  split.
  - by intros teamName [-> | [-> | ->]].
  - intros name Hname _ Hteamed%exact_teamed. unfold getPlayersByTeam.
    rewrite decide_False by done. rewrite filter_by_team by done. split.
    + intros Hnone.
      assert (filter (λ player, toLowerCase (Spec.team_key player)
                                = toLowerCase (trim name)) players = [])
        as ->; [|done].
      apply elem_of_nil_inv. intros p [Hp Hin]%list_elem_of_filter.
      rewrite Forall_forall in Hnone. by apply (Hnone p).
    + intros (p & Hin & Hp)%Exists_exists.
      destruct (filter _ players) as [|first roster] eqn:Hfilter.
      * assert (p ∈ filter (λ player, toLowerCase (Spec.team_key player)
                                      = toLowerCase (trim name)) players)
          as Hmem by by apply list_elem_of_filter.
        rewrite Hfilter in Hmem. by apply elem_of_nil in Hmem.
      * by eexists.
Qed.

(** An empty team name, and a team that no sample record has. *)
Lemma byTeam_failures_witness :
  getPlayersByTeam Sample.roster (QString "")
  = Sent {| status := 400;
            json := Message "teamName query parameter is required" |}
  ∧ getPlayersByTeam Sample.roster (QString "mumbai-indians")
    = Sent {| status := 404;
              json := Message ("No players found for team "
                               +:+ "mumbai-indians") |}.
Proof.
  split.
  - apply (proj1 (byTeam_failures Sample.roster)). right. by left.
  - apply (proj2 (byTeam_failures Sample.roster) "mumbai-indians").
    + discriminate.
    + closed_decide.
    + closed_decide.
    + closed_decide.
Defined.

(** C3, as stated, fails: a white-space-only [teamName] is not answered with
    400 but searched for, and an input that equals no stored team name up to
    case is still matched after trimming. *)
Lemma blank_team_not_rejected :
  getPlayersByTeam Sample.roster (QString "   ")
  = Sent {| status := 404;
            json := Message "No players found for team    " |}
  ∧ Forall (λ player,
              toLowerCase (Spec.team_key player)
              ≠ toLowerCase " Chennai Super Kings ") Sample.roster
  ∧ getPlayersByTeam Sample.roster (QString " Chennai Super Kings ")
    = Sent {| status := 200;
              json := RosterBody (Some (JStr "Chennai Super Kings"))
                        [summary (Sample.stored "MS Dhoni" "CSK-07"
                                    "Chennai Super Kings")] |}.
Proof.
  split; [|split].
  - closed_decide.
  - closed_decide.
  - closed_decide.
Qed.

(** ** [GET /players/grouped] *)

Section FirstSeen.

Import Spec.

Lemma elem_of_first_seen (l : list string) (x : string) :
  x ∈ first_seen l ↔ x ∈ l.
Proof.
  induction l as [|y l IH]; [done|].
  simpl. rewrite !elem_of_cons, list_elem_of_filter, IH.
  destruct (decide (x = y)) as [->|Hne]; [by split; left|].
  split; [by intros [?|[_ ?]]; [left|right] |].
  by intros [?|?]; [|right].
Qed.

Lemma NoDup_first_seen (l : list string) : NoDup (first_seen l).
Proof.
  induction l as [|y l IH]; simpl; [constructor|].
  apply NoDup_cons. split; [|by apply NoDup_filter].
  rewrite list_elem_of_filter. by intros [Hne _].
Qed.

Lemma first_seen_snoc (l : list string) (k : string) :
  first_seen (l ++ [k])
  = if decide (k ∈ l) then first_seen l else first_seen l ++ [k].
Proof.
  induction l as [|x l IH]; simpl.
  - reflexivity.
  - rewrite IH. destruct (decide (k ∈ l)) as [Hin|Hout].
    + rewrite decide_True; [done|]. by apply elem_of_cons; right.
    + rewrite filter_app, filter_cons, filter_nil.
      destruct (decide (k = x)) as [->|Hne].
      * rewrite decide_False by (by intros Hne).
        rewrite decide_True by (by apply elem_of_cons; left).
        by rewrite app_nil_r.
      * rewrite decide_True by done.
        rewrite decide_False; [done|].
        by intros [?|?]%elem_of_cons.
Qed.

End FirstSeen.

Section PushMember.

Import Grouping.

Variable members : string → list Player.

Lemma push_member_absent (ts : list string) (k : string) (p : Player) :
  k ∉ ts →
  push_member k p ((λ t, (t, members t)) <$> ts)
  = ((λ t, (t, members t)) <$> ts) ++ [(k, [p])].
Proof.
  induction ts as [|t ts IH]; intros Hout; [done|].
  apply not_elem_of_cons in Hout as [Hne Hout]. simpl.
  rewrite decide_False by done. f_equal. by apply IH.
Qed.

Lemma push_member_present (ts : list string) (k : string) (p : Player) :
  k ∈ ts → NoDup ts →
  push_member k p ((λ t, (t, members t)) <$> ts)
  = (λ t, (t, if decide (t = k) then members t ++ [p] else members t))
      <$> ts.
Proof.
  induction ts as [|t ts IH]; intros Hin Hnodup;
    [by apply elem_of_nil in Hin|].
  apply NoDup_cons in Hnodup as [Ht Hnodup]. simpl.
  destruct (decide (t = k)) as [->|Hne].
  - f_equal. apply list_fmap_ext. intros i t Hlook.
    rewrite decide_False; [done|]. intros ->.
    apply Ht. by eapply list_elem_of_lookup_2.
  - f_equal. apply IH; [|done].
    by apply elem_of_cons in Hin as [->|Hin].
Qed.

End PushMember.

Section Grouped.

Import Grouping.

Lemma grouped_first_seen_snoc (l : list Player) (p : Player) :
  Spec.grouped_first_seen (l ++ [p])
  = push_member (Spec.team_key p) p (Spec.grouped_first_seen l).
Proof.
  unfold Spec.grouped_first_seen.
  rewrite fmap_app.
  change (Spec.team_key <$> [p]) with [Spec.team_key p].
  rewrite first_seen_snoc.
  destruct (decide (Spec.team_key p ∈ Spec.team_key <$> l)) as [Hin|Hout].
  - rewrite (push_member_present (λ t, filter (λ q, Spec.team_key q = t) l));
      [|by apply elem_of_first_seen|apply NoDup_first_seen].
    apply list_fmap_ext. intros i t _. f_equal.
    rewrite filter_app, filter_cons, filter_nil.
    destruct (decide (t = Spec.team_key p)) as [->|Hne].
    + by rewrite decide_True.
    + rewrite decide_False by done. by rewrite app_nil_r.
  - rewrite (push_member_absent (λ t, filter (λ q, Spec.team_key q = t) l))
      by (by rewrite elem_of_first_seen).
    rewrite fmap_app. simpl. f_equal.
    + apply list_fmap_ext. intros i t Hlook. f_equal.
      rewrite filter_app, filter_cons, filter_nil.
      rewrite decide_False; [by rewrite app_nil_r|].
      intros <-. apply Hout. apply elem_of_first_seen.
      by eapply list_elem_of_lookup_2.
    + do 2 f_equal. rewrite filter_app, filter_cons, filter_nil.
      rewrite decide_True by done.
      assert (filter (λ q, Spec.team_key q = Spec.team_key p) l = [])
        as ->; [|done].
      apply elem_of_nil_inv. intros q [Hq Hmem]%list_elem_of_filter.
      apply Hout. rewrite <- Hq. by apply list_elem_of_fmap_2.
Qed.

(** The fold of the handler builds the groups in first-seen order. *)
Lemma reduce_first_seen (l : list Player) :
  Forall (λ p, Spec.team_key p ∉ object_prototype_keys) l →
  ∀ before,
    reduce_with group_step l (Spec.grouped_first_seen before)
    = Return (Spec.grouped_first_seen (before ++ l)).
Proof.
  induction 1 as [|p l Hp _ IH]; intros before; simpl.
  - by rewrite app_nil_r.
  - unfold group_step at 1. fold (Spec.team_key p).
    rewrite decide_False by done. simpl.
    rewrite <- grouped_first_seen_snoc, IH. by rewrite <- app_assoc.
Qed.

Lemma Object_entries_named (o : Groups) :
  Forall (λ kv, array_index kv.1 = None) o → Object_entries o = o.
Proof.
  intros Hnamed. unfold Object_entries.
  assert (omap (λ kv : string * list Player,
                  match array_index kv.1 with
                  | Some n => Some (n, kv)
                  | None => None
                  end) o = []) as ->.
  { induction Hnamed as [|kv o Hkv _ IH]; [done|].
    simpl. by rewrite Hkv. }
  change (filter (λ kv : string * list Player, array_index kv.1 = None) o
          = o).
  induction Hnamed as [|kv o Hkv _ IH]; [done|].
  rewrite filter_cons, decide_True by done. by f_equal.
Qed.

End Grouped.

(** C8, as amended. On a collection in which a team name that is a string
    is one of ASCII units and a team name that is a number is an integer
    that a double holds exactly, and in which no team name is an array-index
    numeral or the name of a property inherited from [Object.prototype], the
    grouping partitions the players by the exact string of their team name,
    the members of each group are in collection order, and the groups are in
    the order of the first occurrence of their team name. *)
Theorem grouped_in_first_seen_order (players : list Player) :
  Forall (λ player, Exact.scalar (player !! "teamName")) players →
  Forall (λ player,
            Grouping.array_index (Spec.team_key player) = None
            ∧ Spec.team_key player ∉ Grouping.object_prototype_keys)
    players →
  getPlayersGrouped players
  = Sent {| status := 200;
            json := GroupedBody (Spec.grouped_first_seen players) |}
  ∧ (∀ team members,
       (team, members) ∈ Spec.grouped_first_seen players →
       members ≠ []
       ∧ members = filter (λ player, Spec.team_key player = team) players)
  ∧ (∀ player team,
       player ∈ players → player !! "teamName" = Some (JStr team) →
       ∃ members,
         (team, members) ∈ Spec.grouped_first_seen players
         ∧ player ∈ members).
Proof.
  intros _ Hnames. split; [|split].
  - assert (Forall (λ p, Spec.team_key p ∉ Grouping.object_prototype_keys)
              players) as Hproto
      by (eapply Forall_impl; [done|by intros ? []]).
    pose proof (reduce_first_seen players Hproto []) as Hreduce.
    change (Spec.grouped_first_seen [])
      with (@nil (string * list Player)) in Hreduce.
    unfold getPlayersGrouped. rewrite Hreduce. simpl.
    rewrite Object_entries_named; [done|].
    apply Forall_forall. intros [team members] Hin. simpl.
    apply list_elem_of_fmap in Hin as (t & [= -> ->] & Ht).
    apply elem_of_first_seen, list_elem_of_fmap in Ht as (p & -> & Hp).
    rewrite Forall_forall in Hnames. by destruct (Hnames p Hp).
  - intros team members Hin.
    apply list_elem_of_fmap in Hin as (t & [= -> ->] & Ht).
    split; [|done].
    apply elem_of_first_seen, list_elem_of_fmap in Ht as (p & -> & Hp).
    intros Hempty.
    assert (p ∈ filter (λ player, Spec.team_key player = Spec.team_key p)
                  players) as Hmem by by apply list_elem_of_filter.
    rewrite Hempty in Hmem. by apply elem_of_nil in Hmem.
  - intros p team Hp Hteam.
    exists (filter (λ player, Spec.team_key player = team) players).
    assert (Spec.team_key p = team) as Hkey
      by (by unfold Spec.team_key; rewrite Hteam).
    split.
    + apply list_elem_of_fmap. exists team. split; [done|].
      apply elem_of_first_seen, list_elem_of_fmap. by exists p.
    + by apply list_elem_of_filter.
Qed.

(** The sample collection: the team seen first comes first. *)
Lemma grouped_in_first_seen_order_witness :
  getPlayersGrouped Sample.roster
  = Sent {| status := 200;
            json := GroupedBody
                      [ ("Mumbai Indians",
                         [ Sample.stored "Rohit Sharma" "MI-45"
                             "Mumbai Indians";
                           Sample.stored "Jasprit Bumrah" "MI-93"
                             "Mumbai Indians" ]);
                        ("Chennai Super Kings",
                         [ Sample.stored "MS Dhoni" "CSK-07"
                             "Chennai Super Kings" ]) ] |}.
Proof.
  refine (eq_trans
            (proj1 (grouped_in_first_seen_order Sample.roster _ _)) _).
  - closed_decide.
  - closed_decide.
  - closed_decide.
Defined.

(** C8, as stated, fails: a team named by an array-index numeral is listed
    before the teams seen earlier, and a team named as an inherited property
    makes the handler throw. *)
Lemma grouped_not_first_seen :
  Spec.grouped_first_seen Sample.numbered
  = [ ("Mumbai Indians",
       [Sample.stored "Rohit Sharma" "MI-45" "Mumbai Indians"]);
      ("7", [Sample.stored "MS Dhoni" "CSK-07" "7"]) ]
  ∧ getPlayersGrouped Sample.numbered
    = Sent {| status := 200;
              json := GroupedBody
                        [ ("7", [Sample.stored "MS Dhoni" "CSK-07" "7"]);
                          ("Mumbai Indians",
                           [Sample.stored "Rohit Sharma" "MI-45"
                              "Mumbai Indians"]) ] |}
  ∧ getPlayersGrouped Sample.numbered
    ≠ Sent {| status := 200;
              json := GroupedBody
                        (Spec.grouped_first_seen Sample.numbered) |}
  ∧ getPlayersGrouped Sample.inherited = Uncaught TypeError.
Proof.
  split; [|split; [|split]].
  - closed_decide.
  - closed_decide.
  - closed_decide.
  - closed_decide.
Qed.

(** * Further properties *)

(** ** The shape of a slug *)

Section SlugShape.

Import Chars.

Lemma slugify_hyphenate (value : string) :
  slugify value
  = match Spec.words (chars (toLowerCase value)) with
    | [] => "player"
    | ws => str (Spec.hyphenate ws)
    end.
Proof.
  unfold slugify. rewrite strip_replace_words.
  pose proof (hyphenate_nil_iff _
                (words_nonempty (chars (toLowerCase value)))) as Hnil.
  destruct (Spec.words (chars (toLowerCase value))) as [|w ws]; [done|].
  case_decide as Hempty; [|done].
  by apply str_nil_iff, Hnil in Hempty.
Qed.

Lemma words_are_words (l : list ascii) : Forall Shape.word (Spec.words l).
Proof.
  unfold Spec.words. pose proof (split_words_classes l) as [Hw Hws].
  destruct (Spec.split_words l) as [w ws]; simpl in *.
  destruct w as [|c w]; simpl; [done|]. by constructor.
Qed.

(** Every slug is a non-empty list of words joined by hyphens; the
    fall-back [player] is one word. *)
Lemma slugify_words_exist (value : string) :
  ∃ ws, ws ≠ [] ∧ Forall Shape.word ws
        ∧ chars (slugify value) = Spec.hyphenate ws.
Proof.
  rewrite slugify_hyphenate.
  pose proof (words_are_words (chars (toLowerCase value))) as Hws.
  destruct (Spec.words (chars (toLowerCase value))) as [|w ws].
  - exists [chars "player"]. split; [done|]. split; [|done].
    repeat constructor; done.
  - exists (w :: ws). split; [done|]. split; [done|]. apply chars_str.
Qed.

Lemma separated_chars (ws : list (list ascii)) :
  Forall Shape.word ws →
  Forall (λ c, is_slug_char c = true ∨ c = "-"%char) (Spec.separated ws).
Proof.
  induction 1 as [|w ws [_ Hw] _ IH]; [constructor|].
  rewrite separated_cons. constructor; [by right|].
  apply Forall_app. split; [|done].
  eapply Forall_impl; [exact Hw|]. by left.
Qed.

Lemma hyphenate_chars (w : list ascii) (ws : list (list ascii)) :
  Forall Shape.word (w :: ws) →
  Forall (λ c, is_slug_char c = true ∨ c = "-"%char)
    (Spec.hyphenate (w :: ws)).
Proof.
  intros [[_ Hw] Hws]%Forall_cons. rewrite hyphenate_cons.
  apply Forall_app. split; [|by apply separated_chars].
  eapply Forall_impl; [exact Hw|]. by left.
Qed.

(** In a slug every hyphen is followed by a unit of the class. *)
Lemma hyphen_followed (ws : list (list ascii)) :
  Forall Shape.word ws →
  ∀ (w : list ascii) (i : nat),
    Spec.in_class w →
    (w ++ Spec.separated ws) !! i = Some "-"%char →
    ∃ c, (w ++ Spec.separated ws) !! S i = Some c ∧ is_slug_char c = true.
Proof.
  induction 1 as [|w1 ws [Hne1 Hw1] _ IH]; intros w i Hw Hi.
  - exfalso. unfold Spec.separated in Hi. simpl in Hi.
    rewrite app_nil_r in Hi. apply list_elem_of_lookup_2 in Hi.
    unfold Spec.in_class in Hw. rewrite Forall_forall in Hw.
    by specialize (Hw _ Hi).
  - rewrite separated_cons in *.
    destruct (decide (i < length w)) as [Hlt|Hge].
    + exfalso. rewrite lookup_app_l in Hi by done.
      apply list_elem_of_lookup_2 in Hi.
      unfold Spec.in_class in Hw. rewrite Forall_forall in Hw.
      by specialize (Hw _ Hi).
    + destruct (decide (i = length w)) as [->|Hne].
      * destruct w1 as [|c1 w1]; [done|]. exists c1.
        split; [|exact (Forall_inv Hw1)].
        rewrite lookup_app_r by lia.
        by replace (S (length w) - length w) with 1 by lia.
      * rewrite lookup_app_r in Hi by lia.
        rewrite lookup_app_r by lia.
        replace (S i - length w) with (S (S (i - length w - 1))) by lia.
        replace (i - length w) with (S (i - length w - 1)) in Hi by lia.
        simpl in *. by apply IH.
Qed.

Lemma slugify_shape_parts (value : string) :
  Forall (λ c, is_slug_char c = true ∨ c = "-"%char) (chars (slugify value))
  ∧ ∃ c, head (chars (slugify value)) = Some c ∧ is_slug_char c = true.
Proof.
  destruct (slugify_words_exist value) as (ws & Hne & Hws & Heq).
  rewrite Heq. destruct ws as [|w ws]; [done|].
  split; [by apply hyphenate_chars|].
  apply Forall_cons in Hws as [[Hwne Hw] _]. rewrite hyphenate_cons.
  destruct w as [|c w]; [done|]. exists c. split; [done|].
  exact (Forall_inv Hw).
Qed.

End SlugShape.

(** X1. Every slug is a non-empty sequence of non-empty words over
    [[a-z0-9]] joined by single hyphens: its units are of the class or
    hyphens, it starts and ends with a unit of the class, and every hyphen
    is followed by a unit of the class. *)
Theorem slugify_shape (value : string) :
  (∃ ws, ws ≠ [] ∧ Forall Shape.word ws
         ∧ chars (slugify value) = Spec.hyphenate ws)
  ∧ Forall (λ c, Chars.is_slug_char c = true ∨ c = "-"%char)
      (chars (slugify value))
  ∧ (∃ c, head (chars (slugify value)) = Some c
          ∧ Chars.is_slug_char c = true)
  ∧ (∃ c, last (chars (slugify value)) = Some c
          ∧ Chars.is_slug_char c = true)
  ∧ (∀ i, chars (slugify value) !! i = Some "-"%char →
          ∃ c, chars (slugify value) !! S i = Some c
               ∧ Chars.is_slug_char c = true).
Proof.
  destruct (slugify_words_exist value) as (ws & Hne & Hws & Heq).
  split; [by exists ws|]. rewrite Heq.
  destruct ws as [|w ws]; [done|].
  pose proof Hws as [[Hwne Hw] Hrest]%Forall_cons.
  split; [by apply hyphenate_chars|]. rewrite hyphenate_cons.
  split; [|split].
  - destruct w as [|c w]; [done|]. exists c. split; [done|].
    exact (Forall_inv Hw).
  - by apply last_in_class.
  - intros i Hi. by apply (hyphen_followed ws Hrest w i Hw).
Qed.

Section SlugAgain.

Import Chars.

Lemma lower_fixed (l : list ascii) :
  Forall (λ c, is_slug_char c = true ∨ c = "-"%char) l → lower <$> l = l.
Proof.
  induction 1 as [|c l Hc _ IH]; [done|].
  rewrite fmap_cons, IH. f_equal. unfold lower.
  destruct (is_upper c) eqn:Hupper; [exfalso|done].
  destruct Hc as [Hc | ->]; [|done].
  unfold is_slug_char, is_lower, is_digit, is_upper, between in *.
  rewrite andb_true_iff, !N.leb_le in Hupper.
  rewrite orb_true_iff, !andb_true_iff, !N.leb_le in Hc. lia.
Qed.

Lemma split_words_joined (ws : list (list ascii)) :
  Forall Shape.word ws →
  ∀ w, Spec.in_class w →
       Spec.split_words (w ++ Spec.separated ws) = (w, ws).
Proof.
  induction 1 as [|w1 ws [Hne1 Hw1] _ IH]; intros w Hw.
  - unfold Spec.separated. simpl. rewrite app_nil_r.
    induction Hw as [|c w Hc _ IHw]; [done|].
    simpl. by rewrite IHw, Hc.
  - rewrite separated_cons.
    induction Hw as [|c w Hc _ IHw].
    + simpl. rewrite (IH w1 Hw1). simpl. by destruct w1.
    + simpl. by rewrite IHw, Hc.
Qed.

Lemma words_hyphenate (ws : list (list ascii)) :
  Forall Shape.word ws → Spec.words (Spec.hyphenate ws) = ws.
Proof.
  intros Hws. destruct Hws as [|w ws [Hne Hw] Hws]; [done|].
  rewrite hyphenate_cons. unfold Spec.words.
  rewrite split_words_joined by done. by destruct w.
Qed.

End SlugAgain.

(** X2. [slugify] is idempotent: the slug of a slug is that slug. *)
Theorem slugify_idempotent (value : string) :
  slugify (slugify value) = slugify value.
Proof.
  destruct (slugify_words_exist value) as (ws & Hne & Hws & Heq).
  rewrite (slugify_hyphenate (slugify value)).
  assert (toLowerCase (slugify value) = slugify value) as ->.
  { unfold toLowerCase. rewrite lower_fixed; [apply str_chars|].
    rewrite Heq. destruct ws as [|w ws]; [done|]. by apply hyphenate_chars. }
  rewrite Heq, words_hyphenate by done.
  destruct ws as [|w ws]; [done|]. by rewrite <- Heq, str_chars.
Qed.

Lemma extension_cases (image : option JValue) :
  (payload_and_extension image).2 ∈ [".svg"; ".jpg"; ".png"].
Proof.
  unfold payload_and_extension.
  destruct (DataUrl.exec (ToString image)) as [[mime payload]|]; simpl.
  - rewrite mapMimeToExtension_table. unfold Spec.extension_table.
    destruct (decide (mime = "image/svg+xml")); [by left|].
    destruct (decide (mime = "image/jpeg" ∨ mime = "image/jpg")).
    + by right; left.
    + by right; right; left.
  - by right; right; left.
Qed.

(** X3. The name of the image file, the slug followed by the extension, is
    a single path segment: the extension is one of [.svg], [.jpg] and
    [.png], the units are of [[a-z0-9]], hyphens or dots, none is a slash,
    and the name is neither [.] nor [..]; so the file is written directly
    in the asset directory. *)
Theorem image_file_name_safe (name : string) (image : option JValue) :
  (payload_and_extension image).2 ∈ [".svg"; ".jpg"; ".png"]
  ∧ Forall (λ c, Shape.is_file_char c = true)
      (chars (slugify name +:+ (payload_and_extension image).2))
  ∧ ("/"%char ∉ chars (slugify name +:+ (payload_and_extension image).2))
  ∧ slugify name +:+ (payload_and_extension image).2 ≠ "."
  ∧ slugify name +:+ (payload_and_extension image).2 ≠ "..".
Proof.
  pose proof (extension_cases image) as Hext.
  destruct (slugify_shape_parts name) as (Hchars & c & Hhead & Hc).
  assert (Forall (λ c, Shape.is_file_char c = true)
            (chars (slugify name +:+ (payload_and_extension image).2)))
    as Hfile.
  { rewrite chars_app. apply Forall_app. split.
    - eapply Forall_impl; [exact Hchars|]. intros a [Ha | ->]; [|done].
      unfold Shape.is_file_char. by rewrite Ha.
    - repeat (apply elem_of_cons in Hext as [->|Hext]);
        [repeat constructor..|by apply elem_of_nil in Hext]. }
  split; [done|]. split; [done|]. split; [|split].
  - intros Hin. rewrite Forall_forall in Hfile. by specialize (Hfile _ Hin).
  - intros Heq. apply (f_equal chars) in Heq. rewrite chars_app in Heq.
    destruct (chars (slugify name)) as [|a l]; [done|].
    injection Heq as -> _. injection Hhead as <-. done.
  - intros Heq. apply (f_equal chars) in Heq. rewrite chars_app in Heq.
    destruct (chars (slugify name)) as [|a l]; [done|].
    injection Heq as -> _. injection Hhead as <-. done.
Qed.

(** ** More on [GET /players/grouped] *)

Section ObjectEntries.

Import Grouping.

Context {X : Type}.

Lemma insert_by_index_perm (e : N * X) (l : list (N * X)) :
  insert_by_index e l ≡ₚ e :: l.
Proof.
  induction l as [|e' l IH]; [done|]. simpl.
  destruct (e.1 <=? e'.1)%N; [done|]. rewrite IH. apply perm_swap.
Qed.

Lemma sort_by_index_perm (l : list (N * X)) : sort_by_index l ≡ₚ l.
Proof.
  induction l as [|e l IH]; [done|]. unfold sort_by_index in *. simpl.
  rewrite insert_by_index_perm. by rewrite IH.
Qed.

Lemma insert_by_index_sorted (e : N * X) (l : list (N * X)) :
  StronglySorted Order.index_le l →
  StronglySorted Order.index_le (insert_by_index e l).
Proof.
  induction 1 as [|e' l Hsorted IH Hall]; simpl.
  - by repeat constructor.
  - destruct (e.1 <=? e'.1)%N eqn:Hle.
    + apply N.leb_le in Hle. constructor; [by constructor|].
      constructor; [done|]. eapply Forall_impl; [exact Hall|].
      intros x Hx. unfold Order.index_le in *. lia.
    + apply N.leb_gt in Hle. constructor; [done|].
      rewrite insert_by_index_perm. constructor; [|done].
      unfold Order.index_le. lia.
Qed.

Lemma sort_by_index_sorted (l : list (N * X)) :
  StronglySorted Order.index_le (sort_by_index l).
Proof.
  induction l as [|e l IH]; [constructor|].
  by apply insert_by_index_sorted.
Qed.

End ObjectEntries.

Section GroupedMore.

Import Grouping.

Lemma indexed_entries (o : Groups) :
  Forall (λ e : N * (string * list Player), array_index e.2.1 = Some e.1)
    (omap (λ kv : string * list Player,
             match array_index kv.1 with
             | Some n => Some (n, kv)
             | None => None
             end) o)
  ∧ snd <$> omap (λ kv : string * list Player,
                    match array_index kv.1 with
                    | Some n => Some (n, kv)
                    | None => None
                    end) o
    = filter (λ kv, is_Some (array_index kv.1)) o.
Proof.
  induction o as [|kv o [IH1 IH2]]; [by split; [constructor|]|].
  rewrite filter_cons. csimpl.
  destruct (array_index kv.1) as [n|] eqn:Hkv; csimpl.
  - split; [by constructor|]. by f_equal.
  - done.
Qed.

Lemma sorted_keys (l : list (N * (string * list Player))) :
  Forall (λ e, array_index e.2.1 = Some e.1) l →
  StronglySorted Order.index_le l →
  StronglySorted Order.key_index_le (snd <$> l).
Proof.
  intros Hall Hsorted.
  induction Hsorted as [|e l Hsorted IH Hle]; [constructor|].
  apply Forall_cons in Hall as [He Hall].
  rewrite fmap_cons. constructor; [by apply IH|].
  apply Forall_fmap. rewrite Forall_forall in Hall, Hle |- *.
  intros e' Hin. unfold Order.key_index_le. simpl.
  rewrite He, (Hall e' Hin). by apply Hle.
Qed.

(** [Object.entries] lists every own property once: the array indices in
    ascending order, then the other names in creation order. *)
Lemma Object_entries_split (o : Groups) :
  ∃ indexed,
    Object_entries o
    = indexed ++ filter (λ kv, array_index kv.1 = None) o
    ∧ indexed ≡ₚ filter (λ kv, is_Some (array_index kv.1)) o
    ∧ StronglySorted Order.key_index_le indexed.
Proof.
  destruct (indexed_entries o) as [Hall Hsnd].
  eexists. split; [reflexivity|]. split.
  - rewrite <- Hsnd. by rewrite sort_by_index_perm.
  - apply sorted_keys; [|apply sort_by_index_sorted].
    by rewrite sort_by_index_perm.
Qed.

Lemma Object_entries_perm (o : Groups) : Object_entries o ≡ₚ o.
Proof.
  destruct (Object_entries_split o) as (indexed & -> & Hperm & _).
  assert (filter (λ kv : string * list Player, array_index kv.1 = None) o
          = filter (λ kv, ¬ is_Some (array_index kv.1)) o) as ->.
  { apply list_filter_iff. intros kv. by rewrite eq_None_not_Some. }
  rewrite Hperm. apply filter_app_complement.
Qed.

Lemma reduce_throws (l : list Player) :
  Exists (λ p, Spec.team_key p ∈ object_prototype_keys) l →
  ∀ acc, reduce_with group_step l acc = Throw TypeError.
Proof.
  induction 1 as [p l Hp|p l _ IH]; intros acc; simpl.
  - unfold group_step. fold (Spec.team_key p). by rewrite decide_True.
  - unfold group_step at 1. fold (Spec.team_key p).
    destruct (decide (Spec.team_key p ∈ object_prototype_keys)); [done|].
    simpl. apply IH.
Qed.

Lemma concat_perm {A} (l k : list (list A)) :
  l ≡ₚ k → concat l ≡ₚ concat k.
Proof.
  induction 1 as [|x l k _ IH|x y l|l k m _ IH1 _ IH2]; simpl.
  - done.
  - by rewrite IH.
  - rewrite !app_assoc. f_equiv. apply Permutation_app_comm.
  - by rewrite IH1.
Qed.

Lemma push_member_concat (key : string) (p : Player) (acc : Groups) :
  concat (snd <$> push_member key p acc) ≡ₚ concat (snd <$> acc) ++ [p].
Proof.
  induction acc as [|[k members] acc IH]; [done|]. simpl.
  destruct (decide (k = key)); simpl.
  - rewrite <- !app_assoc. f_equiv. apply Permutation_app_comm.
  - rewrite IH. by rewrite app_assoc.
Qed.

Lemma grouped_first_seen_concat (l : list Player) :
  concat (snd <$> Spec.grouped_first_seen l) ≡ₚ l.
Proof.
  induction l as [|p l IH] using rev_ind; [done|].
  rewrite grouped_first_seen_snoc, push_member_concat. by rewrite IH.
Qed.

Lemma grouped_first_seen_names (l : list Player) :
  (Spec.grouped_first_seen l).*1 = Spec.first_seen (Spec.team_key <$> l).
Proof.
  unfold Spec.grouped_first_seen.
  induction (Spec.first_seen (Spec.team_key <$> l)) as [|t ts IH]; [done|].
  rewrite !fmap_cons. simpl. by f_equal.
Qed.

Lemma grouped_run (l : list Player) :
  Forall (λ p, Spec.team_key p ∉ object_prototype_keys) l →
  getPlayersGrouped l
  = Sent {| status := 200;
            json := GroupedBody
                      (Object_entries (Spec.grouped_first_seen l)) |}.
Proof.
  intros Hproto. pose proof (reduce_first_seen l Hproto []) as Hreduce.
  change (Spec.grouped_first_seen [])
    with (@nil (string * list Player)) in Hreduce.
  unfold getPlayersGrouped. by rewrite Hreduce.
Qed.

End GroupedMore.

(** X4. The grouping throws a [TypeError] exactly when some player's team
    name is the name of a property inherited from [Object.prototype];
    otherwise it answers 200. *)
Theorem grouped_throws_iff (players : list Player) :
  (getPlayersGrouped players = Uncaught TypeError
   ↔ Exists (λ p, Spec.team_key p ∈ Grouping.object_prototype_keys) players)
  ∧ ((∃ groups, getPlayersGrouped players
                = Sent {| status := 200; json := GroupedBody groups |})
     ↔ Forall (λ p, Spec.team_key p ∉ Grouping.object_prototype_keys)
         players).
Proof.
  destruct (decide (Exists (λ p, Spec.team_key p
                                 ∈ Grouping.object_prototype_keys) players))
    as [Hex|Hall].
  - assert (getPlayersGrouped players = Uncaught TypeError) as Hthrow.
    { unfold getPlayersGrouped. by rewrite reduce_throws. }
    rewrite Hthrow. split; [done|]. split; [by intros [? ?]|].
    intros Hall. exfalso. apply Exists_exists in Hex as (p & Hin & Hp).
    rewrite Forall_forall in Hall. by apply (Hall p).
  - apply not_Exists_Forall in Hall; [|intros ?; apply _].
    rewrite grouped_run by done. split; [split; [done|]|].
    + intros Hex. exfalso. apply Exists_exists in Hex as (p & Hin & Hp).
      rewrite Forall_forall in Hall. by apply (Hall p).
    + split; [done|]. intros _. by eexists.
Qed.

(** X5. On a collection in which a team name that is a string is one of
    ASCII units and a team name that is a number is an integer that a double
    holds exactly: when the grouping answers, it is a partition of the
    collection: the group names are distinct, a pair is listed exactly when
    its name is the team name of some player and its members are the players
    of that team in collection order, and the members of all groups together
    are the players, each once. *)
Theorem grouped_partition (players : list Player)
    (groups : list (string * list Player)) :
  Forall (λ player, Exact.scalar (player !! "teamName")) players →
  getPlayersGrouped players
  = Sent {| status := 200; json := GroupedBody groups |} →
  NoDup groups.*1
  ∧ (∀ team members,
       (team, members) ∈ groups
       ↔ team ∈ Spec.team_key <$> players
         ∧ members = filter (λ p, Spec.team_key p = team) players)
  ∧ concat groups.*2 ≡ₚ players.
Proof.
  intros _ Hrun.
  destruct (decide (Exists (λ p, Spec.team_key p
                                 ∈ Grouping.object_prototype_keys) players))
    as [Hex|Hall].
  { unfold getPlayersGrouped in Hrun. by rewrite reduce_throws in Hrun. }
  apply not_Exists_Forall in Hall; [|intros ?; apply _].
  rewrite grouped_run in Hrun by done.
  assert (groups = Grouping.Object_entries (Spec.grouped_first_seen players))
    as -> by congruence.
  pose proof (Object_entries_perm (Spec.grouped_first_seen players)) as Hperm.
  split; [|split].
  - rewrite Hperm, grouped_first_seen_names. apply NoDup_first_seen.
  - intros team members. rewrite Hperm. unfold Spec.grouped_first_seen.
    rewrite list_elem_of_fmap. setoid_rewrite elem_of_first_seen. split.
    + by intros (t & [= -> ->] & Ht).
    + intros [Ht ->]. by exists team.
  - rewrite (concat_perm _ _ (fmap_Permutation snd _ _ Hperm)).
    apply grouped_first_seen_concat.
Qed.

Lemma grouped_partition_witness :
  NoDup Scenario.groups.*1
  ∧ (∀ team members,
       (team, members) ∈ Scenario.groups
       ↔ team ∈ Spec.team_key <$> Sample.roster
         ∧ members = filter (λ p, Spec.team_key p = team) Sample.roster)
  ∧ concat Scenario.groups.*2 ≡ₚ Sample.roster.
Proof.
  apply (grouped_partition Sample.roster Scenario.groups).
  - closed_decide.
  - closed_decide.
Defined.

(** X6. On a collection in which a team name that is a string is one of
    ASCII units and a team name that is a number is an integer that a double
    holds exactly, the order of the groups is: first the groups whose name
    is an array-index numeral, in ascending numeric order, then the other
    groups in the order in which their team name first occurs in the
    collection. *)
Theorem grouped_order (players : list Player)
    (groups : list (string * list Player)) :
  Forall (λ player, Exact.scalar (player !! "teamName")) players →
  getPlayersGrouped players
  = Sent {| status := 200; json := GroupedBody groups |} →
  ∃ indexed,
    groups
    = indexed ++ filter (λ kv, Grouping.array_index kv.1 = None)
                   (Spec.grouped_first_seen players)
    ∧ indexed ≡ₚ filter (λ kv, is_Some (Grouping.array_index kv.1))
                   (Spec.grouped_first_seen players)
    ∧ StronglySorted Order.key_index_le indexed.
Proof.
  intros _ Hrun.
  destruct (decide (Exists (λ p, Spec.team_key p
                                 ∈ Grouping.object_prototype_keys) players))
    as [Hex|Hall].
  { unfold getPlayersGrouped in Hrun. by rewrite reduce_throws in Hrun. }
  apply not_Exists_Forall in Hall; [|intros ?; apply _].
  rewrite grouped_run in Hrun by done.
  assert (groups = Grouping.Object_entries (Spec.grouped_first_seen players))
    as -> by congruence.
  apply Object_entries_split.
Qed.

Lemma grouped_order_witness :
  ∃ indexed,
    Scenario.numbered_groups
    = indexed ++ filter (λ kv, Grouping.array_index kv.1 = None)
                   (Spec.grouped_first_seen Sample.numbered)
    ∧ indexed ≡ₚ filter (λ kv, is_Some (Grouping.array_index kv.1))
                   (Spec.grouped_first_seen Sample.numbered)
    ∧ StronglySorted Order.key_index_le indexed.
Proof.
  apply (grouped_order Sample.numbered Scenario.numbered_groups).
  - closed_decide.
  - closed_decide.
Defined.

(** ** More on [GET /players/:uniquePlayerId] *)

Section ById.

Variable query : string.

Lemma find_by_id_skip (before rest : list Player) :
  Forall (Lookup.id_differs query) before →
  find_with (Lookup.by_id query) (before ++ rest)
  = find_with (Lookup.by_id query) rest.
Proof.
  induction 1 as [|p before (i & Hi & Hne) _ IH]; [done|].
  simpl. unfold Lookup.by_id at 1. rewrite Hi. simpl.
  by rewrite bool_decide_eq_false_2.
Qed.

Lemma find_by_id_hit (p : Player) (after : list Player) :
  Lookup.id_is query p →
  find_with (Lookup.by_id query) (p :: after) = Return (Some p).
Proof.
  intros (i & Hi & Heq). simpl. unfold Lookup.by_id. rewrite Hi. simpl.
  by rewrite bool_decide_eq_true_2.
Qed.

Lemma find_by_id_untyped (p : Player) (after : list Player) :
  ¬ Lookup.id_typed p →
  find_with (Lookup.by_id query) (p :: after) = Throw TypeError.
Proof.
  intros Hp. simpl. unfold Lookup.by_id.
  destruct (p !! "uniquePlayerId") as [[| | |i]|] eqn:Hi; try done.
  destruct Hp. by exists i.
Qed.

Lemma find_by_id_none (l : list Player) :
  find_with (Lookup.by_id query) l = Return None
  ↔ Forall (Lookup.id_differs query) l.
Proof.
  split.
  - induction l as [|p l IH]; [constructor|].
    simpl. unfold Lookup.by_id at 1.
    destruct (p !! "uniquePlayerId") as [[| | |i]|] eqn:Hi; try done.
    simpl. destruct (bool_decide_reflect (toLowerCase i = toLowerCase query));
      [done|].
    intros Hrest. constructor; [by exists i|by apply IH].
  - intros Hall. rewrite <- (app_nil_r l). by rewrite find_by_id_skip.
Qed.

End ById.

(** X7. For an identifier of ASCII units, the lookup by identifier returns
    the first record, in collection order, whose identifier equals the one
    asked for up to case, when the identifiers read before it are strings of
    ASCII units; what follows that record is not read. *)
Theorem byId_first_match (before after : list Player) (found : Player)
    (query : string) :
  Exact.ascii query →
  Forall (λ player, Exact.text (player !! "uniquePlayerId"))
    (before ++ [found]) →
  Forall (Lookup.id_differs query) before →
  Lookup.id_is query found →
  getPlayerById (before ++ found :: after) query
  = Sent {| status := 200; json := PlayerBody found |}.
Proof.
  intros _ _ Hbefore Hfound. unfold getPlayerById. fold (Lookup.by_id query).
  rewrite (find_by_id_skip query before _ Hbefore).
  by rewrite (find_by_id_hit query found after Hfound).
Qed.

Lemma byId_first_match_witness :
  getPlayerById ([Scenario.rohit] ++ Scenario.dhoni :: [Scenario.bumrah])
    "csk-07"
  = Sent {| status := 200; json := PlayerBody Scenario.dhoni |}.
Proof.
  apply (byId_first_match [Scenario.rohit] [Scenario.bumrah] Scenario.dhoni
           "csk-07").
  - closed_decide.
  - closed_decide.
  - repeat constructor. eexists. split; [vm_compute; reflexivity|].
    vm_compute. discriminate.
  - eexists. split; vm_compute; reflexivity.
Defined.

(** X8. For an identifier of ASCII units, on a collection in which the
    identifiers that are strings are of ASCII units, the lookup by
    identifier answers 404, naming the identifier as given, exactly when
    every record has a string identifier that differs from the one asked for
    up to case; the empty collection is such a case. *)
Theorem byId_not_found_iff (players : list Player) (query : string) :
  Exact.ascii query →
  Forall (λ player, Exact.plain (player !! "uniquePlayerId")) players →
  (getPlayerById players query
   = Sent {| status := 404;
             json := Message ("Player with id " +:+ query +:+ " not found") |}
   ↔ Forall (Lookup.id_differs query) players).
Proof.
  intros _ _. rewrite <- find_by_id_none. unfold getPlayerById.
  fold (Lookup.by_id query).
  destruct (find_with (Lookup.by_id query) players) as [[found|]|e]; simpl;
    split; done.
Qed.

Lemma byId_not_found_iff_witness :
  getPlayerById Sample.roster "rcb-18"
  = Sent {| status := 404;
            json := Message ("Player with id " +:+ "rcb-18"
                             +:+ " not found") |}.
Proof.
  refine (proj2 (byId_not_found_iff Sample.roster "rcb-18" _ _) _).
  - closed_decide.
  - closed_decide.
  - repeat constructor; eexists; (split; [vm_compute; reflexivity|]);
      vm_compute; discriminate.
Defined.

(** X9. For an identifier of ASCII units, the lookup by identifier throws a
    [TypeError] when it reaches a record whose identifier is absent or not a
    string before it finds a match, the identifiers read before it being
    strings of ASCII units. *)
Theorem byId_untyped_record (before after : list Player) (bad : Player)
    (query : string) :
  Exact.ascii query →
  Forall (λ player, Exact.text (player !! "uniquePlayerId")) before →
  Forall (Lookup.id_differs query) before →
  ¬ Lookup.id_typed bad →
  getPlayerById (before ++ bad :: after) query = Uncaught TypeError.
Proof.
  intros _ _ Hbefore Hbad. unfold getPlayerById. fold (Lookup.by_id query).
  rewrite (find_by_id_skip query before _ Hbefore).
  by rewrite (find_by_id_untyped query bad after Hbad).
Qed.

Lemma byId_untyped_record_witness :
  getPlayerById ([Scenario.dhoni] ++ Scenario.unidentified :: [Scenario.bumrah])
    "mi-93"
  = Uncaught TypeError.
Proof.
  apply (byId_untyped_record [Scenario.dhoni] [Scenario.bumrah]
           Scenario.unidentified "mi-93").
  - closed_decide.
  - closed_decide.
  - repeat constructor. eexists. split; [vm_compute; reflexivity|].
    vm_compute. discriminate.
  - intros [i Hi]. vm_compute in Hi. discriminate Hi.
Defined.

(** ** More on [GET /players?teamName=...] *)

Lemma teamed_or_not (p : Player) : Spec.teamed p ∨ ¬ Spec.teamed p.
Proof.
  unfold Spec.teamed.
  destruct (p !! "teamName") as [[| | |team]|]; try (by right; intros [? ?]).
  left. by exists team.
Qed.

Lemma all_teamed_or_not (l : list Player) :
  Forall Spec.teamed l ∨ Exists (λ p, ¬ Spec.teamed p) l.
Proof.
  induction l as [|p l [IH|IH]].
  - left. constructor.
  - destruct (teamed_or_not p); [left|right]; by constructor.
  - right. by apply Exists_cons_tl.
Qed.

Lemma filter_by_team_throws (normalized : string) (l : list Player) :
  Exists (λ p, ¬ Spec.teamed p) l →
  filter_with
    (λ player,
       let! team := toLowerCase_of (player !! "teamName") in
       Return (bool_decide (team = normalized)))
    l
  = Throw TypeError.
Proof.
  induction 1 as [p l Hp|p l _ IH]; simpl.
  - destruct (p !! "teamName") as [[| | |team]|] eqn:Hteam; try done.
    destruct Hp. by exists team.
  - rewrite IH. by destruct (p !! "teamName") as [[| | |team]|].
Qed.

Lemma summary_lookup (p : Player) (f : string) :
  summary p !! f = if decide (f ∈ summaryFields) then p !! f else None.
Proof.
  unfold summary, summaryFields. rewrite !fmap_cons, fmap_nil.
  case_decide as Hin.
  - repeat (apply elem_of_cons in Hin as [->|Hin]);
      try (literal_lookup; by destruct (p !! _)).
    by apply elem_of_nil in Hin.
  - repeat (apply not_elem_of_cons in Hin as [? Hin]). by literal_lookup.
Qed.

(** X10. For a team name of ASCII units, on a collection whose team names
    are strings of ASCII units: when some stored team name equals the
    trimmed input up to case, the query by team answers 200 with the team
    name as stored in the first matching record and with the matching
    records in collection order, each reduced to [playerName], [image],
    [role] and [uniquePlayerId]. *)
Theorem byTeam_roster (players : list Player) (name : string)
    (first : Player) (others : list Player) :
  name ≠ "" →
  Exact.ascii name →
  Forall Exact.teamed players →
  filter (λ p, toLowerCase (Spec.team_key p) = toLowerCase (trim name))
    players
  = first :: others →
  getPlayersByTeam players (QString name)
  = Sent {| status := 200;
            json := RosterBody (Some (JStr (Spec.team_key first)))
                      (summary <$> first :: others) |}
  ∧ (∀ p field,
       summary p !! field
       = if decide (field ∈ summaryFields) then p !! field else None).
Proof.
  intros Hname _ Hteamed%exact_teamed Hroster.
  split; [|intros; apply summary_lookup].
  unfold getPlayersByTeam. rewrite decide_False by done.
  rewrite filter_by_team by done.
  rewrite Hroster. simpl. do 3 f_equal.
  assert (first ∈ players) as Hin.
  { assert (first ∈ filter (λ p, toLowerCase (Spec.team_key p)
                                 = toLowerCase (trim name)) players) as Hmem
      by (rewrite Hroster; by left).
    by apply list_elem_of_filter in Hmem as [_ ?]. }
  rewrite Forall_forall in Hteamed. destruct (Hteamed _ Hin) as [team Hteam].
  unfold Spec.team_key. by rewrite Hteam.
Qed.

Lemma byTeam_roster_witness :
  getPlayersByTeam Sample.roster (QString "  mumbai indians ")
  = Sent {| status := 200;
            json := RosterBody
                      (Some (JStr (Spec.team_key Scenario.rohit)))
                      (summary <$> Scenario.rohit :: [Scenario.bumrah]) |}
  ∧ (∀ p field,
       summary p !! field
       = if decide (field ∈ summaryFields) then p !! field else None).
Proof.
  apply (byTeam_roster Sample.roster "  mumbai indians " Scenario.rohit
           [Scenario.bumrah]).
  - discriminate.
  - closed_decide.
  - closed_decide.
  - closed_decide.
Defined.

(** X11. For a non-empty team name the query by team throws a [TypeError]
    exactly when some record of the collection has a team name that is
    absent or not a string, whichever team is asked for. *)
Theorem byTeam_throws_iff (players : list Player) (name : string) :
  name ≠ "" →
  (getPlayersByTeam players (QString name) = Uncaught TypeError
   ↔ Exists (λ p, ¬ Spec.teamed p) players).
Proof.
  intros Hname. unfold getPlayersByTeam. rewrite decide_False by done.
  destruct (all_teamed_or_not players) as [Hall|Hex].
  - rewrite filter_by_team by done. split.
    + by destruct (filter _ players).
    + intros (p & Hin & Hp)%Exists_exists. rewrite Forall_forall in Hall.
      by destruct Hp; apply Hall.
  - by rewrite filter_by_team_throws.
Qed.

Lemma byTeam_throws_iff_witness :
  getPlayersByTeam [Scenario.rohit; Scenario.numbered_team]
    (QString "Mumbai Indians")
  = Uncaught TypeError.
Proof.
  refine (proj2 (byTeam_throws_iff [Scenario.rohit; Scenario.numbered_team]
                   "Mumbai Indians" _) _).
  - discriminate.
  - apply Exists_cons_tl, Exists_cons_hd. intros [team Hteam].
    vm_compute in Hteam. discriminate Hteam.
Defined.

(** X12. The query by team depends on the team name only through its
    trimmed lower-case form: two non-empty names with the same form get the
    same 200 response. *)
Theorem byTeam_normalised (players : list Player) (a b : string)
    (r : Response) :
  a ≠ "" → b ≠ "" →
  toLowerCase (trim a) = toLowerCase (trim b) →
  getPlayersByTeam players (QString a) = Sent r →
  status r = 200 →
  getPlayersByTeam players (QString b) = Sent r.
Proof.
  intros Ha Hb Hsame. unfold getPlayersByTeam.
  rewrite !decide_False by done. rewrite Hsame.
  destruct (filter_with _ players) as [[|first roster]|e]; simpl; [|done..].
  by intros [= <-].
Qed.

Lemma byTeam_normalised_witness :
  getPlayersByTeam Sample.roster (QString " MUMBAI INDIANS ")
  = Sent {| status := 200;
            json := RosterBody (Some (JStr "Mumbai Indians"))
                      (summary <$> [Scenario.rohit; Scenario.bumrah]) |}.
Proof.
  apply (byTeam_normalised Sample.roster "Mumbai Indians"
           " MUMBAI INDIANS ").
  - discriminate.
  - discriminate.
  - closed_decide.
  - closed_decide.
  - reflexivity.
Defined.

(** X13. Whatever the request, the handler only ever appends: the
    collection after the attempt is the collection before it, followed by at
    most one record; the set of faulty paths is as before, no directory
    disappears, the journal of calls only grows, and no file other than the
    backing file and the files directly in the asset directory changes. *)
Theorem post_only_appends (body : JsObject) (s : Server) :
  (players (postPlayers body s).2 = players s
   ∨ ∃ record, players (postPlayers body s).2 = players s ++ [record])
  ∧ faulty (disk (postPlayers body s).2) = faulty (disk s)
  ∧ dirs (disk s) ⊆ dirs (disk (postPlayers body s).2)
  ∧ (∃ made, calls (disk (postPlayers body s).2) = calls (disk s) ++ made)
  ∧ (∀ path,
       path ≠ playersDataPath →
       (∀ name, path ≠ playersDir ++ [name]) →
       files (disk (postPlayers body s).2) !! path = files (disk s) !! path).
Proof.
  destruct (postPlayers_run body s)
    as [fields _| | | |bytes slug _ _|bytes slug _ _ _|bytes slug _ _ _ _
        |bytes slug _ _ _ _]; simpl.
  1-4: (split; [by left|]; split; [done|]; split; [done|];
        split; [by exists []; rewrite app_nil_r|done]).
  - split; [by left|]. split; [done|]. split; [done|].
    split; [by eexists|done].
  - split; [by left|]. split; [done|]. split; [set_solver|].
    split; [by eexists [_; _]; rewrite <- app_assoc|done].
  - split; [by right; eexists|]. split; [done|]. split; [set_solver|].
    split; [by eexists [_; _; _]; rewrite <- !app_assoc|].
    intros path _ Hpath. rewrite lookup_insert_ne; [done|].
    intros <-. by apply (Hpath (slug +:+ Attempt.extension body)).
  - split; [by right; eexists|]. split; [done|]. split; [set_solver|].
    split; [by eexists [_; _; _]; rewrite <- !app_assoc|].
    intros path Hdata Hpath. rewrite lookup_insert_ne by done.
    rewrite lookup_insert_ne; [done|].
    intros <-. by apply (Hpath (slug +:+ Attempt.extension body)).
Qed.

(** X14. A record is appended exactly when the attempt is answered with
    201 or with the failure of the write of the backing file; every other
    response, and an uncaught exception, leaves the collection as it was. *)
Theorem post_appends_iff (body : JsObject) (s : Server) :
  players (postPlayers body s).2 ≠ players s
  ↔ (∃ record,
       (postPlayers body s).1
       = Sent {| status := 201; json := PlayerBody record |})
    ∨ (postPlayers body s).1 = Sent Spec.PersistenceError.
Proof.
  assert (∀ (l : list Player) r, l ++ [r] ≠ l) as Hgrow.
  { intros l r Heq. apply (f_equal length) in Heq.
    rewrite length_app in Heq. simpl in Heq. lia. }
  destruct (postPlayers_run body s)
    as [fields _| | | |bytes slug _ _|bytes slug _ _ _|bytes slug _ _ _ _
        |bytes slug _ _ _ _]; simpl; split; try done.
  all: try (by intros [[? [=]]|[=]]).
  - intros _. by right.
  - intros _. left. by eexists.
Qed.

(** X15. What the answer 201 guarantees, whatever the request: the record
    sent back is the last record of the collection, it agrees with the body
    on every required field other than [image], its [image] is [/players/]
    followed by the name of a file that now exists in the asset directory,
    the asset directory exists, and the backing file holds the whole new
    collection. *)
Theorem post_created_state (body : JsObject) (s : Server) (record : Player) :
  (postPlayers body s).1
  = Sent {| status := 201; json := PlayerBody record |} →
  players (postPlayers body s).2 = players s ++ [record]
  ∧ (∀ field, field ∈ requiredFields → field ≠ "image" →
     record !! field = body !! field)
  ∧ (∃ name bytes,
       record !! "image" = Some (JStr ("/players/" +:+ name))
       ∧ files (disk (postPlayers body s).2) !! (playersDir ++ [name])
         = Some (Bytes bytes))
  ∧ playersDir ∈ dirs (disk (postPlayers body s).2)
  ∧ files (disk (postPlayers body s).2) !! playersDataPath
    = Some (PlayersJson (players (postPlayers body s).2)).
Proof.
  destruct (postPlayers_run body s)
    as [fields _| | | |bytes slug _ _|bytes slug _ _ _|bytes slug _ _ _ _
        |bytes slug _ _ _ _]; simpl; try done.
  intros [= <-]. split; [done|]. split; [|split; [|split]].
  - intros field Hin Hne. unfold Attempt.record.
    rewrite canonical_record_lookup. by rewrite decide_False, decide_True.
  - exists (slug +:+ Attempt.extension body), bytes. split.
    + unfold Attempt.record. rewrite canonical_record_lookup.
      by rewrite decide_True.
    + assert (playersDir ++ [slug +:+ Attempt.extension body]
              ≠ playersDataPath) as Hpaths by done.
      rewrite lookup_insert_ne by done. apply lookup_insert_eq.
  - apply elem_of_union. right. unfold ancestors, playersDir, publicDir.
    simpl. set_solver.
  - apply lookup_insert_eq.
Qed.

Lemma post_created_state_witness :
  players (postPlayers Scenario.kohli Sample.server).2
  = players Sample.server
    ++ [Spec.created Scenario.kohli "Virat Kohli" Sample.png]
  ∧ (∀ field, field ∈ requiredFields → field ≠ "image" →
     Spec.created Scenario.kohli "Virat Kohli" Sample.png !! field
     = Scenario.kohli !! field)
  ∧ (∃ name bytes,
       Spec.created Scenario.kohli "Virat Kohli" Sample.png !! "image"
       = Some (JStr ("/players/" +:+ name))
       ∧ files (disk (postPlayers Scenario.kohli Sample.server).2)
           !! (playersDir ++ [name])
         = Some (Bytes bytes))
  ∧ playersDir ∈ dirs (disk (postPlayers Scenario.kohli Sample.server).2)
  ∧ files (disk (postPlayers Scenario.kohli Sample.server).2)
      !! playersDataPath
    = Some (PlayersJson
              (players (postPlayers Scenario.kohli Sample.server).2)).
Proof.
  apply (post_created_state Scenario.kohli Sample.server
           (Spec.created Scenario.kohli "Virat Kohli" Sample.png)).
  closed_decide.
Defined.

(** X16. The calls to the file system, whatever the request: none; or the
    creation of the asset directory alone; or that and the write of the
    image file; or those two and the write of the backing file, which then
    carries the collection with the new record. The backing file is never
    written before the image file was. *)
Theorem post_calls_in_order (body : JsObject) (s : Server) :
  ∃ made,
    calls (disk (postPlayers body s).2) = calls (disk s) ++ made
    ∧ (made = []
       ∨ made = [Mkdir playersDir]
       ∨ (∃ name bytes,
            made = [Mkdir playersDir;
                    WriteFile (playersDir ++ [name]) (Bytes bytes)])
       ∨ (∃ name bytes,
            made = [Mkdir playersDir;
                    WriteFile (playersDir ++ [name]) (Bytes bytes);
                    WriteFile playersDataPath
                      (PlayersJson (players (postPlayers body s).2))]
            ∧ players (postPlayers body s).2 ≠ players s)).
Proof.
  assert (∀ (l : list Player) r, l ++ [r] ≠ l) as Hgrow.
  { intros l r Heq. apply (f_equal length) in Heq.
    rewrite length_app in Heq. simpl in Heq. lia. }
  destruct (postPlayers_run body s)
    as [fields _| | | |bytes slug _ _|bytes slug _ _ _|bytes slug _ _ _ _
        |bytes slug _ _ _ _]; simpl.
  1-4: (exists []; split; [by rewrite app_nil_r|by left]).
  - eexists. split; [done|]. by right; left.
  - eexists [_; _]. split; [by rewrite <- app_assoc|].
    right; right; left. by eexists _, _.
  - eexists [_; _; _]. split; [by rewrite <- !app_assoc|].
    right; right; right. by eexists _, _.
  - eexists [_; _; _]. split; [by rewrite <- !app_assoc|].
    right; right; right. by eexists _, _.
Qed.

(** ** The invariant of the collection *)

Section InvariantFacts.

Lemma find_none_fresh (id name : string) (l : list Player) :
  Forall Spec.keyed l →
  find_with (is_duplicate (Some (JStr id)) (Some (JStr name))) l
  = Return None →
  Forall (λ p, ¬ Spec.collides id name p) l.
Proof.
  induction 1 as [|p l Hp _ IH]; [constructor|].
  destruct (is_duplicate_keyed id name p Hp) as (b & Hb & Hiff).
  simpl. rewrite Hb. simpl. destruct b; [done|].
  intros Hrest. constructor; [|by apply IH].
  intros Hc. by apply Hiff in Hc.
Qed.

(** On a collection that is not empty, a duplicate search that finds
    nothing has read the identifier and the name as strings. *)
Lemma find_none_typed (oid oname : option JValue) (p : Player)
    (l : list Player) :
  Spec.keyed p →
  find_with (is_duplicate oid oname) (p :: l) = Return None →
  ∃ id name, oid = Some (JStr id) ∧ oname = Some (JStr name).
Proof.
  intros (i & n & Hi & Hn). simpl. unfold is_duplicate at 1.
  rewrite Hi, Hn. simpl.
  destruct oid as [[| | |id]|]; simpl; try done.
  case_bool_decide; [done|].
  destruct oname as [[| | |name]|]; simpl; try done.
  intros _. by eexists _, _.
Qed.

Lemma record_keys (body : JsObject) (slug : string) :
  Attempt.record body slug !! "uniquePlayerId" = body !! "uniquePlayerId"
  ∧ Attempt.record body slug !! "playerName" = body !! "playerName"
  ∧ Attempt.record body slug !! "teamName" = body !! "teamName".
Proof.
  unfold Attempt.record. rewrite !canonical_record_lookup.
  rewrite !decide_False by done. by rewrite !decide_True by closed_decide.
Qed.

Lemma unique_snoc (l : list Player) (r : Player) (id name : string) :
  Invariant.unique l →
  r !! "uniquePlayerId" = Some (JStr id) →
  r !! "playerName" = Some (JStr name) →
  Forall (λ p, ¬ Spec.collides id name p) l →
  Invariant.unique (l ++ [r]).
Proof.
  intros (Hkeyed & Hids & Hnames) Hid Hname Hfresh.
  split; [|split].
  - apply Forall_app. split; [done|]. repeat constructor. by exists id, name.
  - rewrite fmap_app. apply NoDup_app. split; [done|]. split.
    + intros k Hk [->|[]%elem_of_nil]%elem_of_cons.
      apply list_elem_of_fmap in Hk as (p & Hkey & Hp).
      rewrite Forall_forall in Hkeyed, Hfresh.
      destruct (Hkeyed p Hp) as (i & n & Hi & Hn).
      apply (Hfresh p Hp). left. exists i. split; [done|].
      unfold Invariant.id_key in Hkey. by rewrite Hid, Hi in Hkey.
    + repeat constructor. apply not_elem_of_nil.
  - rewrite fmap_app. apply NoDup_app. split; [done|]. split.
    + intros k Hk [->|[]%elem_of_nil]%elem_of_cons.
      apply list_elem_of_fmap in Hk as (p & Hkey & Hp).
      rewrite Forall_forall in Hkeyed, Hfresh.
      destruct (Hkeyed p Hp) as (i & n & Hi & Hn).
      apply (Hfresh p Hp). right. exists n. split; [done|].
      unfold Invariant.name_key in Hkey. by rewrite Hname, Hn in Hkey.
    + repeat constructor. apply not_elem_of_nil.
Qed.

End InvariantFacts.

(** X17. On a collection that is not empty and in which identifiers and
    names are strings, unique up to case, no request whatsoever breaks that
    invariant: after the attempt identifiers and names are still strings and
    still unique up to case. *)
Theorem post_keeps_unique (body : JsObject) (s : Server) :
  players s ≠ [] →
  Invariant.unique (players s) →
  Invariant.unique (players (postPlayers body s).2).
Proof.
  intros Hne Hunique.
  assert (∀ bytes slug,
            Attempt.prepared body s bytes slug →
            Invariant.unique (players s ++ [Attempt.record body slug]))
    as Hsnoc.
  { intros bytes slug (_ & Hfind & _ & _).
    destruct (players s) as [|p l] eqn:Hplayers; [done|].
    pose proof Hunique as (Hkeyed & _ & _).
    destruct (find_none_typed _ _ p l (Forall_inv Hkeyed) Hfind)
      as (id & name & Hid & Hname).
    rewrite Hid, Hname in Hfind.
    destruct (record_keys body slug) as (Hrid & Hrname & _).
    apply (unique_snoc _ _ id name); [done|congruence|congruence|].
    by apply find_none_fresh. }
  destruct (postPlayers_run body s)
    as [fields _| | | |bytes slug _ _|bytes slug _ _ _|bytes slug Hp _ _ _
        |bytes slug Hp _ _ _]; simpl; try done.
  - by apply (Hsnoc bytes slug).
  - by apply (Hsnoc bytes slug).
Qed.

Lemma post_keeps_unique_witness :
  Invariant.unique (players (postPlayers Scenario.kohli Sample.server).2).
Proof.
  apply (post_keeps_unique Scenario.kohli Sample.server).
  - discriminate.
  - split; [sample_keyed|]. split; closed_decide.
Defined.

(** X18. The empty collection is the exception: there the duplicate search
    reads nothing, so a request whose identifier is not a string (but whose
    name and image are strings of ASCII units) is answered with 201, and
    afterwards every lookup by identifier throws a [TypeError]. *)
Theorem post_untyped_id_on_empty (body : JsObject) (s : Server)
    (id : JValue) (name image : string) :
  players s = [] →
  Spec.present body →
  body !! "uniquePlayerId" = Some id →
  (∀ text, id ≠ JStr text) →
  body !! "playerName" = Some (JStr name) →
  body !! "image" = Some (JStr image) →
  Exact.ascii name → Exact.ascii image →
  playersDir ∉ faulty (disk s) →
  Spec.image_file name image ∉ faulty (disk s) →
  playersDataPath ∉ faulty (disk s) →
  (∃ record,
     (postPlayers body s).1
     = Sent {| status := 201; json := PlayerBody record |}
     ∧ record !! "uniquePlayerId" = Some id
     ∧ players (postPlayers body s).2 = [record])
  ∧ ∀ query, getPlayerById (players (postPlayers body s).2) query
             = Uncaught TypeError.
Proof.
  intros Hempty Hpresent Hid Htyped Hname Himage _ _ Hdir Hfile Hdata.
  assert (postPlayers body s
          = (Sent {| status := 201;
                     json := PlayerBody (Spec.created body name image) |},
             {| players := [Spec.created body name image];
                disk := written playersDataPath
                          (PlayersJson [Spec.created body name image])
                          (written (Spec.image_file name image)
                             (Spec.image_bytes image)
                             (made playersDir (disk s))) |})) as ->.
  { unfold postPlayers.
    rewrite (proj2 (missing_nil_iff body) Hpresent), Hempty. simpl.
    rewrite (addPlayer_run body s name image Hname Himage).
    rewrite !decide_False by done. by rewrite Hempty. }
  assert (Spec.created body name image !! "uniquePlayerId" = Some id)
    as Hrecord.
  { rewrite created_lookup, decide_False by done.
    by rewrite decide_True by closed_decide. }
  simpl. split; [by eexists|].
  intros query. unfold getPlayerById. simpl. rewrite Hrecord.
  destruct id as [| | |text]; try done. by destruct (Htyped text).
Qed.

Lemma post_untyped_id_on_empty_witness :
  (∃ record,
     (postPlayers Scenario.numbered_id Scenario.empty_server).1
     = Sent {| status := 201; json := PlayerBody record |}
     ∧ record !! "uniquePlayerId" = Some (JNum 18)
     ∧ players (postPlayers Scenario.numbered_id Scenario.empty_server).2
       = [record])
  ∧ ∀ query,
      getPlayerById
        (players (postPlayers Scenario.numbered_id Scenario.empty_server).2)
        query
      = Uncaught TypeError.
Proof.
  apply (post_untyped_id_on_empty Scenario.numbered_id Scenario.empty_server
           (JNum 18) "Virat Kohli" Sample.png).
  - reflexivity.
  - closed_decide.
  - closed_decide.
  - discriminate.
  - closed_decide.
  - closed_decide.
  - closed_decide.
  - closed_decide.
  - closed_decide.
  - closed_decide.
  - closed_decide.
Defined.

(** X19. On a collection whose first record has an identifier and a name
    that are strings of ASCII units, a request that passes the presence test
    with an identifier that is not a string, or with a fresh identifier that
    is a string of ASCII units and a name that is not a string, makes the
    handler throw a [TypeError] outside its [try] statement: no response is
    sent and the state is unchanged. *)
Theorem post_untyped_key_uncaught (body : JsObject) (s : Server)
    (first : Player) (others : list Player) :
  players s = first :: others →
  Exact.keyed first →
  Spec.present body →
  (∀ text, body !! "uniquePlayerId" ≠ Some (JStr text))
  ∨ ((∃ id, body !! "uniquePlayerId" = Some (JStr id)
            ∧ Exact.ascii id
            ∧ ¬ Lookup.id_is id first)
     ∧ ∀ text, body !! "playerName" ≠ Some (JStr text)) →
  postPlayers body s = (Uncaught TypeError, s).
Proof.
  intros Hplayers [[i Hi]%text_string [n Hn]%text_string] Hpresent Hbad.
  unfold postPlayers.
  rewrite (proj2 (missing_nil_iff body) Hpresent), Hplayers.
  simpl. unfold is_duplicate at 1. rewrite Hi, Hn. simpl.
  destruct Hbad as [Hid | [(id & Hid & _ & Hfresh) Hname]].
  - destruct (body !! "uniquePlayerId") as [[| | |text]|]; try done.
    by destruct (Hid text).
  - rewrite Hid. simpl. rewrite bool_decide_eq_false_2.
    + destruct (body !! "playerName") as [[| | |text]|]; try done.
      by destruct (Hname text).
    + intros Heq. apply Hfresh. by exists i.
Qed.

Lemma post_untyped_key_uncaught_witness :
  postPlayers Scenario.numbered_id Sample.server
  = (Uncaught TypeError, Sample.server).
Proof.
  apply (post_untyped_key_uncaught Scenario.numbered_id Sample.server
           Scenario.rohit [Scenario.dhoni; Scenario.bumrah]).
  - reflexivity.
  - closed_decide.
  - closed_decide.
  - left. intros text Hid. vm_compute in Hid. discriminate Hid.
Defined.

(** ** Two creations in a row *)

Section Appended.

Variables (body : JsObject) (s : Server) (id name image : string).

Hypothesis Hpresent : Spec.present body.
Hypothesis Hid : body !! "uniquePlayerId" = Some (JStr id).
Hypothesis Hname : body !! "playerName" = Some (JStr name).
Hypothesis Himage : body !! "image" = Some (JStr image).
Hypothesis Hstore : Forall Spec.keyed (players s).
Hypothesis Hfresh :
  Forall (λ player, ¬ Spec.collides id name player) (players s).
Hypothesis Hdir : playersDir ∉ faulty (disk s).
Hypothesis Hfile : Spec.image_file name image ∉ faulty (disk s).

Lemma postPlayers_appended :
  players (postPlayers body s).2
  = players s ++ [Spec.created body name image].
Proof.
  rewrite (postPlayers_fresh body s id name Hpresent Hid Hname Hstore
             Hfresh).
  rewrite (addPlayer_run body s name image Hname Himage).
  rewrite !decide_False by done.
  by destruct (decide (playersDataPath ∈ faulty (disk s))).
Qed.

Lemma postPlayers_created :
  playersDataPath ∉ faulty (disk s) →
  postPlayers body s
  = (Sent {| status := 201;
             json := PlayerBody (Spec.created body name image) |},
     {| players := players s ++ [Spec.created body name image];
        disk := written playersDataPath
                  (PlayersJson (players s ++ [Spec.created body name image]))
                  (written (Spec.image_file name image)
                     (Spec.image_bytes image)
                     (made playersDir (disk s))) |}).
Proof.
  intros Hdata.
  rewrite (postPlayers_fresh body s id name Hpresent Hid Hname Hstore
             Hfresh).
  rewrite (addPlayer_run body s name image Hname Himage).
  by rewrite !decide_False by done.
Qed.

End Appended.

(** X20. Creation is not repeatable: once an attempt, on strings of ASCII
    units, has appended its record, the same request again is answered with
    the conflict response and changes nothing, also when the first attempt
    ended with the failure of the write of the backing file. *)
Theorem post_twice_conflicts (body : JsObject) (s : Server)
    (id name image : string) :
  Spec.present body →
  body !! "uniquePlayerId" = Some (JStr id) →
  body !! "playerName" = Some (JStr name) →
  body !! "image" = Some (JStr image) →
  Exact.ascii id → Exact.ascii name → Exact.ascii image →
  Forall Exact.keyed (players s) →
  Forall (λ player, ¬ Spec.collides id name player) (players s) →
  playersDir ∉ faulty (disk s) →
  Spec.image_file name image ∉ faulty (disk s) →
  postPlayers body (postPlayers body s).2
  = (Sent Spec.ConflictError, (postPlayers body s).2).
Proof.
  intros Hpresent Hid Hname Himage _ _ _ Hstore%exact_keyed Hfresh Hdir
    Hfile.
  pose proof (postPlayers_appended body s id name image Hpresent Hid Hname
                Himage Hstore Hfresh Hdir Hfile) as Hplayers.
  assert (Spec.created body name image !! "uniquePlayerId"
          = Some (JStr id)) as Hrid.
  { rewrite created_lookup, decide_False by done.
    by rewrite decide_True by closed_decide. }
  assert (Spec.created body name image !! "playerName"
          = Some (JStr name)) as Hrname.
  { rewrite created_lookup, decide_False by done.
    by rewrite decide_True by closed_decide. }
  unfold postPlayers at 1.
  rewrite (proj2 (missing_nil_iff body) Hpresent), Hid, Hname, Hplayers.
  destruct (find_duplicate_some id name
              (players s ++ [Spec.created body name image]))
    as [duplicate ->]; [| |done].
  - apply Forall_app. split; [done|]. repeat constructor. by exists id, name.
  - apply Exists_app. right. apply Exists_cons_hd. left. by exists id.
Qed.

Lemma post_twice_conflicts_witness :
  postPlayers Scenario.kohli (postPlayers Scenario.kohli Sample.server).2
  = (Sent Spec.ConflictError, (postPlayers Scenario.kohli Sample.server).2).
Proof.
  apply (post_twice_conflicts Scenario.kohli Sample.server "RCB-18"
           "Virat Kohli" Sample.png).
  - closed_decide.
  - closed_decide.
  - closed_decide.
  - closed_decide.
  - closed_decide.
  - closed_decide.
  - closed_decide.
  - closed_decide.
  - sample_fresh.
  - closed_decide.
  - closed_decide.
Defined.

(** X21. Image files are named by the slug of the player name alone: when
    two requests on strings of ASCII units that do not collide (different
    identifiers and names) carry names with the same slug and images with
    the same extension, both are answered with 201, both stored records
    point to the same image path, and the file at that path holds the bytes
    of the second image. *)
Theorem same_slug_shares_image (first second : JsObject) (s : Server)
    (id1 name1 image1 id2 name2 image2 : string) :
  Spec.present first →
  first !! "uniquePlayerId" = Some (JStr id1) →
  first !! "playerName" = Some (JStr name1) →
  first !! "image" = Some (JStr image1) →
  Spec.present second →
  second !! "uniquePlayerId" = Some (JStr id2) →
  second !! "playerName" = Some (JStr name2) →
  second !! "image" = Some (JStr image2) →
  Exact.ascii id1 → Exact.ascii name1 → Exact.ascii image1 →
  Exact.ascii id2 → Exact.ascii name2 → Exact.ascii image2 →
  Forall Exact.keyed (players s) →
  Forall (λ player, ¬ Spec.collides id1 name1 player) (players s) →
  Forall (λ player, ¬ Spec.collides id2 name2 player) (players s) →
  toLowerCase id1 ≠ toLowerCase id2 →
  toLowerCase name1 ≠ toLowerCase name2 →
  slugify name1 = slugify name2 →
  Spec.extension_of image1 = Spec.extension_of image2 →
  faulty (disk s) = ∅ →
  let after_first := postPlayers first s in
  let after_second := postPlayers second after_first.2 in
  ∃ record1 record2,
    after_first.1 = Sent {| status := 201; json := PlayerBody record1 |}
    ∧ after_second.1 = Sent {| status := 201; json := PlayerBody record2 |}
    ∧ players after_second.2 = players s ++ [record1; record2]
    ∧ record1 !! "image" = Some (JStr (Spec.image_path name1 image1))
    ∧ record2 !! "image" = Some (JStr (Spec.image_path name1 image1))
    ∧ files (disk after_second.2) !! Spec.image_file name1 image1
      = Some (Spec.image_bytes image2).
Proof.
  intros Hp1 Hid1 Hname1 Himage1 Hp2 Hid2 Hname2 Himage2 _ _ _ _ _ _
    Hstore%exact_keyed Hfresh1 Hfresh2 Hids Hnames Hslug Hext Hsound. simpl.
  assert (Spec.image_file_name name2 image2
          = Spec.image_file_name name1 image1) as Hfile.
  { unfold Spec.image_file_name. by rewrite Hslug, Hext. }
  assert (∀ path : Path, path ∉ faulty (disk s)) as Hok.
  { intros path. rewrite Hsound. apply not_elem_of_empty. }
  rewrite (postPlayers_created first s id1 name1 image1) by done.
  simpl.
  rewrite (postPlayers_created second _ id2 name2 image2); simpl;
    try done.
  - exists (Spec.created first name1 image1),
      (Spec.created second name2 image2).
    split; [done|]. split; [done|]. split; [by rewrite <- app_assoc|].
    split; [|split].
    + rewrite created_lookup. by rewrite decide_True by done.
    + rewrite created_lookup. rewrite decide_True by done.
      unfold Spec.image_path. by rewrite Hfile.
    + rewrite lookup_insert_ne by (unfold Spec.image_file; done).
      unfold Spec.image_file. rewrite Hfile. by rewrite lookup_insert_eq.
  - apply Forall_app. split; [done|]. repeat constructor.
    exists id1, name1.
    rewrite !created_lookup, !decide_False by done.
    by rewrite !decide_True by closed_decide.
  - apply Forall_app. split; [done|]. repeat constructor.
    intros [(i & Hi & Heq)|(n & Hn & Heq)].
    + rewrite created_lookup, decide_False in Hi by done.
      rewrite decide_True in Hi by closed_decide. congruence.
    + rewrite created_lookup, decide_False in Hn by done.
      rewrite decide_True in Hn by closed_decide. congruence.
Qed.

Lemma same_slug_shares_image_witness :
  ∃ record1 record2,
    (postPlayers Scenario.kohli Sample.server).1
    = Sent {| status := 201; json := PlayerBody record1 |}
    ∧ (postPlayers Scenario.namesake
         (postPlayers Scenario.kohli Sample.server).2).1
      = Sent {| status := 201; json := PlayerBody record2 |}
    ∧ players (postPlayers Scenario.namesake
                 (postPlayers Scenario.kohli Sample.server).2).2
      = players Sample.server ++ [record1; record2]
    ∧ record1 !! "image"
      = Some (JStr (Spec.image_path "Virat Kohli" Sample.png))
    ∧ record2 !! "image"
      = Some (JStr (Spec.image_path "Virat Kohli" Sample.png))
    ∧ files (disk (postPlayers Scenario.namesake
                     (postPlayers Scenario.kohli Sample.server).2).2)
        !! Spec.image_file "Virat Kohli" Sample.png
      = Some (Spec.image_bytes "AAAA").
Proof.
  apply (same_slug_shares_image Scenario.kohli Scenario.namesake Sample.server
           "RCB-18" "Virat Kohli" Sample.png "RCB-19" "Virat-Kohli" "AAAA").
  - closed_decide.
  - closed_decide.
  - closed_decide.
  - closed_decide.
  - closed_decide.
  - closed_decide.
  - closed_decide.
  - closed_decide.
  - closed_decide.
  - closed_decide.
  - closed_decide.
  - closed_decide.
  - closed_decide.
  - closed_decide.
  - closed_decide.
  - sample_fresh.
  - sample_fresh.
  - closed_decide.
  - closed_decide.
  - closed_decide.
  - closed_decide.
  - reflexivity.
Defined.

(** X22. The presence test does not look at the type of the team name: a
    creation, on strings of ASCII units, whose team name is not a string is
    carried out like any other, and from then on every query by team with a
    non-empty name throws a [TypeError], also when the write of the backing
    file failed. *)
Theorem untyped_team_breaks_queries (body : JsObject) (s : Server)
    (id name image query : string) :
  Spec.present body →
  body !! "uniquePlayerId" = Some (JStr id) →
  body !! "playerName" = Some (JStr name) →
  body !! "image" = Some (JStr image) →
  Exact.ascii id → Exact.ascii name → Exact.ascii image →
  (∀ text, body !! "teamName" ≠ Some (JStr text)) →
  Forall Exact.keyed (players s) →
  Forall (λ player, ¬ Spec.collides id name player) (players s) →
  playersDir ∉ faulty (disk s) →
  Spec.image_file name image ∉ faulty (disk s) →
  query ≠ "" →
  getPlayersByTeam (players (postPlayers body s).2) (QString query)
  = Uncaught TypeError.
Proof.
  intros Hpresent Hid Hname Himage _ _ _ Hteam Hstore%exact_keyed Hfresh
    Hdir Hfile Hquery.
  rewrite (postPlayers_appended body s id name image) by done.
  unfold getPlayersByTeam. rewrite decide_False by done.
  rewrite filter_by_team_throws; [done|].
  apply Exists_app. right. apply Exists_cons_hd.
  intros [team Hrecord].
  rewrite created_lookup, decide_False in Hrecord by done.
  rewrite decide_True in Hrecord by closed_decide.
  by destruct (Hteam team).
Qed.

Lemma untyped_team_breaks_queries_witness :
  getPlayersByTeam
    (players (postPlayers Scenario.numbered_team Sample.server).2)
    (QString "Mumbai Indians")
  = Uncaught TypeError.
Proof.
  apply (untyped_team_breaks_queries Scenario.numbered_team Sample.server
           "RCB-18" "Virat Kohli" Sample.png "Mumbai Indians").
  - closed_decide.
  - closed_decide.
  - closed_decide.
  - closed_decide.
  - closed_decide.
  - closed_decide.
  - closed_decide.
  - intros text Hteam. vm_compute in Hteam. discriminate Hteam.
  - closed_decide.
  - sample_fresh.
  - closed_decide.
  - closed_decide.
  - discriminate.
Defined.

(** ** A creation followed by a query by team *)

Section Trimmed.

(** No white space at either end. *)
Lemma trimmed_ends (l : list ascii) :
  (∀ c, head l = Some c → Ascii.is_space c = false) →
  (∀ c, last l = Some c → Ascii.is_space c = false) →
  Chars.drop_trailing Ascii.is_space (Chars.drop_leading Ascii.is_space l)
  = l.
Proof.
  intros Hhead Hlast.
  assert (Chars.drop_leading Ascii.is_space l = l) as ->.
  { destruct l as [|c l]; [done|]. simpl. by rewrite (Hhead c). }
  destruct (last l) as [c|] eqn:Hl.
  - apply (drop_trailing_last _ _ c); [done|by apply Hlast].
  - by apply last_None in Hl as ->.
Qed.

Lemma drop_leading_head (p : ascii → bool) (l : list ascii) (c : ascii) :
  head (Chars.drop_leading p l) = Some c → p c = false.
Proof.
  induction l as [|c0 l IH]; simpl; [done|].
  destruct (p c0) eqn:Hc0; [done|]. simpl. by intros [= <-].
Qed.

Lemma drop_trailing_head (p : ascii → bool) (l : list ascii) (c : ascii) :
  head (Chars.drop_trailing p l) = Some c → head l = Some c.
Proof.
  destruct l as [|c0 l]; simpl; [done|].
  destruct (Chars.drop_trailing p l); [|done]. by destruct (p c0).
Qed.

Lemma drop_trailing_end (p : ascii → bool) (l : list ascii) (c : ascii) :
  last (Chars.drop_trailing p l) = Some c → p c = false.
Proof.
  induction l as [|c0 l IH]; simpl; [done|].
  destruct (Chars.drop_trailing p l) as [|c1 r].
  - destruct (p c0) eqn:Hc0; [done|]. simpl. by intros [= <-].
  - intros Hl. apply IH. by rewrite last_cons_cons in Hl.
Qed.

Lemma lower_space (c : ascii) :
  Ascii.is_space (Chars.lower c) = Ascii.is_space c.
Proof. destruct c as [[] [] [] [] [] [] [] []]; by vm_compute. Qed.

(** A string that equals a trimmed string up to case is itself trimmed. *)
Lemma trimmed_up_to_case (team query : string) :
  toLowerCase team = toLowerCase (trim query) → trim team = team.
Proof.
  intros Hsame. apply (f_equal chars) in Hsame.
  unfold toLowerCase, trim in Hsame. rewrite !chars_str in Hsame.
  set (t := Chars.drop_trailing Ascii.is_space
              (Chars.drop_leading Ascii.is_space (chars query))) in *.
  unfold trim. rewrite trimmed_ends; [apply str_chars|..].
  - intros c Hc.
    assert (head (Chars.lower <$> chars team) = Some (Chars.lower c)) as Hl
      by (by destruct (chars team) as [|? ?]; simplify_eq/=).
    rewrite Hsame in Hl. rewrite <- lower_space.
    destruct t as [|c' t'] eqn:Ht; [done|]. simpl in Hl.
    injection Hl as <-. rewrite lower_space.
    apply (drop_leading_head _ (chars query)).
    apply (drop_trailing_head Ascii.is_space). fold t. by rewrite Ht.
  - intros c Hc.
    assert (last (Chars.lower <$> chars team) = Some (Chars.lower c)) as Hl
      by (by rewrite fmap_last, Hc).
    rewrite Hsame, fmap_last in Hl. rewrite <- lower_space.
    destruct (last t) as [c'|] eqn:Ht; [|done]. simpl in Hl.
    injection Hl as <-. rewrite lower_space.
    by apply (drop_trailing_end Ascii.is_space
                (Chars.drop_leading Ascii.is_space (chars query))).
Qed.

End Trimmed.

(** X23. Stored team names are compared as they are, while the team name
    of a query is trimmed first. On strings of ASCII units, after the
    creation of the first player of a team, the query for the team name of
    the request answers with that one player when the name has no white
    space around it, and with 404 when it has: such a record is out of reach
    of every query by team. *)
Theorem create_then_byTeam (body : JsObject) (s : Server)
    (id name image team : string) :
  Spec.present body →
  body !! "uniquePlayerId" = Some (JStr id) →
  body !! "playerName" = Some (JStr name) →
  body !! "image" = Some (JStr image) →
  body !! "teamName" = Some (JStr team) →
  team ≠ "" →
  Exact.ascii id → Exact.ascii name → Exact.ascii image →
  Exact.ascii team →
  Forall Exact.keyed (players s) →
  Forall (λ player, ¬ Spec.collides id name player) (players s) →
  Forall Exact.teamed (players s) →
  Forall (λ player,
            toLowerCase (Spec.team_key player) ≠ toLowerCase (trim team))
    (players s) →
  playersDir ∉ faulty (disk s) →
  Spec.image_file name image ∉ faulty (disk s) →
  getPlayersByTeam (players (postPlayers body s).2) (QString team)
  = (if decide (trim team = team) then
       Sent {| status := 200;
               json := RosterBody (Some (JStr team))
                         [summary (Spec.created body name image)] |}
     else
       Sent {| status := 404;
               json := Message ("No players found for team " +:+ team) |})
  ∧ (trim team ≠ team →
     ∀ query,
       Exact.ascii query →
       toLowerCase (Spec.team_key (Spec.created body name image))
       ≠ toLowerCase (trim query)).
Proof.
  intros Hpresent Hid Hname Himage Hteam Hne _ _ _ _ Hstore%exact_keyed
    Hfresh Hteamed%exact_teamed Hnew Hdir Hfile.
  assert (Spec.created body name image !! "teamName" = Some (JStr team))
    as Hrecord.
  { rewrite created_lookup, decide_False by done.
    by rewrite decide_True by closed_decide. }
  assert (Spec.team_key (Spec.created body name image) = team) as Hkey.
  { unfold Spec.team_key. by rewrite Hrecord. }
  split.
  - rewrite (postPlayers_appended body s id name image) by done.
    unfold getPlayersByTeam. rewrite decide_False by done.
    rewrite filter_by_team.
    + rewrite filter_app.
      assert (filter (λ player, toLowerCase (Spec.team_key player)
                                = toLowerCase (trim team)) (players s) = [])
        as ->.
      { apply elem_of_nil_inv. intros p [Hp Hin]%list_elem_of_filter.
        rewrite Forall_forall in Hnew. by apply (Hnew p). }
      rewrite filter_cons, filter_nil, Hkey. simpl.
      destruct (decide (trim team = team)) as [Htrim|Htrim].
      * rewrite Htrim. rewrite decide_True by done. simpl.
        by rewrite Hrecord.
      * rewrite decide_False; [done|].
        intros Hsame. by apply Htrim, (trimmed_up_to_case team team).
    + apply Forall_app. split; [done|]. repeat constructor. by exists team.
  - intros Hpadded query _. rewrite Hkey. intros Hsame.
    by apply Hpadded, (trimmed_up_to_case team query).
Qed.

Lemma create_then_byTeam_witness :
  getPlayersByTeam
    (players (postPlayers Scenario.padded_team Sample.server).2)
    (QString " Gujarat Titans ")
  = (if decide (trim " Gujarat Titans " = " Gujarat Titans ") then
       Sent {| status := 200;
               json := RosterBody (Some (JStr " Gujarat Titans "))
                         [summary (Spec.created Scenario.padded_team
                                     "Virat Kohli" Sample.png)] |}
     else
       Sent {| status := 404;
               json := Message ("No players found for team "
                                +:+ " Gujarat Titans ") |})
  ∧ (trim " Gujarat Titans " ≠ " Gujarat Titans " →
     ∀ query,
       Exact.ascii query →
       toLowerCase (Spec.team_key (Spec.created Scenario.padded_team
                                     "Virat Kohli" Sample.png))
       ≠ toLowerCase (trim query)).
Proof.
  apply (create_then_byTeam Scenario.padded_team Sample.server "RCB-18"
           "Virat Kohli" Sample.png " Gujarat Titans ").
  - closed_decide.
  - closed_decide.
  - closed_decide.
  - closed_decide.
  - closed_decide.
  - discriminate.
  - closed_decide.
  - closed_decide.
  - closed_decide.
  - closed_decide.
  - closed_decide.
  - sample_fresh.
  - closed_decide.
  - closed_decide.
  - closed_decide.
  - closed_decide.
Defined.

(** ** The listening port *)

Section Numerals.

Lemma nearest_safe (n : N) : Command.safe n → Double.nearest n = Some n.
Proof.
  unfold Command.safe, Double.nearest. intros Hsafe.
  assert (N.log2 n - 52 = 0)%N as ->.
  { destruct (decide (n = 0)%N) as [->|Hn]; [done|].
    assert (N.log2 n < 53)%N by (apply N.log2_lt_pow2; lia). lia. }
  rewrite N.eqb_refl, !N.shiftr_0_r, !N.shiftl_0_r. simpl negb.
  cbv beta iota zeta. simpl andb. cbv iota.
  assert (n < 2 ^ 1024)%N as Hlt.
  { eapply N.lt_trans; [done|]. by apply N.pow_lt_mono_r. }
  apply N.ltb_lt in Hlt. by rewrite Hlt.
Qed.

Lemma nearest_positive (n m : N) :
  (0 < n)%N → Double.nearest n = Some m → (0 < m)%N.
Proof.
  unfold Double.nearest. intros Hn.
  set (e := (N.log2 n - 52)%N).
  assert (0 < N.shiftr n e)%N as Hq.
  { rewrite N.shiftr_div_pow2.
    assert (2 ^ e ≠ 0)%N by (by apply N.pow_nonzero).
    apply N.div_str_pos. split; [lia|].
    etrans; [|by apply N.log2_spec].
    apply N.pow_le_mono_r; lia. }
  cbv zeta. case_match; [|done]. intros [= <-].
  rewrite N.shiftl_mul_pow2.
  assert (2 ^ e ≠ 0)%N by (by apply N.pow_nonzero).
  destruct (negb (e =? 0)%N && _); apply N.mul_pos_pos; lia.
Qed.

Lemma pretty_N_char_value (k : N) :
  (k < 10)%N →
  Chars.is_digit (pretty_N_char k) = true
  ∧ (Chars.code (pretty_N_char k) - 48 = k)%N.
Proof.
  intros Hk.
  assert (k = 0 ∨ k = 1 ∨ k = 2 ∨ k = 3 ∨ k = 4 ∨ k = 5 ∨ k = 6 ∨ k = 7
          ∨ k = 8 ∨ k = 9)%N as Hcases by lia.
  repeat (destruct Hcases as [->|Hcases]; [by vm_compute|]).
  subst. by vm_compute.
Qed.

Lemma pretty_N_go_digits (x : N) :
  ∃ d, (∀ s, pretty_N_go x s = str (d ++ chars s))
       ∧ forallb Chars.is_digit d = true
       ∧ ((0 < x)%N → d ≠ [])
       ∧ ∀ rest, digits_value 0 (d ++ rest) = digits_value x rest.
Proof.
  induction (N.lt_wf_0 x) as [x _ IH].
  assert (x = 0 ∨ 0 < x)%N as [->|Hpos] by lia.
  - exists []. split.
    { intros s. by rewrite pretty_N_go_0, app_nil_l, str_chars. }
    split; [done|]. split; [lia|done].
  - destruct (IH (x `div` 10)%N) as (d & Hd & Hdigits & _ & Hvalue).
    { by apply N.div_lt. }
    destruct (pretty_N_char_value (x `mod` 10)) as [Hc Hv].
    { by apply N.mod_lt. }
    exists (d ++ [pretty_N_char (x `mod` 10)]). split; [|split; [|split]].
    + intros s. rewrite pretty_N_go_step, Hd by done.
      by rewrite <- app_assoc.
    + rewrite forallb_app, Hdigits. simpl. by rewrite Hc.
    + intros _. by destruct d.
    + intros rest. rewrite <- app_assoc, Hvalue. simpl. rewrite Hv.
      f_equal. pose proof (N.div_mod x 10). lia.
Qed.

(** The decimal rendering of a natural number is a numeral that reads
    back as that number. *)
Lemma pretty_digits (n : N) :
  ∃ d, pretty n = str d ∧ d ≠ [] ∧ forallb Chars.is_digit d = true
       ∧ digits_value 0 d = n.
Proof.
  unfold pretty, pretty_N. case_decide as Hn.
  - subst. by exists ["0"%char].
  - destruct (pretty_N_go_digits n) as (d & Hd & Hdigits & Hne & Hvalue).
    exists d. split; [rewrite Hd; simpl; by rewrite app_nil_r|].
    split; [apply Hne; lia|]. split; [done|].
    by rewrite <- (app_nil_r d), Hvalue.
Qed.

Lemma is_numeral_str (d : list ascii) :
  d ≠ [] → forallb Chars.is_digit d = true → is_numeral (str d) = true.
Proof.
  intros Hne Hd. unfold is_numeral. rewrite chars_str. by destruct d.
Qed.

(** A digit is neither white space nor a sign. *)
Lemma digit_plain (c : ascii) :
  Chars.is_digit c = true →
  Ascii.is_space c = false
  ∧ (Chars.code c =? 45)%N = false ∧ (Chars.code c =? 43)%N = false.
Proof. destruct c as [[] [] [] [] [] [] [] []]; by vm_compute. Qed.

(** [parseInt] on a numeral followed by something that is not a digit. *)
Lemma parseInt_prefix (blank d rest : list ascii) :
  forallb Ascii.is_space blank = true →
  d ≠ [] → forallb Chars.is_digit d = true →
  match rest with c :: _ => Chars.is_digit c = false | [] => True end →
  parseInt (str (blank ++ d ++ rest))
  = Double.of_integer false (digits_value 0 d).
Proof.
  intros Hblank Hne Hd Hrest. unfold parseInt. rewrite chars_str.
  assert (Chars.drop_leading Ascii.is_space (blank ++ d ++ rest)
          = d ++ rest) as ->.
  { induction blank as [|b blank IH]; simpl in *.
    - destruct d as [|c d]; [done|]. simpl in *.
      apply andb_true_iff in Hd as [Hc _].
      by destruct (digit_plain c Hc) as (-> & _).
    - apply andb_true_iff in Hblank as [-> Hblank]. by apply IH. }
  destruct d as [|c digits] eqn:Heq; [done|]. rewrite <- Heq in *.
  assert (match d ++ rest with
          | c :: tail =>
              if (Chars.code c =? 45)%N then (true, tail)
              else if (Chars.code c =? 43)%N then (false, tail)
              else (false, d ++ rest)
          | [] => (false, [])
          end = (false, d ++ rest)) as ->.
  { rewrite Heq in *. simpl in *. apply andb_true_iff in Hd as [Hc _].
    by destruct (digit_plain c Hc) as (_ & -> & ->). }
  rewrite span_app by done. simpl. by rewrite Heq.
Qed.

Lemma checked_safe (n : N) :
  Command.safe n →
  (if isInteger (Double.of_integer false n)
      && is_positive (Double.of_integer false n)
   then Some (Double.of_integer false n) else None)
  = if decide (n = 0%N) then None else Some (Finite (Z.of_N n)).
Proof.
  intros Hsafe. unfold Double.of_integer. rewrite nearest_safe by done.
  simpl. case_decide as Hn.
  - by subst.
  - assert ((0 <? Z.of_N n)%Z = true) as -> by (apply Z.ltb_lt; lia). done.
Qed.

Lemma checked_positive (x : Number) :
  isInteger x && is_positive x = true → ∃ z, x = Finite z ∧ (0 < z)%Z.
Proof.
  destruct x as [|negative|z]; simpl; try done.
  intros Hz%Z.ltb_lt. by exists z.
Qed.

Lemma find_numeral_skip (before : list string) (l : list string) :
  Forall (λ a, is_numeral a = false) before →
  List.find is_numeral (before ++ l) = List.find is_numeral l.
Proof. induction 1 as [|a before Ha _ IH]; simpl; [done|]. by rewrite Ha. Qed.

End Numerals.

(** X24. Whatever the command line and the environment, the port chosen is
    a positive integer: a numeral for zero, a negative or non-numeric
    value and a value too large for a double are all passed over. *)
Theorem port_positive (argv : list string) (envPort : option string) :
  ∃ port : Z, PORT argv envPort = Finite port ∧ (0 < port)%Z.
Proof.
  unfold PORT, pickPortFromArgs, pickPortFromEnv.
  destruct (List.find is_numeral (drop 2 argv)) as [arg|].
  - destruct (isInteger (parseInt arg) && is_positive (parseInt arg))
      eqn:Hchecked; [by apply checked_positive|].
    destruct envPort as [text|]; [|by exists 9000%Z].
    case_decide; [by exists 9000%Z|].
    destruct (isInteger (parseInt text) && is_positive (parseInt text))
      eqn:Henv; [by apply checked_positive|by exists 9000%Z].
  - destruct envPort as [text|]; [|by exists 9000%Z].
    case_decide; [by exists 9000%Z|].
    destruct (isInteger (parseInt text) && is_positive (parseInt text))
      eqn:Henv; [by apply checked_positive|by exists 9000%Z].
Qed.

(** X25. Only the first numeral on the command line is looked at. When it
    denotes a positive integer (below [2^53], so also beyond 65535) that
    integer is the port, whatever follows it and whatever the environment
    holds; when it denotes zero, the later arguments are not tried and the
    port is the one chosen without any argument. *)
Theorem port_first_numeral (before after : list string) (n : N)
    (envPort : option string) :
  Forall (λ argument, is_numeral argument = false) before →
  Command.safe n →
  PORT (Command.line (before ++ pretty n :: after)) envPort
  = if decide (n = 0%N) then PORT (Command.line []) envPort
    else Finite (Z.of_N n).
Proof.
  intros Hbefore Hsafe. unfold PORT at 1, pickPortFromArgs, Command.line.
  simpl drop. rewrite drop_0, find_numeral_skip by done.
  destruct (pretty_digits n) as (d & Hpretty & Hne & Hdigits & Hvalue).
  simpl. rewrite Hpretty, is_numeral_str by done.
  rewrite <- (app_nil_r d), <- (app_nil_l (d ++ [])).
  rewrite parseInt_prefix by done. rewrite Hvalue, checked_safe by done.
  by case_decide.
Qed.

Lemma port_first_numeral_witness :
  PORT (Command.line (["--verbose"] ++ pretty 8080%N :: ["9090"]))
    (Some "3000")
  = Finite 8080
  ∧ PORT (Command.line ([] ++ pretty 0%N :: ["8080"])) (Some "3000")
    = PORT (Command.line []) (Some "3000").
Proof.
  split.
  - apply (port_first_numeral ["--verbose"] ["9090"] 8080 (Some "3000")).
    + by repeat constructor.
    + closed_decide.
  - apply (port_first_numeral [] ["8080"] 0 (Some "3000")).
    + constructor.
    + closed_decide.
Defined.

(** X26. The environment is read more leniently than the command line: a
    value of [PORT] that starts, after white space, with the numeral of a
    positive integer and goes on with anything that is not a digit gives
    that integer, while the same text as the only argument is not a numeral
    and leaves the choice to the environment. *)
Theorem port_env_prefix (blank rest : string) (n : N)
    (envPort : option string) :
  forallb Ascii.is_space (chars blank) = true →
  match chars rest with
  | c :: _ => Chars.is_digit c = false
  | [] => False
  end →
  Command.safe n → n ≠ 0%N →
  PORT (Command.line []) (Some (blank +:+ pretty n +:+ rest))
  = Finite (Z.of_N n)
  ∧ PORT (Command.line [blank +:+ pretty n +:+ rest]) envPort
    = PORT (Command.line []) envPort.
Proof.
  intros Hblank Hrest Hsafe Hn.
  destruct (pretty_digits n) as (d & Hpretty & Hne & Hdigits & Hvalue).
  assert (blank +:+ pretty n +:+ rest
          = str (chars blank ++ d ++ chars rest)) as Htext.
  { by rewrite Hpretty, !str_app, !str_chars. }
  split.
  - unfold PORT, pickPortFromArgs, pickPortFromEnv, Command.line.
    simpl drop. simpl List.find. cbv iota.
    rewrite decide_False.
    + rewrite Htext, parseInt_prefix; try done.
      * rewrite Hvalue, checked_safe by done. by rewrite decide_False.
      * by destruct (chars rest).
    + rewrite Htext. intros Hempty%str_nil_iff.
      by destruct (chars blank), d.
  - unfold PORT, pickPortFromArgs, Command.line. simpl drop.
    simpl List.find.
    assert (is_numeral (blank +:+ pretty n +:+ rest) = false) as ->; [|done].
    unfold is_numeral. rewrite Htext, chars_str.
    destruct (chars blank ++ d ++ chars rest) eqn:Hall; [done|].
    rewrite <- Hall, !forallb_app.
    destruct (chars rest) as [|c tail]; [done|]. simpl. rewrite Hrest.
    by rewrite andb_false_r, andb_false_r.
Qed.

Lemma port_env_prefix_witness :
  PORT (Command.line []) (Some (" " +:+ pretty 8080%N +:+ "/tcp"))
  = Finite 8080
  ∧ PORT (Command.line [" " +:+ pretty 8080%N +:+ "/tcp"]) None
    = PORT (Command.line []) None.
Proof.
  apply (port_env_prefix " " "/tcp" 8080 None).
  - reflexivity.
  - reflexivity.
  - closed_decide.
  - discriminate.
Defined.
